(** * doc-lama-metagen: the text pipeline of [doc-lama-metagen.py]

    A shallow embedding of the deterministic core of the script: the
    sanitizer ([sanitize_and_finalize]), the brand check
    ([load_brand_config_from_entities], [post_process_description]), the
    AsciiDoc attribute resolver ([load_and_process_adoc_attributes],
    [resolve_attributes]) and the length gate of [process_adoc_file]; and,
    around them, the entity references ([resolve_entities_in_string]), the
    selection of the files ([should_skip]), the plain attribute parser
    ([load_adoc_attributes]), the payload ([extract_adoc_payload]), the
    writing of the description ([process_adoc_file]) and the two options
    that [main] parses.  The DocBook files ([process_xml_file], which
    reads them through lxml), the report and the requests to the language
    model are outside it; the answers of the model are a parameter.

    Conventions.
    - A Python [str] is a [list ascii] ([str]); string literals are read
      through the coercion [lit].  The alphabet is the 7-bit range: [\w],
      [\s], [str.lower] and [str.upper] are Python's on code points 0..127,
      and the remaining values of [ascii] are inert symbols (neither word
      characters nor white space, without case).  The four curly quotes of
      [FORBIDDEN_CHARS_RE] lie outside this alphabet.  Beyond it Python's
      [str.upper] can give more than one character and [re.IGNORECASE] folds
      some characters onto letters, so the statements that count characters
      after the capitalization, or that compare a text with the text the
      sanitizer returns, are made of texts within the alphabet
      ([within_alphabet]).
    - Every regular expression of the script is embedded as a [matcher]: the
      match Python's backtracking engine finds at one position, given the
      character before it.  [re_sub] and [re_search] are the left-to-right
      drivers of [re.sub] and [re.search].
    - A [dict] is an association list in insertion order; a [set] that the
      script iterates is taken in an iteration order the caller supplies. *)

From Stdlib Require Import Ascii String Bool Arith PeanoNat NArith Lia List.
Import ListNotations.
Open Scope string_scope.
Open Scope nat_scope.
Open Scope list_scope.

(* ================================================================== *)
(** ** Python strings *)

Module Text.

Definition str := list ascii.

Definition lit (s : string) : str := list_ascii_of_string s.
Coercion lit : string >-> str.

(** A list of string literals. *)
Definition lits (l : list string) : list str := map lit l.

(** [ord(c)] *)
Definition ord (c : ascii) : N := N_of_ascii c.

Definition in_range (lo hi : N) (c : ascii) : bool :=
  (lo <=? ord c)%N && (ord c <=? hi)%N.

Definition is_upper (c : ascii) : bool := in_range 65 90 c.
Definition is_lower (c : ascii) : bool := in_range 97 122 c.
Definition is_digit (c : ascii) : bool := in_range 48 57 c.

(** [\w]: letters, digits and the underscore. *)
Definition is_word (c : ascii) : bool :=
  is_upper c || is_lower c || is_digit c || (ord c =? 95)%N.

(** [\s], [str.isspace]: TAB LF VT FF CR, FS GS RS US and the space. *)
Definition is_space (c : ascii) : bool := in_range 9 13 c || in_range 28 32 c.

(** [c.lower()] and [c.upper()] *)
Definition lower (c : ascii) : ascii :=
  if is_upper c then ascii_of_N (ord c + 32) else c.
Definition upper (c : ascii) : ascii :=
  if is_lower c then ascii_of_N (ord c - 32) else c.

Definition str_lower (s : str) : str := map lower s.

(** The alphabet: the code points 0..127, on which [upper] and [lower] are
    [str.upper] and [str.lower]; and a text all of whose characters lie in
    it ([s.isascii()]). *)
Definition in_alphabet (c : ascii) : bool := (ord c <? 128)%N.
Definition within_alphabet (s : str) : bool := forallb in_alphabet s.

Definition str_eq_dec : forall a b : str, {a = b} + {a <> b} :=
  list_eq_dec ascii_dec.

Definition str_eqb (a b : str) : bool := if str_eq_dec a b then true else false.

(** [c in chars] *)
Definition char_in (chars : str) (c : ascii) : bool := existsb (Ascii.eqb c) chars.

(** [x in xs] for a list or set of strings *)
Definition str_in (x : str) (xs : list str) : bool := existsb (str_eqb x) xs.

Fixpoint drop_while {A : Type} (p : A -> bool) (s : list A) : list A :=
  match s with
  | [] => []
  | c :: s' => if p c then drop_while p s' else s
  end.

(** The longest prefix of characters in a class, and what follows it. *)
Fixpoint span (p : ascii -> bool) (s : str) : str * str :=
  match s with
  | [] => ([], [])
  | c :: s' => if p c then let (a, b) := span p s' in (c :: a, b) else ([], s)
  end.

Definition lstrip_by (p : ascii -> bool) (s : str) : str := drop_while p s.
Definition rstrip_by (p : ascii -> bool) (s : str) : str :=
  rev (drop_while p (rev s)).
Definition strip_by (p : ascii -> bool) (s : str) : str :=
  rstrip_by p (lstrip_by p s).

(** [s.strip()], [s.strip(chars)], [s.rstrip(chars)] *)
Definition strip (s : str) : str := strip_by is_space s.
Definition strip_chars (chars : str) (s : str) : str := strip_by (char_in chars) s.
Definition rstrip_chars (chars : str) (s : str) : str := rstrip_by (char_in chars) s.

(** [s.startswith(p)] *)
Fixpoint starts_with (p s : str) : bool :=
  match p, s with
  | [], _ => true
  | a :: p', b :: s' => Ascii.eqb a b && starts_with p' s'
  | _ :: _, [] => false
  end.

(** [s.endswith(p)] *)
Definition ends_with (p s : str) : bool := starts_with (rev p) (rev s).

(** [p in s] *)
Fixpoint contains (p s : str) : bool :=
  starts_with p s || match s with [] => false | _ :: s' => contains p s' end.

(** [s.split()]: the maximal runs of characters that are not white space. *)
Fixpoint split_ws (s : str) : list str :=
  match s with
  | [] => []
  | c :: s' =>
      if is_space c then split_ws s'
      else match s' with
           | [] => [[c]]
           | d :: _ =>
               if is_space d then [c] :: split_ws s'
               else match split_ws s' with
                    | w :: ws => (c :: w) :: ws
                    | [] => [[c]]
                    end
           end
  end.

(** [sep.join(words)] *)
Fixpoint join (sep : str) (words : list str) : str :=
  match words with
  | [] => []
  | [w] => w
  | w :: ws => w ++ sep ++ join sep ws
  end.

(** [s.rfind(c)] for a single character: the last index holding [c]. *)
Fixpoint rfind_char (c : ascii) (s : str) : option nat :=
  match s with
  | [] => None
  | d :: s' =>
      match rfind_char c s' with
      | Some i => Some (S i)
      | None => if Ascii.eqb d c then Some 0 else None
      end
  end.

(** [s.splitlines()] on the line boundaries of the alphabet: LF, CR, CR LF,
    VT, FF, FS, GS and RS.  A final line break opens no further line. *)
Definition is_linebreak (c : ascii) : bool := in_range 10 13 c || in_range 28 30 c.

Fixpoint splitlines_from (cur : str) (s : str) : list str :=
  match s with
  | [] => match cur with [] => [] | _ => [rev cur] end
  | c :: s' =>
      if is_linebreak c then
        match s' with
        | d :: s'' =>
            if (ord c =? 13)%N && (ord d =? 10)%N
            then rev cur :: splitlines_from [] s''
            else rev cur :: splitlines_from [] s'
        | [] => [rev cur]
        end
      else splitlines_from (c :: cur) s'
  end.

Definition splitlines (s : str) : list str := splitlines_from [] s.

(** [sorted(xs, key=lambda x: len(key x), reverse=True)]: Python's sort is
    stable, also under [reverse=True]: elements of equal length keep their
    order. *)
Fixpoint insert_by_len_desc {A : Type} (key : A -> str) (x : A) (l : list A) : list A :=
  match l with
  | [] => [x]
  | y :: l' =>
      if length (key x) <? length (key y)
      then y :: insert_by_len_desc key x l'
      else x :: l
  end.

Fixpoint sorted_by_len_desc {A : Type} (key : A -> str) (l : list A) : list A :=
  match l with
  | [] => []
  | x :: l' => insert_by_len_desc key x (sorted_by_len_desc key l')
  end.

(** The double quote, which no string literal of this file contains. *)
Definition dquote : ascii := ascii_of_nat 34.

End Text.
Export Text.

(* ================================================================== *)
(** ** Regular expressions and substitution *)

Module Regex.

(** A pattern seen from one position of the text.  [m prev s] is
    [Some (x, n)] when the pattern matches the first [n] characters of
    [s], [prev] being the character before them ([None] at the start of
    the text); [x] is what the caller takes from the match.  It is the
    first match in the engine's backtracking order. *)
Definition pattern (A : Type) := option ascii -> str -> option (A * nat).

(** A pattern with its replacement: [x] is what the substitution writes. *)
Definition matcher := pattern str.

Notation "x <- e ;; k" := (match e with Some x => k | None => None end)
  (at level 61, e at next level, right associativity).

(** [re.sub(pattern, repl, s)]: the leftmost match, then the next one after
    its end.  [skip] counts the characters of the current match still to be
    passed over.  An empty match writes [out] and moves on. *)
Fixpoint re_sub_from (m : matcher) (prev : option ascii) (skip : nat) (s : str) : str :=
  match s with
  | [] =>
      match skip with
      | O => match m prev [] with Some (out, _) => out | None => [] end
      | S _ => []
      end
  | c :: s' =>
      match skip with
      | S k => re_sub_from m (Some c) k s'
      | O =>
          match m prev s with
          | Some (out, S k) => out ++ re_sub_from m (Some c) k s'
          | Some (out, O) => out ++ c :: re_sub_from m (Some c) O s'
          | None => c :: re_sub_from m (Some c) O s'
          end
      end
  end.

Definition re_sub (m : matcher) (s : str) : str := re_sub_from m None 0 s.

(** [re.search(pattern, s)] as a truth value. *)
Fixpoint re_search_from (m : matcher) (prev : option ascii) (s : str) : bool :=
  match m prev s with
  | Some _ => true
  | None =>
      match s with
      | [] => false
      | c :: s' => re_search_from m (Some c) s'
      end
  end.

Definition re_search (m : matcher) (s : str) : bool := re_search_from m None s.

(** [re.findall(pattern, s)]: what each match captures, left to right. *)
Fixpoint re_findall_from {A : Type} (m : pattern A) (prev : option ascii)
    (skip : nat) (s : str) : list A :=
  match s with
  | [] => []
  | c :: s' =>
      match skip with
      | S k => re_findall_from m (Some c) k s'
      | O =>
          match m prev s with
          | Some (x, S k) => x :: re_findall_from m (Some c) k s'
          | Some (x, O) => x :: re_findall_from m (Some c) O s'
          | None => re_findall_from m (Some c) O s'
          end
      end
  end.

Definition re_findall {A : Type} (m : pattern A) (s : str) : list A :=
  re_findall_from m None 0 s.

(** *** Pieces of patterns

    Each piece consumes a prefix of the text and returns what is left.  A
    greedy repetition of a character class is [span], the longest run: in
    the patterns of the script what follows such a repetition either cannot
    begin with a character of the class or, as the value of [attr_re],
    matches no more of the text after a shorter run than after the longest,
    so giving characters back never turns a failure into a match.
    Alternations carry their continuation, so a later alternative is tried
    when an earlier one matches but the rest of the pattern does not. *)

(** A literal, compared character by character. *)
Fixpoint take_lit (p s : str) : option str :=
  match p, s with
  | [], _ => Some s
  | a :: p', b :: s' => if Ascii.eqb a b then take_lit p' s' else None
  | _ :: _, [] => None
  end.

(** A literal under [re.IGNORECASE]. *)
Fixpoint take_lit_ci (p s : str) : option str :=
  match p, s with
  | [], _ => Some s
  | a :: p', b :: s' =>
      if Ascii.eqb (lower a) (lower b) then take_lit_ci p' s' else None
  | _ :: _, [] => None
  end.

(** [(a1|a2|...)] followed by the pattern [k]. *)
Fixpoint alt {A : Type} (alts : list str) (k : str -> option A) (s : str) : option A :=
  match alts with
  | [] => None
  | a :: alts' =>
      match (r <- take_lit a s ;; k r) with
      | Some x => Some x
      | None => alt alts' k s
      end
  end.

Fixpoint alt_ci {A : Type} (alts : list str) (k : str -> option A) (s : str) : option A :=
  match alts with
  | [] => None
  | a :: alts' =>
      match (r <- take_lit_ci a s ;; k r) with
      | Some x => Some x
      | None => alt_ci alts' k s
      end
  end.

(** [\s*] and [\s+] *)
Definition spaces0 (s : str) : str := snd (span is_space s).
Definition spaces1 (s : str) : option str :=
  match span is_space s with
  | ([], _) => None
  | (_, r) => Some r
  end.

(** [C+] for a character class [C], returning the run and the rest. *)
Definition class1 (p : ascii -> bool) (s : str) : option (str * str) :=
  match span p s with
  | ([], _) => None
  | (w, r) => Some (w, r)
  end.

Definition is_word_opt (c : option ascii) : bool :=
  match c with Some c => is_word c | None => false end.

(** [\b] between the character [prev] and the text [s]: exactly one side is
    a word character; the two ends of the text count as non-word. *)
Definition word_boundary (prev : option ascii) (s : str) : bool :=
  xorb (is_word_opt prev) (is_word_opt (hd_error s)).

(** The character before position [n] of [s], [prev] when [n = 0]. *)
Fixpoint char_before (prev : option ascii) (n : nat) (s : str) : option ascii :=
  match n, s with
  | S k, c :: s' => char_before (Some c) k s'
  | _, _ => prev
  end.

(** [$]: the end of the text, or just before a final line feed. *)
Definition at_end (s : str) : bool :=
  match s with
  | [] => true
  | [c] => (ord c =? 10)%N
  | _ => false
  end.

(** The number of characters between the text [s] and its suffix [rest]. *)
Definition consumed (s rest : str) : nat := length s - length rest.

(** *** Patterns shared by the components *)

(** [re.escape(phrase)] under [re.IGNORECASE], replaced by [out]. *)
Definition m_literal_ci (phrase out : str) : matcher := fun _ s =>
  _ <- take_lit_ci phrase s ;; Some (out, length phrase).

(** The search string of [str.replace(old, new)]. *)
Definition m_literal (old new : str) : matcher := fun _ s =>
  _ <- take_lit old s ;; Some (new, length old).

(** [s.replace(old, new)] for a non-empty [old]. *)
Definition replace (old new s : str) : str := re_sub (m_literal old new) s.

(** [\s+], replaced by one space. *)
Definition m_ws_run : matcher := fun _ s =>
  r <- spaces1 s ;; Some (lit " ", consumed s r).

(** [\s{2,}], replaced by one space. *)
Definition m_ws_run2 : matcher := fun _ s =>
  r <- spaces1 s ;;
  if 2 <=? consumed s r then Some (lit " ", consumed s r) else None.

(** [\b] + [re.escape(name)] + [\b] under [re.IGNORECASE], replaced by the
    empty string. *)
Definition m_whole_word_ci (name : str) : matcher := fun prev s =>
  if word_boundary prev s then
    r <- take_lit_ci name s ;;
    if word_boundary (char_before prev (length name) s) r
    then Some ([], length name) else None
  else None.

End Regex.
Export Regex.

(* ================================================================== *)
(** ** Files and failure *)

Module Files.

(** What the script finds at a path: nothing, a file whose [read_text]
    raises, or a file with its text. *)
Inductive file_state :=
| Absent
| Unreadable
| Content (text : str).

Definition filesystem := str -> file_state.

(** The outcome of a call that may raise. *)
Inductive outcome (A : Type) :=
| Returned (a : A)
| Raised.
Arguments Returned {A} a.
Arguments Raised {A}.

End Files.
Export Files.

(* ================================================================== *)
(** ** Sanitizer: [sanitize_and_finalize] *)

Module Sanitizer.

(** [ScriptConfig]: the one field that varies between runs.  The set
    [BANNED_LITERALS] is held as the list of its elements in the order the
    set iterates them. *)
Record ScriptConfig := { BANNED_LITERALS : list str }.

(** [FORBIDDEN_CHARS_RE]: the class of [>], [:], [|] and the double quote
    (and of the four curly quotes, which are not in the alphabet). *)
Definition forbidden_char (c : ascii) : bool :=
  char_in ">:|" c || Ascii.eqb c dquote.

Definition m_forbidden : matcher := fun _ s =>
  match s with
  | c :: _ => if forbidden_char c then Some (lit " ", 1) else None
  | [] => None
  end.

(** [DOC_META_PATTERNS], compiled with [re.IGNORECASE].  [^] holds where no
    character precedes. *)
Definition doc_nouns : list str := lits ["guide"; "page"; "document"; "section"].
Definition doc_verbs : list str :=
  lits ["describes"; "covers"; "explains"; "provides"].

(** [^\s*This\s+(guide|page|document|section)\s+(describes|covers|explains|provides)\s+]
    and the same pattern with [The]. *)
Definition m_doc_meta_verb (article : str) : matcher := fun prev s =>
  match prev with
  | Some _ => None
  | None =>
      r <- take_lit_ci article (spaces0 s) ;;
      r <- spaces1 r ;;
      alt_ci doc_nouns (fun r =>
        r <- spaces1 r ;;
        alt_ci doc_verbs (fun r =>
          r <- spaces1 r ;; Some ([] : str, consumed s r)) r) r
  end.

(** [^\s*In\s+this\s+(guide|page|document|section)\s+] *)
Definition m_doc_meta_in : matcher := fun prev s =>
  match prev with
  | Some _ => None
  | None =>
      r <- take_lit_ci "In" (spaces0 s) ;;
      r <- spaces1 r ;;
      r <- take_lit_ci "this" r ;;
      r <- spaces1 r ;;
      alt_ci doc_nouns (fun r =>
        r <- spaces1 r ;; Some ([] : str, consumed s r)) r
  end.

Definition DOC_META_PATTERNS : list matcher :=
  [m_doc_meta_verb "This"; m_doc_meta_in; m_doc_meta_verb "The"].

Definition TRAILING_STOPWORDS : list str :=
  split_ws "and or to for with in of on at by from into via as that which including such as than then while when where".

Definition leakage_phrases : list str :=
  lits [ "Follow these rules strictly"; "Your task is to"; "You must now";
         "Output only"; "Critical:"; "Important:"; "Note:"; "Remember:";
         "Your response must contain only" ].

(** [(\w+)'s\b], replaced by [\1s]. *)
Definition m_possessive : matcher := fun _ s =>
  wr <- class1 is_word s ;;
  r <- take_lit "'s" (snd wr) ;;
  if word_boundary (Some "s"%char) r
  then Some (fst wr ++ lit "s", consumed s r) else None.

(** [^(by|with|through|using)\s+] under [re.IGNORECASE]. *)
Definition m_leading_prep : matcher := fun prev s =>
  match prev with
  | Some _ => None
  | None =>
      alt_ci (lits ["by"; "with"; "through"; "using"]) (fun r =>
        r <- spaces1 r ;; Some ([] : str, consumed s r)) s
  end.

(** [words[-1].lower().strip(",.;") in config.TRAILING_STOPWORDS] *)
Definition is_trailing_stopword (w : str) : bool :=
  str_in (strip_chars ",.;" (str_lower w)) TRAILING_STOPWORDS.

(** [while words and <last word is a stop-word>: words.pop()] *)
Definition pop_stopwords (words : list str) : list str :=
  rev (drop_while is_trailing_stopword (rev words)).

(** [desc[0].upper() + desc[1:]], for a first character of the alphabet
    (beyond it [upper] leaves the character as it is, where Python may
    write two or three characters for it). *)
Definition capitalize_first (desc : str) : str :=
  match desc with
  | [] => []
  | c :: rest => upper c :: rest
  end.

(** Lines 435-438: the cut at 160 characters. *)
Definition truncate (desc : str) : str :=
  if 160 <? length desc then
    let desc := firstn 161 desc in
    match rfind_char " " desc with
    | Some last_space => firstn last_space desc
    | None => desc
    end
  else desc.

(** Lines 439-446, on a non-empty [desc]. *)
Definition finish (desc : str) : str :=
  let words := split_ws (rstrip_chars " ,;:-." desc) in
  let words := pop_stopwords words in
  let desc := join " " words in
  let desc := if ends_with "." desc then removelast desc else desc in
  capitalize_first desc.

Section WithCharrefs.

(** [html.unescape] belongs to Python's standard library and is driven by
    the HTML5 table of named character references.  Its substitution,
    [_charref.sub(_replace_charref, s)], is a parameter; the test that
    guards it is the library's own first line. *)
Variable charref_sub : str -> str.

Definition html_unescape (s : str) : str :=
  if char_in s "&" then charref_sub s else s.

(** Lines 398-433: everything before the emptiness test. *)
Definition clean (config : ScriptConfig) (draft : str) : str :=
  let desc := html_unescape draft in
  let desc :=
    fold_left (fun d phrase => re_sub (m_literal_ci phrase []) d) leakage_phrases desc in
  let desc := strip (re_sub m_ws_run desc) in
  let desc := re_sub m_possessive desc in
  let desc := replace "'" [] desc in
  let desc := strip (re_sub m_ws_run desc) in
  let desc :=
    fold_left (fun d name => re_sub (m_whole_word_ci name) d)
      (sorted_by_len_desc (fun name => name) (BANNED_LITERALS config)) desc in
  let desc := re_sub m_forbidden desc in
  let desc := fold_left (fun d pat => strip (re_sub pat d)) DOC_META_PATTERNS desc in
  let desc := re_sub m_leading_prep desc in
  strip_chars " ,;:-" (re_sub m_ws_run2 desc).

Definition sanitize_and_finalize (draft : str) (config : ScriptConfig) : str :=
  match clean config draft with
  | [] => []
  | desc => finish (truncate desc)
  end.

End WithCharrefs.

End Sanitizer.
Export Sanitizer.

(* ================================================================== *)
(** ** Brand registry: [load_brand_config_from_entities] and
       [post_process_description] *)

Module Brands.

Inductive Family := opensuse | suse.

Definition family_eqb (a b : Family) : bool :=
  match a, b with
  | opensuse, opensuse | suse, suse => true
  | _, _ => false
  end.

(** The dictionary [{'key': ..., 'name': ..., 'family': ...}]. *)
Record Brand := { key : str; name : str; family : Family }.

Definition entity_key_char (c : ascii) : bool := is_word c || Ascii.eqb c "-".

(** [<!ENTITY\s+([\w-]+)\s+Q([^Q]+)Q>], where Q is the double quote,
    capturing the key and the name. *)
Definition p_entity : pattern (str * str) := fun _ s =>
  r <- take_lit "<!ENTITY" s ;;
  r <- spaces1 r ;;
  kr <- class1 entity_key_char r ;;
  r <- spaces1 (snd kr) ;;
  r <- take_lit [dquote] r ;;
  nr <- class1 (fun c => negb (Ascii.eqb c dquote)) r ;;
  r <- take_lit [dquote; ">"%char] (snd nr) ;;
  Some ((fst kr, fst nr), consumed s r).

Definition brand_of_entity (kn : str * str) : Brand :=
  let (k, n) := kn in
  {| key := k;
     name := strip n;
     family := if contains "opensuse" (str_lower n) || contains "leap" (str_lower n)
               then opensuse else suse |}.

Definition load_brand_config_from_entities (fs : filesystem) (filepath : option str)
  : outcome (list Brand) :=
  match filepath with
  | None | Some [] => Returned []
  | Some path =>
      match fs path with
      | Absent => Returned []
      | Unreadable => Raised
      | Content content => Returned (map brand_of_entity (re_findall p_entity content))
      end
  end.

(** The brand whose key stands in the path as a whole word, keys tried
    longest first. *)
Definition file_context (file_path : str) (brands : list Brand) : option Brand :=
  find (fun brand => re_search (m_whole_word_ci (key brand)) file_path)
       (sorted_by_len_desc key brands).

(** The calls of [banned_keywords.add], in order. *)
Definition banned_keywords (context : Brand) (brands : list Brand) : list str :=
  flat_map (fun brand =>
    if family_eqb (family brand) (family context) then []
    else name brand :: filter (fun word => 3 <? length word) (split_ws (name brand)))
    brands.

Definition remove_keywords (keywords : list str) (description : str) : str :=
  fold_left (fun d keyword =>
    if re_search (m_whole_word_ci keyword) d
    then re_sub (m_whole_word_ci keyword) d else d) keywords description.

(** [(\w+)\s+,], replaced by [\1,]. *)
Definition m_space_before_comma : matcher := fun _ s =>
  wr <- class1 is_word s ;;
  r <- spaces1 (snd wr) ;;
  r <- take_lit "," r ;;
  Some (fst wr ++ lit ",", consumed s r).

(** The longest run of groups [,\s*]: commas and white space, a comma
    first.  [n] counts the commas, one to a group. *)
Fixpoint comma_groups (n : nat) (s : str) : nat * str :=
  match s with
  | [] => (n, [])
  | c :: s' =>
      if Ascii.eqb c "," then comma_groups (S n) s'
      else if is_space c && (0 <? n) then comma_groups n s'
      else (n, s)
  end.

(** The group [,\s*] taken [{2,}] times, replaced by one comma. *)
Definition m_comma_run : matcher := fun _ s =>
  let (n, r) := comma_groups 0 s in
  if 2 <=? n then Some (lit ",", consumed s r) else None.

(** [,\s*(and|or)\s*,], replaced by one comma. *)
Definition m_conj_between_commas : matcher := fun _ s =>
  r <- take_lit "," s ;;
  alt (lits ["and"; "or"]) (fun r =>
    r <- take_lit "," (spaces0 r) ;; Some (lit ",", consumed s r)) (spaces0 r).

(** [\b(and|or|a|the|on|of)\s*$] under [re.IGNORECASE], replaced by the
    empty string. *)
Definition m_dangling_end : matcher := fun prev s =>
  if word_boundary prev s then
    alt_ci (lits ["and"; "or"; "a"; "the"; "on"; "of"]) (fun r =>
      if at_end (spaces0 r) then Some ([] : str, consumed s (spaces0 r)) else None) s
  else None.

(** [\b(on|of)\s+(and|or)\b] under [re.IGNORECASE], replaced by the empty
    string. *)
Definition m_prep_conj : matcher := fun prev s =>
  if word_boundary prev s then
    alt_ci (lits ["on"; "of"]) (fun r =>
      r <- spaces1 r ;;
      alt_ci (lits ["and"; "or"]) (fun r =>
        if word_boundary (char_before prev (consumed s r) s) r
        then Some ([] : str, consumed s r) else None) r) s
  else None.

(** [,\s*\.], replaced by a period. *)
Definition m_comma_period : matcher := fun _ s =>
  r <- take_lit "," s ;;
  r <- take_lit "." (spaces0 r) ;;
  Some (lit ".", consumed s r).

(** Lines 343-351: the clean-up after a removal. *)
Definition repair_grammar (description : str) : str :=
  let description := strip (re_sub m_ws_run2 description) in
  let description := re_sub m_space_before_comma description in
  let description := re_sub m_comma_run description in
  let description := re_sub m_conj_between_commas description in
  let description := re_sub m_dangling_end description in
  let description := re_sub m_prep_conj description in
  let description := re_sub m_comma_period description in
  let description := replace " ." "." (replace " ," "," description) in
  strip (re_sub m_ws_run2 description).

Section WithSetOrder.

(** [set_order adds] is the order in which Python iterates the set built by
    adding the strings [adds] one after the other.  It lists each distinct
    element once; beyond that the order is not specified (string hashes
    vary from run to run). *)
Variable set_order : list str -> list str.

(** The second component is the status: [None], or the string UPDATED
    when the description was changed. *)
Definition post_process_description (description file_path : str) (brands : list Brand)
  : str * option str :=
  match brands with
  | [] => (description, None)
  | _ =>
      match file_context file_path brands with
      | None => (description, None)
      | Some context =>
          match banned_keywords context brands with
          | [] => (description, None)
          | adds =>
              let original_description := description in
              let description :=
                remove_keywords (sorted_by_len_desc (fun k => k) (set_order adds))
                                description in
              if str_eqb description original_description
              then (description, None)
              else (strip (repair_grammar description), Some (lit "UPDATED"))
          end
      end
  end.

End WithSetOrder.

(** One iteration order: first insertion first. *)
Fixpoint insertion_order (adds : list str) : list str :=
  match adds with
  | [] => []
  | x :: rest => x :: filter (fun y => negb (str_eqb x y)) (insertion_order rest)
  end.

End Brands.
Export Brands.

(* ================================================================== *)
(** ** Attribute resolver: [load_and_process_adoc_attributes] and
       [resolve_attributes] *)

Module Attributes.

(** A Python [dict] from strings to strings, in insertion order. *)
Definition dict := list (str * str).

(** [d.get(k)] *)
Fixpoint dict_get (k : str) (d : dict) : option str :=
  match d with
  | [] => None
  | (k', v) :: d' => if str_eqb k k' then Some v else dict_get k d'
  end.

(** [k in d] *)
Definition dict_has (k : str) (d : dict) : bool :=
  match dict_get k d with Some _ => true | None => false end.

(** [d[k] = v]: a known key keeps its place, a new key goes last. *)
Fixpoint dict_set (k v : str) (d : dict) : dict :=
  match d with
  | [] => [(k, v)]
  | (k', v') :: d' =>
      if str_eqb k k' then (k', v) :: d' else (k', v') :: dict_set k v d'
  end.

Definition dict_keys (d : dict) : list str := map fst d.

(** The class [[\w-]]. *)
Definition attr_key_char (c : ascii) : bool := is_word c || Ascii.eqb c "-".

(** The class [[A-Za-z0-9_-]]. *)
Definition plain_key_char (c : ascii) : bool :=
  is_upper c || is_lower c || is_digit c || char_in "_-" c.

(** [^endif::\[\]$] *)
Definition endif_re (line : str) : bool :=
  match take_lit "endif::[]" line with
  | Some r => at_end r
  | None => false
  end.

(** [^ifndef::([\w-]+)\[\]$], capturing the key. *)
Definition ifndef_re (line : str) : option str :=
  r <- take_lit "ifndef::" line ;;
  kr <- class1 attr_key_char r ;;
  r <- take_lit "[]" (snd kr) ;;
  if at_end r then Some (fst kr) else None.

(** [^ifeval::\[Q\{([\w-]+)\}Q == Q([^Q]+)Q\]$], where Q is the double
    quote, capturing the key and the value. *)
Definition ifeval_re (line : str) : option (str * str) :=
  r <- take_lit (lit "ifeval::[" ++ [dquote] ++ lit "{") line ;;
  kr <- class1 attr_key_char r ;;
  r <- take_lit (lit "}" ++ [dquote] ++ lit " == " ++ [dquote]) (snd kr) ;;
  vr <- class1 (fun c => negb (Ascii.eqb c dquote)) r ;;
  r <- take_lit (dquote :: lit "]") (snd vr) ;;
  if at_end r then Some (fst kr, fst vr) else None.

(** [^:([\w-]+):(?:\s+(REST))?$], where REST is the starred dot, capturing
    the key and, when the optional group takes part, the value.  The dot
    stops at a line feed. *)
Definition attr_re (line : str) : option (str * option str) :=
  r <- take_lit ":" line ;;
  kr <- class1 attr_key_char r ;;
  r <- take_lit ":" (snd kr) ;;
  match (r1 <- spaces1 r ;;
         let vr := span (fun c => negb (ord c =? 10)%N) r1 in
         if at_end (snd vr) then Some (fst vr) else None) with
  | Some value => Some (fst kr, Some value)
  | None => if at_end r then Some (fst kr, None) else None
  end.

(** The variables of the first pass.  The head of [active_block_stack] is
    the top of Python's list, its last element. *)
Record parse_state := {
  attributes : dict;
  in_active_block : bool;
  active_block_stack : list bool
}.

Definition set_block (st : parse_state) (active : bool) (stack : list bool) : parse_state :=
  {| attributes := attributes st; in_active_block := active; active_block_stack := stack |}.

(** The body of [for line in lines] (lines 506-541). *)
Definition parse_line (st : parse_state) (line : str) : parse_state :=
  let line := strip line in
  match line with
  | [] => st
  | _ =>
  if starts_with "//" line then st
  else if endif_re line then
    match active_block_stack st with
    | top :: rest => set_block st top rest
    | [] => st
    end
  else
    match ifndef_re line with
    | Some key =>
        set_block st
          (in_active_block st && negb (dict_has key (attributes st)))
          (in_active_block st :: active_block_stack st)
    | None =>
        match ifeval_re line with
        | Some (key, value) =>
            let is_match :=
              match dict_get key (attributes st) with
              | Some v => str_eqb v value
              | None => false
              end in
            set_block st (in_active_block st && is_match)
                      (in_active_block st :: active_block_stack st)
        | None =>
            if negb (in_active_block st) then st
            else
              match attr_re line with
              | Some (key, value) =>
                  {| attributes :=
                       dict_set key
                         (match value with Some v => strip v | None => [] end)
                         (attributes st);
                     in_active_block := in_active_block st;
                     active_block_stack := active_block_stack st |}
              | None => st
              end
        end
    end
  end.

(** The first pass over the lines of the file. *)
Definition parse_lines (lines : list str) (initial_context : dict) : parse_state :=
  fold_left parse_line lines
    {| attributes := initial_context; in_active_block := true; active_block_stack := [] |}.

(** [\{(C+)\}] for a character class [C]: the name and what follows the
    closing brace. *)
Definition braced_name (class : ascii -> bool) (s : str) : option (str * str) :=
  r <- take_lit "{" s ;;
  kr <- class1 class r ;;
  r <- take_lit "}" (snd kr) ;;
  Some (fst kr, r).

(** [\{([\w-]+)\}], capturing the name. *)
Definition p_placeholder : pattern str := fun _ s =>
  nr <- braced_name attr_key_char s ;;
  Some (fst nr, consumed s (snd nr)).

(** [f'{{{name}}}'] *)
Definition braced (name : str) : str := lit "{" ++ name ++ lit "}".

(** Lines 551-562 for one value: [None] where the loop body does nothing,
    otherwise the value written back. *)
Definition expand_value (attributes : dict) (value : str) : option str :=
  if char_in value "{" then
    match re_findall p_placeholder value with
    | [] => None
    | placeholders =>
        Some (fold_left (fun new_value placeholder =>
                match dict_get placeholder attributes with
                | Some v => replace (braced placeholder) v new_value
                | None => new_value
                end) placeholders value)
    end
  else None.

(** [for key, value in attributes.items()]: the keys in order, each value
    read from and written to the one table. *)
Fixpoint expand_items (keys : list str) (attributes : dict) (unresolved : bool)
  : dict * bool :=
  match keys with
  | [] => (attributes, unresolved)
  | key :: keys' =>
      match dict_get key attributes with
      | Some value =>
          match expand_value attributes value with
          | Some new_value =>
              expand_items keys' (dict_set key new_value attributes) true
          | None => expand_items keys' attributes unresolved
          end
      | None => expand_items keys' attributes unresolved
      end
  end.

(** [for _ in range(n)] (lines 546-562), from the state of [attributes] and
    [unresolved] to their state after the loop. *)
Fixpoint expand_loop (n : nat) (attributes : dict) (unresolved : bool) : dict * bool :=
  match n with
  | O => (attributes, unresolved)
  | S n' =>
      if negb unresolved then (attributes, unresolved)
      else
        let (attributes, unresolved) :=
          expand_items (dict_keys attributes) attributes false in
        expand_loop n' attributes unresolved
  end.

(** The second pass: value expansion, capped at ten sweeps. *)
Definition expand_attributes (attributes : dict) : dict :=
  fst (expand_loop 10 attributes true).

Definition load_and_process_adoc_attributes (fs : filesystem) (file_path : str)
    (initial_context : dict) : outcome dict :=
  match fs file_path with
  | Absent => Returned []
  | Unreadable => Raised
  | Content text =>
      Returned (expand_attributes
                  (attributes (parse_lines (splitlines text) initial_context)))
  end.

(** [\{([A-Za-z0-9_-]+)\}], replaced by the empty string. *)
Definition m_unresolved : matcher := fun _ s =>
  nr <- braced_name plain_key_char s ;;
  Some ([] : str, consumed s (snd nr)).

(** One sweep of [for key, value in attributes.items()] over the text. *)
Definition substitute_items (attributes : dict) (text : str) : str :=
  fold_left (fun temp_text kv => replace (braced (fst kv)) (snd kv) temp_text)
            attributes text.

(** [for _ in range(n)] (lines 572-582). *)
Fixpoint resolve_loop (n : nat) (attributes : dict) (text : str) : str :=
  match n with
  | O => text
  | S n' =>
      if negb (char_in text "{") then text
      else
        let temp_text := substitute_items attributes text in
        if str_eqb temp_text text then text
        else resolve_loop n' attributes temp_text
  end.

Definition resolve_attributes (text : str) (attributes : dict) : str :=
  match attributes with
  | [] => re_sub m_unresolved text
  | _ => re_sub m_unresolved (resolve_loop 10 attributes text)
  end.

End Attributes.
Export Attributes.

(* ================================================================== *)
(** ** Orchestration: the drafting and the length gate of
       [process_adoc_file] and [process_xml_file] *)

Module Generation.

(** The three prompt templates with the values of their slots. *)
Inductive prompt :=
| PROMPT_TMPL (blacklist : list str) (content : str)
| PROMPT_TMPL_RETRY (blacklist : list str) (content : str)
| PROMPT_TMPL_VALIDATE (sentence : str).

(** [not desc or len(desc) < 100] *)
Definition too_short (desc : str) : bool :=
  match desc with
  | [] => true
  | _ => length desc <? 100
  end.

Section WithCollaborators.

Variable charref_sub : str -> str.
Variable set_order : list str -> list str.

(** [call_ollama]: the answer of the language model, stripped, and the
    empty string when the request fails.  The number tells the requests of
    one file apart: 0 the draft, 1 its validation, 2 the retry, 3 the
    validation of the retry. *)
Variable call_ollama : nat -> prompt -> str.

Definition validate_and_correct_grammar (call : nat) (sentence : str) : str :=
  match sentence with
  | [] => []
  | _ =>
      match call_ollama call (PROMPT_TMPL_VALIDATE sentence) with
      | [] => sentence
      | corrected_sentence =>
          if str_eqb corrected_sentence sentence then sentence else corrected_sentence
      end
  end.

(** Lines 637-639 and 646-648: from a draft to a description. *)
Definition finalize_draft (call : nat) (config : ScriptConfig) (path : str)
    (brands : list Brand) (draft : str) : str * option str :=
  let (draft_after_branding, update_status) :=
    post_process_description set_order draft path brands in
  let corrected_draft := validate_and_correct_grammar call draft_after_branding in
  (sanitize_and_finalize charref_sub corrected_draft config, update_status).

(** Lines 634-654: the description the file is given and the status of the
    brand check, or [None] when the file is logged as an error and left as
    it is. *)
Definition accepted_description (config : ScriptConfig) (path : str)
    (brands : list Brand) (payload : str) : option (str * option str) :=
  let draft := call_ollama 0 (PROMPT_TMPL (BANNED_LITERALS config) payload) in
  let (desc, update_status) := finalize_draft 1 config path brands draft in
  if too_short desc then
    let draft := call_ollama 2 (PROMPT_TMPL_RETRY (BANNED_LITERALS config) payload) in
    let (desc, update_status) := finalize_draft 3 config path brands draft in
    if too_short desc then None else Some (desc, update_status)
  else Some (desc, update_status).

End WithCollaborators.

End Generation.
Export Generation.

(* ================================================================== *)
(** ** Repetitions that give characters back *)

Module Backtrack.

(** The line feed, and [.]: every character but the line feed. *)
Definition LF : ascii := ascii_of_nat 10.
Definition is_lf (c : ascii) : bool := (ord c =? 10)%N.
Definition is_dot (c : ascii) : bool := negb (is_lf c).

(** [\S] *)
Definition is_nonspace (c : ascii) : bool := negb (is_space c).

(** [C*] followed by the pattern [k], greedy: the longest run of the class
    first, then one character fewer at a time.  [taken] is the run so far,
    its last character first; [k] receives the run and what follows it. *)
Fixpoint star_then {A : Type} (p : ascii -> bool) (k : str -> str -> option A)
    (taken s : str) : option A :=
  match s with
  | c :: s' =>
      if p c then
        match star_then p k (c :: taken) s' with
        | Some x => Some x
        | None => k (rev taken) s
        end
      else k (rev taken) s
  | [] => k (rev taken) []
  end.

(** [C+] followed by [k]. *)
Definition plus_then {A : Type} (p : ascii -> bool) (k : str -> str -> option A)
    (s : str) : option A :=
  match s with
  | c :: s' => if p c then star_then p k [c] s' else None
  | [] => None
  end.

(** [C*?] followed by [k], lazy: the shortest run first. *)
Fixpoint lazy_then {A : Type} (p : ascii -> bool) (k : str -> str -> option A)
    (taken s : str) : option A :=
  match k (rev taken) s with
  | Some x => Some x
  | None =>
      match s with
      | c :: s' => if p c then lazy_then p k (c :: taken) s' else None
      | [] => None
      end
  end.

(** Whether [pattern.match] returns a match object. *)
Definition matched {A : Type} (o : option A) : bool :=
  match o with Some _ => true | None => false end.

(** [^] under [re.MULTILINE]: the start of the text, or just after a line
    feed. *)
Definition line_start (prev : option ascii) : bool :=
  match prev with None => true | Some c => is_lf c end.

End Backtrack.
Export Backtrack.

(* ================================================================== *)
(** ** Entity references: [resolve_entities_in_string] *)

Module Entities.

(** [f"&{brand['key']};"] *)
Definition entity_ref (brand : Brand) : str := lit "&" ++ key brand ++ lit ";".

Definition resolve_entities_in_string (text : str) (brands : list Brand) : str :=
  match brands with
  | [] => text
  | _ =>
      fold_left (fun text brand =>
                   if contains (entity_ref brand) text
                   then replace (entity_ref brand) (name brand) text
                   else text)
                (sorted_by_len_desc key brands) text
  end.

End Entities.
Export Entities.

(* ================================================================== *)
(** ** File selection: [should_skip] *)

Module Skip.

(** A [pathlib] path: its drive and root ([anchor], empty for a relative
    path) and the components after them. *)
Record Path := { anchor : str; tail : list str }.

(** [path.parts] *)
Definition path_parts (path : Path) : list str :=
  match anchor path with
  | [] => tail path
  | a => a :: tail path
  end.

(** [path.name]: the last component, the empty string when there is none. *)
Definition path_name (path : Path) : str := last (tail path) [].

(** [\.adoc$] *)
Definition adoc_end (r : str) : option unit :=
  r <- take_lit_ci ".adoc" r ;; if at_end r then Some tt else None.

(** [NAV_GENERIC_RE.match]: [^nav(?:-.+)?\.adoc$] under [re.IGNORECASE].
    The optional group is tried first. *)
Definition NAV_GENERIC_RE (filename : str) : bool :=
  match take_lit_ci "nav" filename with
  | Some r =>
      match (r1 <- take_lit "-" r ;; plus_then is_dot (fun _ => adoc_end) r1) with
      | Some _ => true
      | None => matched (adoc_end r)
      end
  | None => false
  end.

(** [NAV_GUIDE_RE.match]: [^nav-.+-guide\.adoc$] under [re.IGNORECASE]. *)
Definition NAV_GUIDE_RE (filename : str) : bool :=
  matched (r <- take_lit_ci "nav-" filename ;;
           plus_then is_dot (fun _ r =>
             r <- take_lit_ci "-guide.adoc" r ;;
             if at_end r then Some tt else None) r).

Definition nav_directories : list str := lits ["nav"; "navigation"; "partials"].

(** The two patterns are fields of [ScriptConfig] that no run changes. *)
Definition should_skip (path : Path) : bool :=
  if starts_with "_" (path_name path) then true
  else if NAV_GENERIC_RE (path_name path) || NAV_GUIDE_RE (path_name path) then true
  else existsb (fun p => str_in p nav_directories) (map str_lower (path_parts path)).

End Skip.
Export Skip.

(* ================================================================== *)
(** ** The plain attribute parser: [load_adoc_attributes] *)

Module SimpleAttributes.

(** The text layer of [open('r')]: CR LF and CR are read as LF. *)
Fixpoint universal_newlines (s : str) : str :=
  match s with
  | [] => []
  | c :: s' =>
      if (ord c =? 13)%N then
        match s' with
        | d :: s'' =>
            if is_lf d then LF :: universal_newlines s''
            else LF :: universal_newlines s'
        | [] => [LF]
        end
      else c :: universal_newlines s'
  end.

(** [for line in f]: the lines, each with the line feed that ends it. *)
Fixpoint file_lines_from (cur s : str) : list str :=
  match s with
  | [] => match cur with [] => [] | _ => [rev cur] end
  | c :: s' =>
      if is_lf c then rev (c :: cur) :: file_lines_from [] s'
      else file_lines_from (c :: cur) s'
  end.

Definition file_lines (text : str) : list str :=
  file_lines_from [] (universal_newlines text).

(** [^:([a-zA-Z0-9_-]+):(?:\s+(REST))?$], where REST is the starred dot,
    as [re.match] applies it to a line. *)
Definition simple_attr_re (line : str) : option (str * option str) :=
  r <- take_lit ":" line ;;
  kr <- class1 plain_key_char r ;;
  r <- take_lit ":" (snd kr) ;;
  match plus_then is_space (fun _ r1 =>
          star_then is_dot (fun value r2 =>
            if at_end r2 then Some value else None) [] r1) r with
  | Some value => Some (fst kr, Some value)
  | None => if at_end r then Some (fst kr, None) else None
  end.

(** Lines 475-478. *)
Definition simple_line (attributes : dict) (line : str) : dict :=
  match simple_attr_re line with
  | Some (key, value) =>
      dict_set key (match value with Some v => strip v | None => [] end) attributes
  | None => attributes
  end.

(** [opened] is the decoded text of the file, or [None] when
    [file_path.open] raises [IOError], which the function catches.  (A
    file that opens is read to its end; a text that does not decode raises
    an error the function does not catch.) *)
Definition load_adoc_attributes (opened : option str) : dict :=
  match opened with
  | None => []
  | Some text => fold_left simple_line (file_lines text) []
  end.

End SimpleAttributes.
Export SimpleAttributes.

(* ================================================================== *)
(** ** The payload of an AsciiDoc file: [extract_adoc_payload] *)

Module Payload.

(** [^\s*=\s+.+] as [re.match] applies it: the pattern of line 592 and of
    [TITLE_RE].  After the white space one more character must follow on
    the line; the white space gives one back when it has taken them all. *)
Definition title_re (line : str) : bool :=
  matched (r <- take_lit "=" (spaces0 line) ;;
           plus_then is_space (fun _ r =>
             match r with
             | c :: _ => if is_dot c then Some tt else None
             | [] => None
             end) r).

(** [lines[header_end].strip().startswith(':') or not lines[header_end].strip()] *)
Definition header_line (line : str) : bool :=
  starts_with ":" (strip line) || match strip line with [] => true | _ => false end.

(** [lines[header_end:]] (lines 591-596). *)
Definition body_lines (lines : list str) : list str :=
  match lines with
  | first :: rest => if title_re first then drop_while header_line rest else lines
  | [] => []
  end.

(** [^==+\s+.*$] under [re.MULTILINE], replaced by the empty string.  The
    dot runs to the end of its line, where [$] holds. *)
Definition m_section_title : matcher := fun prev s =>
  if line_start prev then
    r <- take_lit "==" s ;;
    r <- spaces1 (snd (span (Ascii.eqb "=") r)) ;;
    Some ([] : str, consumed s (snd (span is_dot r)))
  else None.

(** [^[\*\.\-]+\s+] under [re.MULTILINE], replaced by the empty string. *)
Definition m_list_marker : matcher := fun prev s =>
  if line_start prev then
    mr <- class1 (char_in "*.-") s ;;
    r <- spaces1 (snd mr) ;;
    Some ([] : str, consumed s r)
  else None.

(** [opening], the lazy dot, [closing], replaced by the empty string: the
    patterns [\[\[.*?\]\]] and [<<.*?>>]. *)
Definition m_delimited (opening closing : str) : matcher := fun _ s =>
  r <- take_lit opening s ;;
  r <- lazy_then is_dot (fun _ r => take_lit closing r) [] r ;;
  Some ([] : str, consumed s r).

(** [image::\S+\[.*?\]], replaced by the empty string. *)
Definition m_image : matcher := fun _ s =>
  r <- take_lit "image::" s ;;
  r <- plus_then is_nonspace (fun _ r =>
         r <- take_lit "[" r ;;
         lazy_then is_dot (fun _ r => take_lit "]" r) [] r) r ;;
  Some ([] : str, consumed s r).

(** [//.*$] under [re.MULTILINE], replaced by the empty string. *)
Definition m_comment : matcher := fun _ s =>
  r <- take_lit "//" s ;;
  Some ([] : str, consumed s (snd (span is_dot r))).

(** [q([^q]+)q] for a character [q], replaced by [\1]: the patterns of the
    backtick, the asterisk and the underscore. *)
Definition m_quoted (q : ascii) : matcher := fun _ s =>
  r <- take_lit [q] s ;;
  xr <- class1 (fun c => negb (Ascii.eqb c q)) r ;;
  r <- take_lit [q] (snd xr) ;;
  Some (fst xr, consumed s r).

(** [xref:\S+\[(.*?)\]], replaced by [\1]. *)
Definition m_xref : matcher := fun _ s =>
  r <- take_lit "xref:" s ;;
  plus_then is_nonspace (fun _ r =>
    r <- take_lit "[" r ;;
    lazy_then is_dot (fun label r =>
      r <- take_lit "]" r ;; Some (label, consumed s r)) [] r) r.

(** [\n{2,}], replaced by one line feed. *)
Definition m_blank_lines : matcher := fun _ s =>
  let run := fst (span is_lf s) in
  if 2 <=? length run then Some ([LF], length run) else None.

(** Lines 598-611. *)
Definition strip_markup (text : str) : str :=
  let text := re_sub m_section_title text in
  let text := re_sub m_list_marker text in
  let text := re_sub (m_delimited "[[" "]]") text in
  let text := re_sub (m_delimited "<<" ">>") text in
  let text := re_sub m_image text in
  let text := replace "|===" [] text in
  let text := replace "|" " " text in
  let text := replace "----" [] text in
  let text := re_sub m_comment text in
  let text := re_sub (m_quoted "`") text in
  let text := re_sub (m_quoted "*") text in
  let text := re_sub (m_quoted "_") text in
  let text := re_sub m_xref text in
  re_sub m_blank_lines text.

Definition extract_adoc_payload (content : str) (max_len : nat) : str :=
  let text := join [LF] (body_lines (splitlines content)) in
  firstn max_len (strip (strip_markup text)).

End Payload.
Export Payload.

(* ================================================================== *)
(** ** One AsciiDoc file: [process_adoc_file] *)

Module AsciiDoc.

(** [DESC_RE]: [^:\s*description\s*:\s*] under [re.IGNORECASE].  Without
    [re.MULTILINE], [^] holds where no character precedes. *)
Definition DESC_RE : matcher := fun prev s =>
  match prev with
  | Some _ => None
  | None =>
      r <- take_lit ":" s ;;
      r <- take_lit_ci "description" (spaces0 r) ;;
      r <- take_lit ":" (spaces0 r) ;;
      Some ([] : str, consumed s (spaces0 r))
  end.

(** [next((i for i, line in enumerate(lines) if p(line)), -1)], with [None]
    for -1. *)
Fixpoint find_index {A : Type} (p : A -> bool) (l : list A) : option nat :=
  match l with
  | [] => None
  | x :: l' => if p x then Some 0 else option_map S (find_index p l')
  end.

(** [lines[i] = x] for an index within the list. *)
Fixpoint set_line (i : nat) (x : str) (lines : list str) : list str :=
  match i, lines with
  | O, _ :: rest => x :: rest
  | S j, y :: rest => y :: set_line j x rest
  | _, [] => []
  end.

(** [lines.insert(i, x)] *)
Definition insert_line (i : nat) (x : str) (lines : list str) : list str :=
  firstn i lines ++ x :: skipn i lines.

(** [f":description: {desc}"] *)
Definition description_line (desc : str) : str := lit ":description: " ++ desc.

(** Lines 661-670: the lines of the file with the description, and the
    status. *)
Definition place_description (lines : list str) (desc : str) : list str * str :=
  match find_index (fun line => matched (DESC_RE None line)) lines with
  | Some existing_desc_idx =>
      (set_line existing_desc_idx (description_line desc) lines, lit "REPLACED")
  | None =>
      let at_index :=
        match find_index title_re lines with
        | Some title_idx => S title_idx
        | None => 0
        end in
      (insert_line at_index (description_line desc) lines, lit "ADDED")
  end.

(** What one call does with the file, its text [raw_text] read.  The log
    entry is its status with the message or the description; only
    [Written] changes the file, and [DryRun] and [Written] return the
    description. *)
Inductive adoc_event :=
| AlreadyDescribed   (* SKIPPED: File already has a description. *)
| EmptyPayload       (* WARNING: Empty content payload after extraction. *)
| StillTooShort      (* ERROR: Generated description still too short after retry. *)
| DryRun (desc : str)
| Written (status desc text : str).

Section WithCollaborators.

Variable charref_sub : str -> str.
Variable set_order : list str -> list str.
Variable call_ollama : nat -> prompt -> str.

(** Lines 619-678, from the text of the file.  [force_overwrite] and
    [dry_run] are the two options of the command line. *)
Definition process_adoc_file (raw_text path : str) (config : ScriptConfig)
    (force_overwrite dry_run : bool) (attributes : dict) (brands : list Brand)
  : adoc_event :=
  if re_search DESC_RE raw_text && negb force_overwrite then AlreadyDescribed
  else
    let resolved_text := resolve_attributes raw_text attributes in
    let payload := extract_adoc_payload resolved_text 4000 in
    match strip payload with
    | [] => EmptyPayload
    | _ =>
        match accepted_description charref_sub set_order call_ollama
                config path brands payload with
        | None => StillTooShort
        | Some (desc, update_status) =>
            if dry_run then DryRun desc
            else
              let (lines, status) := place_description (splitlines raw_text) desc in
              let status :=
                match update_status with
                | Some ((_ :: _) as s) => s
                | _ => status
                end in
              Written status desc (join [LF] lines ++ [LF])
        end
    end.

End WithCollaborators.

End AsciiDoc.
Export AsciiDoc.

(* ================================================================== *)
(** ** The options of the command line: [main] *)

Module Options.

(** [s.split(sep)] for a separator of one character. *)
Fixpoint split_on (sep : ascii) (s : str) : list str :=
  match s with
  | [] => [[]]
  | c :: s' =>
      if Ascii.eqb c sep then [] :: split_on sep s'
      else match split_on sep s' with
           | w :: ws => (c :: w) :: ws
           | [] => [[c]]
           end
  end.

(** [s.split(sep, 1)] when [sep] occurs in [s]. *)
Fixpoint split_once (sep : ascii) (s : str) : option (str * str) :=
  match s with
  | [] => None
  | c :: s' =>
      if Ascii.eqb c sep then Some ([], s')
      else option_map (fun kv => (c :: fst kv, snd kv)) (split_once sep s')
  end.

(** Lines 900-902: the strings that [--banned-terms] adds to
    [BANNED_LITERALS], in the order of the option. *)
Definition banned_terms_added (banned_terms : option str) : list str :=
  match banned_terms with
  | None | Some [] => []
  | Some terms => map strip (split_on "," terms)
  end.

(** Lines 913-917: the table that the options [-a] build. *)
Definition build_context (build_attributes : list str) : dict :=
  fold_left (fun context attr =>
               match split_once "=" attr with
               | Some (key, value) => dict_set key value context
               | None => context
               end) build_attributes [].

End Options.
Export Options.

(* ================================================================== *)
(** * Properties *)

(** ** Strings, sorting and dictionaries *)

#[local] Arguments Ascii.eqb : simpl never.

Lemma str_eqb_refl (a : str) : str_eqb a a = true.
Proof. unfold str_eqb. destruct (str_eq_dec a a); congruence. Qed.

Lemma str_eqb_eq (a b : str) : str_eqb a b = true <-> a = b.
Proof.
  unfold str_eqb. destruct (str_eq_dec a b); split; congruence.
Qed.

Lemma str_eqb_neq (a b : str) : str_eqb a b = false <-> a <> b.
Proof.
  unfold str_eqb. destruct (str_eq_dec a b); split; congruence.
Qed.

Lemma insert_by_len_desc_In {A : Type} (key : A -> str) (x y : A) (l : list A) :
  In y (insert_by_len_desc key x l) <-> y = x \/ In y l.
Proof.
  induction l as [|z l IH]; simpl.
  - intuition.
  - destruct (length (key x) <? length (key z)); simpl; rewrite ?IH; intuition.
Qed.

Lemma sorted_by_len_desc_In {A : Type} (key : A -> str) (y : A) (l : list A) :
  In y (sorted_by_len_desc key l) <-> In y l.
Proof.
  induction l as [|x l IH]; simpl.
  - tauto.
  - rewrite insert_by_len_desc_In, IH. intuition.
Qed.

Lemma dict_has_keys (k : str) (d : dict) :
  dict_has k d = existsb (str_eqb k) (dict_keys d).
Proof.
  unfold dict_has. induction d as [|[k' v] d IH]; simpl; auto.
  destruct (str_eqb k k'); auto.
Qed.

Lemma dict_set_keys_known (k v : str) (d : dict) :
  dict_has k d = true -> dict_keys (dict_set k v d) = dict_keys d.
Proof.
  unfold dict_has. induction d as [|[k' v'] d IH]; simpl.
  - discriminate.
  - destruct (str_eqb k k') eqn:E; simpl; auto.
    intros H. f_equal. auto.
Qed.

Lemma expand_items_keys (keys : list str) (d : dict) (u : bool) :
  dict_keys (fst (expand_items keys d u)) = dict_keys d.
Proof.
  revert d u. induction keys as [|k keys IH]; intros d u; simpl; auto.
  destruct (dict_get k d) as [value|] eqn:G; auto.
  destruct (expand_value d value); auto.
  rewrite IH. apply dict_set_keys_known. unfold dict_has. now rewrite G.
Qed.

Lemma expand_loop_keys (n : nat) (d : dict) (u : bool) :
  dict_keys (fst (expand_loop n d u)) = dict_keys d.
Proof.
  revert d u. induction n as [|n IH]; intros d u; simpl; auto.
  destruct u; simpl; auto.
  destruct (expand_items (dict_keys d) d false) as [d' u'] eqn:E.
  rewrite IH. change d' with (fst (d', u')). rewrite <- E.
  apply expand_items_keys.
Qed.

(** The value expansion neither adds nor drops a key. *)
Lemma expand_attributes_keys (d : dict) :
  dict_keys (expand_attributes d) = dict_keys d.
Proof. apply expand_loop_keys. Qed.

Lemma expand_attributes_has (k : str) (d : dict) :
  dict_has k (expand_attributes d) = dict_has k d.
Proof. now rewrite !dict_has_keys, expand_attributes_keys. Qed.

(** ** Pieces of patterns *)

Lemma take_lit_app (p s r : str) : take_lit p s = Some r -> s = p ++ r.
Proof.
  revert s. induction p as [|a p IH]; intros [|b s]; simpl; try congruence.
  destruct (Ascii.eqb a b) eqn:E; try discriminate.
  apply Ascii.eqb_eq in E. subst b. intros H. f_equal. auto.
Qed.

Lemma take_lit_same (p r : str) : take_lit p (p ++ r) = Some r.
Proof.
  induction p as [|a p IH]; simpl; auto. now rewrite Ascii.eqb_refl.
Qed.

Lemma at_end_cases (s : str) :
  at_end s = true -> s = [] \/ s = [ascii_of_nat 10].
Proof.
  destruct s as [|c [|d s]]; simpl; auto; try discriminate.
  intros H. apply N.eqb_eq in H. right. f_equal.
  unfold ord in H. rewrite <- (ascii_N_embedding c), H. reflexivity.
Qed.

(* ================================================================== *)
(** ** Conditional blocks of the attribute file *)

(** The line forms of the specification, and the form of a line: the tests
    of [parse_line], in its order, on the stripped line.  A blank line, a
    comment and a line of no form are [NoForm]. *)
Inductive line_form :=
| NoForm
| ConditionalClose
| OpenIfUndefined (name : str)
| OpenIfEqual (name literal : str)
| AttributeDefinition (name value : str).

Definition line_form_of (line : str) : line_form :=
  let line := strip line in
  match line with
  | [] => NoForm
  | _ =>
      if starts_with "//" line then NoForm
      else if endif_re line then ConditionalClose
      else match ifndef_re line with
           | Some name => OpenIfUndefined name
           | None =>
               match ifeval_re line with
               | Some (name, literal) => OpenIfEqual name literal
               | None =>
                   match attr_re line with
                   | Some (name, value) =>
                       AttributeDefinition name
                         (match value with Some v => strip v | None => [] end)
                   | None => NoForm
                   end
               end
           end
  end.

(** The ConditionalStack in the words of the specification: the conditions
    of the open blocks, each as its own directive decided it, innermost
    first.  A block is active when its condition and those of all the
    blocks around it hold. *)
Definition all_active (conds : list bool) : bool := forallb (fun c => c) conds.

(** One line, in the words of the specification: a close drops the
    innermost block, if there is one; an open directive adds a block with
    its condition, read on the table as it stands; a definition enters the
    table when every open block is active; any other line does nothing. *)
Definition spec_line (s : dict * list bool) (line : str) : dict * list bool :=
  let (table, conds) := s in
  match line_form_of line with
  | NoForm => (table, conds)
  | ConditionalClose => (table, tl conds)
  | OpenIfUndefined name => (table, negb (dict_has name table) :: conds)
  | OpenIfEqual name literal =>
      (table,
       match dict_get name table with
       | Some v => str_eqb v literal
       | None => false
       end :: conds)
  | AttributeDefinition name value =>
      if all_active conds then (dict_set name value table, conds)
      else (table, conds)
  end.

Definition spec_lines (lines : list str) (initial_context : dict) : dict * list bool :=
  fold_left spec_line lines (initial_context, []).

(** What the variables of [parse_line] hold for a table and the conditions
    of the open blocks: [in_active_block] is the conjunction of all the
    conditions, and [active_block_stack] has, for each open block, the
    conjunction of the conditions of the blocks around it. *)
Fixpoint enclosing (conds : list bool) : list bool :=
  match conds with
  | [] => []
  | _ :: around => all_active around :: enclosing around
  end.

Definition state_of (s : dict * list bool) : parse_state :=
  {| attributes := fst s;
     in_active_block := all_active (snd s);
     active_block_stack := enclosing (snd s) |}.

(** The example of the specification, one directive to a line. *)
Definition gating_lines : list str := lits ["ifndef::x[]"; ":y: 1"; "endif::[]"].
Definition gating_file : str := join [ascii_of_nat 10] gating_lines.

(** A line read inside an inactive block leaves the table as it is. *)
Lemma parse_line_inactive (st : parse_state) (line : str) :
  in_active_block st = false -> attributes (parse_line st line) = attributes st.
Proof.
  intros A. unfold parse_line.
  destruct (strip line) as [|c l]; auto.
  destruct (starts_with "//" (c :: l)); auto.
  destruct (endif_re (c :: l)).
  - destruct (active_block_stack st); auto.
  - destruct (ifndef_re (c :: l)); auto.
    destruct (ifeval_re (c :: l)) as [[key value]|]; auto.
    rewrite A. reflexivity.
Qed.

(** A directive that opens a block pushes the activity of the block around
    it and conjoins its own condition. *)
Lemma parse_line_ifndef (st : parse_state) (line key : str) :
  ifndef_re (strip line) = Some key ->
  parse_line st line =
    set_block st (in_active_block st && negb (dict_has key (attributes st)))
              (in_active_block st :: active_block_stack st).
Proof.
  intros H. unfold parse_line.
  assert (P : exists r, strip line = lit "ifndef::" ++ r).
  { unfold ifndef_re in H.
    destruct (take_lit "ifndef::" (strip line)) as [r|] eqn:T; try discriminate.
    exists r. now apply take_lit_app. }
  destruct P as [r P]. rewrite P in *. simpl in *. now rewrite H.
Qed.

(** A close read while no block is open changes nothing. *)
Lemma parse_line_endif_empty (st : parse_state) (line : str) :
  endif_re (strip line) = true -> active_block_stack st = [] ->
  parse_line st line = st.
Proof.
  intros H S. unfold parse_line.
  assert (P : exists r, strip line = lit "endif::[]" ++ r).
  { unfold endif_re in H.
    destruct (take_lit "endif::[]" (strip line)) as [r|] eqn:T; try discriminate.
    exists r. now apply take_lit_app. }
  destruct P as [r P]. rewrite P in *.
  change (lit "endif::[]" ++ r) with ("e"%char :: lit "ndif::[]" ++ r) in *.
  cbv beta iota. change (starts_with "//" ("e"%char :: lit "ndif::[]" ++ r)) with false.
  cbv iota. rewrite H, S. reflexivity.
Qed.

(** With [x] defined, reading any prefix of the example adds no key. *)
Lemma gating_prefix_keeps_table (initial_context : dict) (n : nat) :
  dict_has "x" initial_context = true ->
  attributes (parse_lines (firstn n gating_lines) initial_context) = initial_context.
Proof.
  intros X. cbv -[dict_has] in X.
  assert (F : firstn n gating_lines = firstn (Nat.min 3 n) gating_lines).
  { destruct n as [|[|[|n]]]; try reflexivity.
    simpl. now rewrite !firstn_nil. }
  rewrite F. clear F.
  destruct n as [|[|[|n]]]; cbv -[dict_has]; rewrite ?X; reflexivity.
Qed.

Lemma parse_line_ifeval (st : parse_state) (line key value : str) :
  ifeval_re (strip line) = Some (key, value) ->
  parse_line st line =
    set_block st
      (in_active_block st &&
       match dict_get key (attributes st) with
       | Some v => str_eqb v value
       | None => false
       end)
      (in_active_block st :: active_block_stack st).
Proof.
  intros H. unfold parse_line.
  assert (P : exists r, strip line = "i"%char :: r /\ starts_with "//" ("i"%char :: r) = false
                        /\ endif_re ("i"%char :: r) = false /\ ifndef_re ("i"%char :: r) = None).
  { unfold ifeval_re in H.
    destruct (take_lit (lit "ifeval::[" ++ [dquote] ++ lit "{") (strip line)) as [r|] eqn:T;
      try discriminate.
    apply take_lit_app in T. exists (lit "feval::[" ++ [dquote] ++ lit "{" ++ r).
    split; [exact T|]. repeat split; reflexivity. }
  destruct P as [r [P [P1 [P2 P3]]]]. rewrite P in *.
  cbv beta iota. rewrite P1, P2, P3, H. reflexivity.
Qed.

(** The whole example on one line is no directive and no definition. *)
Definition gating_one_line : str := join " " gating_lines.

Lemma gating_one_line_keeps_state (st : parse_state) :
  parse_line st gating_one_line = st.
Proof.
  unfold parse_line.
  change (strip gating_one_line) with gating_one_line.
  change (starts_with "//" gating_one_line) with false.
  change (endif_re gating_one_line) with false.
  change (ifndef_re gating_one_line) with (@None str).
  change (ifeval_re gating_one_line) with (@None (str * str)).
  change (attr_re gating_one_line) with (@None (str * option str)).
  cbv beta iota. destruct (negb (in_active_block st)); reflexivity.
Qed.

(** [parse_line] does to its variables what the specification says of a
    line. *)
Lemma parse_line_follows_spec (s : dict * list bool) (line : str) :
  parse_line (state_of s) line = state_of (spec_line s line).
Proof.
  destruct s as [table conds]. unfold parse_line, spec_line, line_form_of.
  cbv zeta. destruct (strip line) as [|c l]; [reflexivity|].
  destruct (starts_with "//" (c :: l)); [reflexivity|].
  destruct (endif_re (c :: l)).
  { destruct conds as [|c0 around]; reflexivity. }
  destruct (ifndef_re (c :: l)) as [name|].
  { unfold state_of, set_block, all_active. cbn [fst snd attributes in_active_block
      active_block_stack forallb enclosing]. now rewrite andb_comm. }
  destruct (ifeval_re (c :: l)) as [[name literal]|].
  { unfold state_of, set_block, all_active. cbn [fst snd attributes in_active_block
      active_block_stack forallb enclosing]. now rewrite andb_comm. }
  unfold state_of. cbn [fst snd attributes in_active_block active_block_stack].
  destruct (attr_re (c :: l)) as [[name value]|];
    destruct (all_active conds) eqn:A; cbn [negb fst snd]; now rewrite ?A.
Qed.

Lemma parse_lines_follow_spec (lines : list str) (initial_context : dict) :
  parse_lines lines initial_context = state_of (spec_lines lines initial_context).
Proof.
  unfold parse_lines, spec_lines.
  change {| attributes := initial_context; in_active_block := true;
            active_block_stack := [] |} with (state_of (initial_context, [])).
  generalize (initial_context, @nil bool).
  induction lines as [|line lines IH]; intros s; [reflexivity|].
  cbn [fold_left]. now rewrite parse_line_follows_spec, IH.
Qed.

(** A close read while a block is open takes the activity of the block
    around it from the stack. *)
Lemma parse_line_endif_open (st : parse_state) (line : str) (top : bool)
    (rest : list bool) :
  endif_re (strip line) = true -> active_block_stack st = top :: rest ->
  parse_line st line = set_block st top rest.
Proof.
  intros H S. unfold parse_line.
  assert (P : exists r, strip line = lit "endif::[]" ++ r).
  { unfold endif_re in H.
    destruct (take_lit "endif::[]" (strip line)) as [r|] eqn:T; try discriminate.
    exists r. now apply take_lit_app. }
  destruct P as [r P]. rewrite P in *.
  change (lit "endif::[]" ++ r) with ("e"%char :: lit "ndif::[]" ++ r) in *.
  cbv beta iota. change (starts_with "//" ("e"%char :: lit "ndif::[]" ++ r)) with false.
  cbv iota. rewrite H, S. reflexivity.
Qed.

(** A line that is neither a close nor an open directive leaves the two
    variables of the blocks as they are. *)
Lemma parse_line_keeps_blocks (st : parse_state) (line : str) :
  match line_form_of line with
  | NoForm | AttributeDefinition _ _ => True
  | _ => False
  end ->
  in_active_block (parse_line st line) = in_active_block st
  /\ active_block_stack (parse_line st line) = active_block_stack st.
Proof.
  unfold parse_line, line_form_of. cbv zeta.
  destruct (strip line) as [|c l]; [now split|].
  destruct (starts_with "//" (c :: l)); [now split|].
  destruct (endif_re (c :: l)); [contradiction|].
  destruct (ifndef_re (c :: l)); [contradiction|].
  destruct (ifeval_re (c :: l)) as [[name literal]|]; [contradiction|].
  intros _. destruct (negb (in_active_block st)); [now split|].
  destruct (attr_re (c :: l)) as [[name value]|]; now split.
Qed.

(** C6.  Conditional blocks of the attribute file nest by conjunction.
    (1) After any lines, the variables of the parser are those of the
    specification: the table is the table that the line forms build
    ([spec_lines]: a definition enters it only when every open block is
    active, a close drops the innermost block and does nothing when none
    is open, every other line does nothing), [in_active_block] is the
    conjunction of the conditions of all the open blocks, and
    [active_block_stack] has one entry for each open block, the
    conjunction of the conditions around it; (2) line by line, on every
    such state.  On any state whatever: (3), (4) an [ifndef] and an
    [ifeval] push the activity of the enclosing block and conjoin their
    own condition; (5) a close with a block open takes the activity back
    from the stack; (6) a close with an empty stack changes nothing;
    (7) a line of another form keeps the flag and the stack; (8) a line
    read while the block is inactive leaves the table unchanged, whatever
    the line is.  (9) For the example [ifndef::x[]], [:y: 1], [endif::[]]
    with [x] in the initial context no prefix of the file changes the
    table, and the table returned has the keys of the initial context, so
    [y] is not added (10) nor when the three directives stand on one
    line. *)
Theorem conditional_blocks_gate_definitions :
  (forall lines initial_context,
     parse_lines lines initial_context = state_of (spec_lines lines initial_context))
  /\ (forall s line, parse_line (state_of s) line = state_of (spec_line s line))
  /\ (forall st line key,
        ifndef_re (strip line) = Some key ->
        parse_line st line =
          set_block st (in_active_block st && negb (dict_has key (attributes st)))
                    (in_active_block st :: active_block_stack st))
  /\ (forall st line key value,
        ifeval_re (strip line) = Some (key, value) ->
        parse_line st line =
          set_block st
            (in_active_block st &&
             match dict_get key (attributes st) with
             | Some v => str_eqb v value
             | None => false
             end)
            (in_active_block st :: active_block_stack st))
  /\ (forall st line top rest,
        endif_re (strip line) = true -> active_block_stack st = top :: rest ->
        parse_line st line = set_block st top rest)
  /\ (forall st line,
        endif_re (strip line) = true -> active_block_stack st = [] ->
        parse_line st line = st)
  /\ (forall st line,
        match line_form_of line with
        | NoForm | AttributeDefinition _ _ => True
        | _ => False
        end ->
        in_active_block (parse_line st line) = in_active_block st
        /\ active_block_stack (parse_line st line) = active_block_stack st)
  /\ (forall st line,
        in_active_block st = false ->
        attributes (parse_line st line) = attributes st)
  /\ (forall fs file_path initial_context,
        fs file_path = Content gating_file ->
        dict_has "x" initial_context = true ->
        (forall n,
           attributes (parse_lines (firstn n (splitlines gating_file)) initial_context)
           = initial_context)
        /\ exists table,
             load_and_process_adoc_attributes fs file_path initial_context
             = Returned table
             /\ dict_keys table = dict_keys initial_context
             /\ dict_has "y" table = dict_has "y" initial_context)
  /\ (forall initial_context,
        attributes (parse_lines [gating_one_line] initial_context) = initial_context).
Proof.
  split; [exact parse_lines_follow_spec|].
  split; [exact parse_line_follows_spec|].
  split; [exact parse_line_ifndef|].
  split; [exact parse_line_ifeval|].
  split; [exact parse_line_endif_open|].
  split; [exact parse_line_endif_empty|].
  split; [exact parse_line_keeps_blocks|].
  split; [exact parse_line_inactive|].
  split.
  - intros fs file_path initial_context F X.
    change (splitlines gating_file) with gating_lines.
    split; [intros n; now apply gating_prefix_keeps_table|].
    unfold load_and_process_adoc_attributes. rewrite F.
    change (splitlines gating_file) with gating_lines.
    pose proof (gating_prefix_keeps_table initial_context 3 X) as P.
    change (firstn 3 gating_lines) with gating_lines in P. rewrite P.
    eexists. split; [reflexivity|].
    split; [apply expand_attributes_keys | apply expand_attributes_has].
  - intros initial_context. unfold parse_lines. cbn [fold_left].
    now rewrite gating_one_line_keeps_state.
Qed.

(** The example of C6 with [x] set to [1]: the table returned is the
    initial one. *)
Lemma conditional_blocks_gate_witness :
  exists table,
    load_and_process_adoc_attributes (fun _ => Content gating_file) "attributes.adoc"
      [(lit "x", lit "1")] = Returned table
    /\ dict_has "y" table = false.
Proof.
  destruct conditional_blocks_gate_definitions
    as (_ & _ & _ & _ & _ & _ & _ & _ & G & _).
  destruct (G (fun _ => Content gating_file) (lit "attributes.adoc")
              [(lit "x", lit "1")] eq_refl eq_refl) as [_ [table [L [_ Y]]]].
  exists table. split; [exact L|]. rewrite Y. reflexivity.
Defined.

(* ================================================================== *)
(** ** The brand check when nothing is to be removed *)

Lemma insertion_order_In (adds : list str) (k : str) :
  In k (insertion_order adds) <-> In k adds.
Proof.
  induction adds as [|x adds IH]; simpl; [tauto|].
  rewrite filter_In, IH. split.
  - intros [H|[H _]]; auto.
  - intros [H|H]; auto.
    destruct (str_eq_dec x k) as [E|E]; auto.
    right. split; auto. apply negb_true_iff. now apply str_eqb_neq.
Qed.

Lemma remove_keywords_absent (keywords : list str) (description : str) :
  (forall keyword, In keyword keywords ->
     re_search (m_whole_word_ci keyword) description = false) ->
  remove_keywords keywords description = description.
Proof.
  unfold remove_keywords.
  induction keywords as [|k keywords IH]; simpl; auto.
  intros H. rewrite (H k) by auto. apply IH. auto.
Qed.

(** C8.  Without an entities file the brand set is empty and the brand
    check does nothing: [load_brand_config_from_entities] returns the empty
    list, raising nothing, when no path is given ([None] or the empty
    string) or nothing exists at the path; and with the empty brand set
    [post_process_description] returns its description unchanged with the
    status [None], for every description, path and iteration order. *)
Theorem absent_entities_disable_brand_check :
  forall (fs : filesystem) (set_order : list str -> list str),
    load_brand_config_from_entities fs None = Returned []
    /\ load_brand_config_from_entities fs (Some []) = Returned []
    /\ (forall path, fs path = Absent ->
          load_brand_config_from_entities fs (Some path) = Returned [])
    /\ (forall description file_path,
          post_process_description set_order description file_path []
          = (description, None)).
Proof.
  intros fs set_order. repeat split; auto.
  intros [|c path] A; simpl; auto. now rewrite A.
Qed.

(** C8 on a file system that holds nothing. *)
Lemma absent_entities_witness :
  load_brand_config_from_entities (fun _ => Absent) (Some (lit "entities.ent"))
  = Returned [].
Proof.
  destruct (absent_entities_disable_brand_check (fun _ => Absent) insertion_order)
    as (_ & _ & A & _).
  apply (A (lit "entities.ent")). reflexivity.
Defined.

(** C10.  The brand check changes a description only by removing a banned
    term.  (1) When a brand is found for the path and the banned set is not
    empty, but no banned keyword stands in the description as a whole word
    (case apart), the description comes back as it is, with the status
    [None], in whatever order the set is iterated.  (2) Whenever the status
    is [None], the description returned is the one given.  (3) Whenever the
    status is not [None], the removal loop changed the description, and the
    result is the repair of what the loop left. *)
Theorem brand_check_frame :
  (forall set_order description file_path brands context,
     (forall adds k, In k (set_order adds) -> In k adds) ->
     file_context file_path brands = Some context ->
     banned_keywords context brands <> [] ->
     (forall keyword, In keyword (banned_keywords context brands) ->
        re_search (m_whole_word_ci keyword) description = false) ->
     post_process_description set_order description file_path brands
     = (description, None))
  /\ (forall set_order description file_path brands,
        snd (post_process_description set_order description file_path brands) = None ->
        fst (post_process_description set_order description file_path brands)
        = description)
  /\ (forall set_order description file_path brands,
        snd (post_process_description set_order description file_path brands) <> None ->
        exists context,
          file_context file_path brands = Some context
          /\ let removed :=
               remove_keywords
                 (sorted_by_len_desc (fun k => k)
                    (set_order (banned_keywords context brands))) description in
             removed <> description
             /\ post_process_description set_order description file_path brands
                = (strip (repair_grammar removed), Some (lit "UPDATED"))).
Proof.
  split; [|split].
  - intros set_order description file_path brands context O C B N.
    unfold post_process_description.
    destruct brands as [|b brands]; auto.
    rewrite C. destruct (banned_keywords context (b :: brands)) as [|a adds] eqn:E.
    + congruence.
    + rewrite remove_keywords_absent.
      * now rewrite str_eqb_refl.
      * intros k K. apply N. apply O. now apply sorted_by_len_desc_In in K.
  - intros set_order description file_path brands.
    unfold post_process_description.
    destruct brands as [|b brands]; auto.
    destruct (file_context file_path (b :: brands)) as [context|]; auto.
    destruct (banned_keywords context (b :: brands)) as [|a adds]; auto.
    destruct (str_eqb _ description) eqn:E; simpl; auto.
    + intros _. now apply str_eqb_eq.
    + discriminate.
  - intros set_order description file_path brands.
    unfold post_process_description.
    destruct brands as [|b brands]; [simpl; congruence|].
    destruct (file_context file_path (b :: brands)) as [context|]; [|simpl; congruence].
    destruct (banned_keywords context (b :: brands)) as [|a adds] eqn:B;
      [simpl; congruence|].
    destruct (str_eqb _ description) eqn:E; [simpl; congruence|].
    intros _. exists context. rewrite B. split; auto. split; auto.
    now apply str_eqb_neq.
Qed.

(** Two brands of the two families, as an entities file would give them. *)
Definition brand_leap : Brand :=
  {| key := "leap"; name := "openSUSE Leap"; family := opensuse |}.
Definition brand_suma : Brand :=
  {| key := "suma"; name := "SUSE Manager"; family := suse |}.

(** C10 on a description that names no brand. *)
Lemma brand_check_frame_witness :
  post_process_description insertion_order "Install the system from the DVD"
    "/docs/leap/install.adoc" [brand_leap; brand_suma]
  = (lit "Install the system from the DVD", None).
Proof.
  destruct brand_check_frame as [F _].
  apply (F insertion_order (lit "Install the system from the DVD")
           (lit "/docs/leap/install.adoc") [brand_leap; brand_suma] brand_leap).
  - intros adds k. apply insertion_order_In.
  - reflexivity.
  - discriminate.
  - intros keyword [<-|[<-|[<-|[]]]]; reflexivity.
Defined.

(* ================================================================== *)
(** ** Attribute resolution on the two tables of the specification *)

Definition chain_table : dict := [(lit "a", lit "{b}"); (lit "b", lit "X")].
Definition circular_table : dict := [(lit "a", lit "{b}"); (lit "b", lit "{a}")].

(** An attribute file that defines the circular pair. *)
Definition circular_file : str := join [ascii_of_nat 10] (lits [":a: {b}"; ":b: {a}"]).

(** What the value expansion makes of the circular pair. *)
Definition circular_residue : dict := [(lit "a", lit "{a}"); (lit "b", lit "{a}")].

Lemma expand_loop_circular_residue (n : nat) :
  expand_loop n circular_residue true = (circular_residue, true).
Proof.
  induction n as [|n IH]; [reflexivity|].
  change (expand_loop (S n) circular_residue true)
    with (expand_loop n circular_residue true).
  exact IH.
Qed.

(** C5.  With the table [a -> {b}], [b -> X] the text [{a}] resolves to [X]:
    [resolve_attributes] returns it, one sweep of the ten suffices, and two
    do when the table lists [b] first.  The circular table [a -> {b}],
    [b -> {a}] is read as a table to expand, the resolution that keeps a
    residue: the value expansion of [load_and_process_adoc_attributes]
    returns, on every one of its (at most ten) sweeps the flag [unresolved]
    is set again, so the loop ends with the range and not with a fixed
    point found, and the values it leaves are the placeholder [{a}], under
    the cap of ten and under any other positive cap.  Loading the file
    [:a: {b}], [:b: {a}] returns this table and raises nothing. *)
Theorem attribute_fixed_point_and_cycle :
  resolve_attributes "{a}" chain_table = lit "X"
  /\ resolve_loop 1 chain_table "{a}" = lit "X"
  /\ resolve_loop 2 (rev chain_table) "{a}" = lit "X"
  /\ resolve_attributes "{a}" (rev chain_table) = lit "X"
  /\ expand_loop 10 circular_table true = (circular_residue, true)
  /\ (forall n, expand_loop (S n) circular_table true = (circular_residue, true))
  /\ map (fun kv => re_findall p_placeholder (snd kv)) circular_residue
     = [[lit "a"]; [lit "a"]]
  /\ load_and_process_adoc_attributes (fun _ => Content circular_file)
       "attributes.adoc" [] = Returned circular_residue.
Proof.
  repeat split; try reflexivity.
  intros n.
  change (expand_loop (S n) circular_table true)
    with (expand_loop n circular_residue true).
  apply expand_loop_circular_residue.
Qed.

(** The text resolver, for comparison: on the circular table a sweep gives
    the text back, the loop stops there, and the placeholder is deleted. *)
Remark resolve_attributes_circular_text :
  substitute_items circular_table "{a}" = lit "{a}"
  /\ resolve_attributes "{a}" circular_table = [].
Proof. split; reflexivity. Qed.

(* ================================================================== *)
(** ** The sanitizer on concrete drafts *)

Definition no_banned : ScriptConfig := {| BANNED_LITERALS := [] |}.

Definition round_trip_draft : str :=
  "This guide describes how to configure the Foo network stack for your infrastructure and for".

(** C2, as amended.  For the draft of the specification and no banned
    literal, the steps before the emptiness test remove the lead-in
    [This guide describes ] and nothing else; the stop-word trim then drops
    the trailing [and for]; the result, capitalized, is
    [How to configure the Foo network stack for your infrastructure]: the
    words [how to] stay, so the result ends with, and does not start with,
    [configure the Foo network stack for your infrastructure]. *)
Theorem round_trip_example :
  forall charref_sub : str -> str,
    clean charref_sub no_banned round_trip_draft
    = lit "how to configure the Foo network stack for your infrastructure and for"
    /\ sanitize_and_finalize charref_sub round_trip_draft no_banned
       = lit "How to configure the Foo network stack for your infrastructure"
    /\ ends_with "configure the Foo network stack for your infrastructure"
         (sanitize_and_finalize charref_sub round_trip_draft no_banned) = true.
Proof. intros charref_sub. repeat split; vm_compute; reflexivity. Qed.

(** C2, as stated, fails: the result does not start with [Configure]. *)
Lemma round_trip_example_keeps_how_to :
  starts_with "Configure the Foo network stack for your infrastructure"
    (sanitize_and_finalize (fun s => s) round_trip_draft no_banned) = false.
Proof. vm_compute. reflexivity. Qed.

(** A draft of 161 characters without a space. *)
Definition unbroken_draft : str := repeat "a"%char 161.

(** A language model that answers the first prompt with [unbroken_draft]
    and whose other answers are empty. *)
Definition unbroken_model (n : nat) (p : prompt) : str :=
  match p with
  | PROMPT_TMPL _ _ => unbroken_draft
  | _ => []
  end.

(** C1 at a draft without a space: the cut keeps 161 characters, and the
    length gate accepts them. *)
Lemma unbroken_draft_accepted_at_161 :
  length (truncate unbroken_draft) = 161
  /\ length (sanitize_and_finalize (fun s => s) unbroken_draft no_banned) = 161
  /\ option_map (fun r => length (fst r))
       (accepted_description (fun s => s) insertion_order unbroken_model
          no_banned "/docs/index.adoc" [] "payload") = Some 161.
Proof. repeat split; vm_compute; reflexivity. Qed.

(** A draft in which a period stands alone before a trailing stop-word, and
    a draft that comes to the same after its quotes are blanked. *)
Definition lone_period_draft : str := "Configure the firewall . Then".
Definition quoted_draft : str :=
  lit "Configure the " ++ [dquote] ++ lit "firewall" ++ [dquote] ++ lit ". Then".

(** C9 at these drafts: the result ends with a space. *)
Lemma lone_period_leaves_trailing_space :
  sanitize_and_finalize (fun s => s) lone_period_draft no_banned
  = lit "Configure the firewall "
  /\ sanitize_and_finalize (fun s => s) quoted_draft no_banned
     = lit "Configure the firewall "
  /\ strip (lit "Configure the firewall ") <> lit "Configure the firewall ".
Proof. repeat split; try (vm_compute; reflexivity). vm_compute. discriminate. Qed.

(* ================================================================== *)
(** ** The brand check on a description with a doubled space *)

Definition brand_sle_ha : Brand :=
  {| key := "sle-ha"; name := "SLE HA"; family := suse |}.

Definition spaced_description : str := "Configure SLE  HA clusters with SUSE Manager".

(** C7 at a path of the openSUSE family: the two spaces keep [SLE HA] from
    matching, the removal of [SUSE Manager] starts the repair, the repair
    joins the spaces, and the description returned holds the display name
    [SLE HA] of a brand of the other family as a whole word. *)
Lemma spaced_name_survives_brand_check :
  file_context "/docs/leap/install.adoc" [brand_leap; brand_sle_ha; brand_suma]
  = Some brand_leap
  /\ In (name brand_sle_ha) (banned_keywords brand_leap [brand_leap; brand_sle_ha; brand_suma])
  /\ post_process_description insertion_order spaced_description
       "/docs/leap/install.adoc" [brand_leap; brand_sle_ha; brand_suma]
     = (lit "Configure SLE HA clusters with", Some (lit "UPDATED"))
  /\ re_search (m_whole_word_ci (name brand_sle_ha)) "Configure SLE HA clusters with"
     = true.
Proof. repeat split; try (vm_compute; reflexivity). simpl. auto. Qed.

(* ================================================================== *)
(** ** The substitution driver *)

(** The last character of [prev] followed by [s]. *)
Definition last_char (prev : option ascii) (s : str) : option ascii :=
  char_before prev (length s) s.

Lemma last_char_cons (prev : option ascii) (c : ascii) (s : str) :
  last_char prev (c :: s) = last_char (Some c) s.
Proof. reflexivity. Qed.

Section Driver.

Variable m : matcher.



(** Where the pattern matches nowhere the text is unchanged. *)
Lemma re_sub_from_no_match (prev : option ascii) (s : str) :
  re_search_from m prev s = false -> re_sub_from m prev 0 s = s.
Proof.
  revert prev. induction s as [|c s IH]; intros prev; simpl.
  - destruct (m prev []); [discriminate | reflexivity].
  - destruct (m prev (c :: s)); [discriminate|].
    intros H. f_equal. auto.
Qed.

Lemma re_sub_no_match (s : str) : re_search m s = false -> re_sub m s = s.
Proof. apply re_sub_from_no_match. Qed.

(** The characters of a match are passed over. *)
Lemma re_sub_from_skip (a s : str) (prev : option ascii) :
  re_sub_from m prev (length a) (a ++ s) = re_sub_from m (last_char prev a) 0 s.
Proof.
  revert prev. induction a as [|c a IH]; intros prev; simpl.
  - reflexivity.
  - rewrite last_char_cons. apply IH.
Qed.

(** Characters at which no match begins are copied. *)
Lemma re_sub_from_copy (a s : str) (prev : option ascii) :
  (forall p c t, In c a -> m p (c :: t) = None) ->
  re_sub_from m prev 0 (a ++ s) = a ++ re_sub_from m (last_char prev a) 0 s.
Proof.
  revert prev. induction a as [|c a IH]; intros prev H; simpl.
  - reflexivity.
  - rewrite (H prev c (a ++ s)) by (simpl; auto).
    rewrite last_char_cons. f_equal. apply IH. intros p d t I. apply H. simpl. auto.
Qed.


End Driver.

(** ** Character classes and literals *)


Lemma span_all (p : ascii -> bool) (w rest : str) (c : ascii) :
  forallb p w = true -> p c = false -> span p (w ++ c :: rest) = (w, c :: rest).
Proof.
  intros W H. induction w as [|d w IH]; simpl in *.
  - now rewrite H.
  - apply andb_true_iff in W. destruct W as [D W]. rewrite D, IH; auto.
Qed.

Lemma span_length (p : ascii -> bool) (s : str) :
  length (fst (span p s)) + length (snd (span p s)) = length s.
Proof.
  induction s as [|c s IH]; simpl; auto.
  destruct (p c); simpl; auto. destruct (span p s). simpl in *. lia.
Qed.

Lemma span_join (p : ascii -> bool) (s : str) : fst (span p s) ++ snd (span p s) = s.
Proof.
  induction s as [|c s IH]; simpl; auto.
  destruct (p c); simpl; auto. destruct (span p s). simpl in *. now f_equal.
Qed.

Lemma span_forallb (p : ascii -> bool) (s : str) : forallb p (fst (span p s)) = true.
Proof.
  induction s as [|c s IH]; simpl; auto.
  destruct (p c) eqn:E; simpl; auto. destruct (span p s). simpl in *. now rewrite E.
Qed.



Lemma consumed_prefix (a r : str) : consumed (a ++ r) r = length a.
Proof. unfold consumed. rewrite length_app. lia. Qed.

(* ================================================================== *)
(** ** Placeholders *)

(** A placeholder name over a character class: not empty, every character
    in the class. *)
Definition name_over (class : ascii -> bool) (name : str) : Prop :=
  name <> [] /\ forallb class name = true.

Definition open_brace : ascii := "{"%char.
Definition close_brace : ascii := "}"%char.

Lemma braced_cons (name : str) : braced name = open_brace :: name ++ [close_brace].
Proof. reflexivity. Qed.


Lemma braced_name_inv (class : ascii -> bool) (s name r : str) :
  braced_name class s = Some (name, r) ->
  s = braced name ++ r /\ name_over class name.
Proof.
  unfold braced_name. intros H.
  destruct (take_lit "{" s) as [r1|] eqn:T1; [|discriminate].
  apply take_lit_app in T1. unfold class1 in H.
  pose proof (span_join class r1) as J. pose proof (span_forallb class r1) as F.
  destruct (span class r1) as [w r2]. cbn [fst snd] in *.
  destruct w as [|c w]; [discriminate|]. cbn [fst snd] in *.
  destruct (take_lit "}" r2) as [r3|] eqn:T3; [|discriminate].
  apply take_lit_app in T3. inversion H; subst.
  split.
  - rewrite braced_cons. simpl. rewrite <- app_assoc. reflexivity.
  - split; [discriminate | exact F].
Qed.





(** *** Placeholders under [str.replace] *)














(** *** Placeholders in the table *)



Lemma starts_with_spec (p s : str) :
  starts_with p s = true <-> exists r, s = p ++ r.
Proof.
  revert s. induction p as [|a p IH]; intros s; simpl.
  - split; eauto.
  - destruct s as [|b s].
    + split; [discriminate | intros [r E]; discriminate].
    + rewrite andb_true_iff, Ascii.eqb_eq, IH. split.
      * intros [-> [r ->]]. eauto.
      * intros [r E]. inversion E. eauto.
Qed.

Lemma contains_spec (p s : str) :
  contains p s = true <-> exists pre post, s = pre ++ p ++ post.
Proof.
  induction s as [|c s IH]; simpl.
  - rewrite orb_false_r, starts_with_spec. split.
    + intros [r E]. exists [], r. exact E.
    + intros [pre [post E]]. destruct pre; simpl in E; eauto.
      discriminate.
  - rewrite orb_true_iff, starts_with_spec, IH. split.
    + intros [[r E]|[pre [post E]]].
      * exists [], r. exact E.
      * exists (c :: pre), post. simpl. now f_equal.
    + intros [pre [post E]]. destruct pre as [|d pre]; simpl in E.
      * left. eauto.
      * right. inversion E. eauto.
Qed.


Section UnknownName.

(** A name that is no key of the table [d0], and so of no table with the
    same keys. *)
Variable p : str.
Hypothesis p_name : name_over attr_key_char p.







End UnknownName.




(** The deletion is one pass: a placeholder that only forms when an inner
    one is deleted stays. *)
Remark deletion_is_one_pass : resolve_attributes "{{a}b}" [] = lit "{b}".
Proof. reflexivity. Qed.

(* ================================================================== *)
(** ** The sanitizer on text that is already final *)

(** *** Capital letters and character classes *)

Ltac by_character c :=
  destruct c as [[] [] [] [] [] [] [] []]; vm_compute;
  repeat (let H := fresh in intros H);
  solve [reflexivity | discriminate | tauto].

Lemma upper_idempotent (c : ascii) : upper (upper c) = upper c.
Proof. by_character c. Qed.

Lemma lower_upper (c : ascii) : lower (upper c) = lower c.
Proof. by_character c. Qed.

Lemma is_space_upper (c : ascii) : is_space (upper c) = is_space c.
Proof. by_character c. Qed.

Lemma is_word_upper (c : ascii) : is_word (upper c) = is_word c.
Proof. by_character c. Qed.

Lemma forbidden_char_upper (c : ascii) : forbidden_char (upper c) = forbidden_char c.
Proof. by_character c. Qed.

Lemma upper_of_space (c : ascii) : is_space c = true -> upper c = c.
Proof. by_character c. Qed.

Lemma space_eqb_upper (c : ascii) : Ascii.eqb (upper c) " " = Ascii.eqb c " ".
Proof. by_character c. Qed.

Lemma amp_eqb_upper (c : ascii) : Ascii.eqb (upper c) "&" = Ascii.eqb c "&".
Proof. by_character c. Qed.

Lemma apostrophe_eqb_upper (c : ascii) : Ascii.eqb (upper c) "'" = Ascii.eqb c "'".
Proof. by_character c. Qed.

Lemma edge_char_upper (c : ascii) : char_in " ,;:-" (upper c) = char_in " ,;:-" c.
Proof. by_character c. Qed.

Lemma end_char_upper (c : ascii) : char_in " ,;:-." (upper c) = char_in " ,;:-." c.
Proof. by_character c. Qed.

Lemma space_is_edge_char (c : ascii) : is_space c = true -> Ascii.eqb c " " = true ->
  char_in " ,;:-" c = true.
Proof. by_character c. Qed.

Lemma period_is_end_char (c : ascii) : Ascii.eqb c "." = true -> char_in " ,;:-." c = true.
Proof. by_character c. Qed.

Lemma edge_is_end_char (c : ascii) : char_in " ,;:-." c = false -> char_in " ,;:-" c = false.
Proof. by_character c. Qed.

(** *** Final form *)

(** White space in final form: one space between two words, no other white
    space, none at either end.  [after_space] tells that the text begins
    here or that the character before is a space. *)
Fixpoint single_spaced_from (after_space : bool) (s : str) : bool :=
  match s with
  | [] => negb after_space
  | c :: s' =>
      if is_space c
      then Ascii.eqb c " " && negb after_space && single_spaced_from true s'
      else single_spaced_from false s'
  end.

Definition single_spaced (s : str) : bool := single_spaced_from true s.

(** The last character of a text. *)
Definition final_char (s : str) : option ascii := hd_error (rev s).

(** A text that every step of the sanitizer leaves alone, the capital
    letter apart.  The conditions, in the order of the steps: no character
    reference; no leaked phrase; white space in final form; no apostrophe;
    no banned literal as a whole word; no forbidden character; no
    self-referential lead-in; no leading preposition; no stray punctuation
    at either end and no final period; at most 160 characters; a last word
    that is no stop-word. *)
Definition final_form (config : ScriptConfig) (x : str) : bool :=
  negb (char_in x "&")
  && forallb (fun phrase => negb (re_search (m_literal_ci phrase []) x)) leakage_phrases
  && single_spaced x
  && negb (char_in x "'")
  && forallb (fun name => negb (re_search (m_whole_word_ci name) x))
       (BANNED_LITERALS config)
  && forallb (fun c => negb (forbidden_char c)) x
  && forallb (fun pat => negb (re_search pat x)) DOC_META_PATTERNS
  && negb (re_search m_leading_prep x)
  && match x with c :: _ => negb (char_in " ,;:-" c) | [] => false end
  && match final_char x with Some c => negb (char_in " ,;:-." c) | None => false end
  && (length x <=? 160)
  && negb (is_trailing_stopword (last (split_ws x) [])).

(** *** Steps that find nothing to do *)

Lemma fold_left_fixed {A : Type} (f : str -> A -> str) (l : list A) (x : str) :
  (forall a, In a l -> f x a = x) -> fold_left f l x = x.
Proof.
  induction l as [|a l IH]; simpl; auto.
  intros H. rewrite (H a) by auto. apply IH. auto.
Qed.

(** A pattern whose every match holds a character of a class finds nothing
    in a text without such a character. *)
Lemma re_search_from_clean (m : matcher) (bad : ascii -> bool) (x : str)
    (prev : option ascii) :
  (forall p s r, m p s = Some r -> exists c, In c s /\ bad c = true) ->
  forallb (fun c => negb (bad c)) x = true ->
  re_search_from m prev x = false.
Proof.
  intros M. revert prev. induction x as [|c x IH]; intros prev F; simpl.
  - destruct (m prev []) as [r|] eqn:E; auto.
    apply M in E. destruct E as [d [[] _]].
  - destruct (m prev (c :: x)) as [r|] eqn:E.
    + apply M in E. destruct E as [d [I B]].
      rewrite forallb_forall in F. specialize (F d I). rewrite B in F. discriminate.
    + apply IH. simpl in F. apply andb_true_iff in F. tauto.
Qed.

Lemma char_in_forallb (x : str) (a : ascii) :
  char_in x a = false -> forallb (fun c => negb (Ascii.eqb c a)) x = true.
Proof.
  unfold char_in. induction x as [|c x IH]; simpl; auto.
  intros H. apply orb_false_iff in H. destruct H as [H1 H2].
  rewrite Ascii.eqb_sym, H1. simpl. auto.
Qed.

Lemma m_possessive_needs_apostrophe (p : option ascii) (s : str) (r : str * nat) :
  m_possessive p s = Some r -> exists c, In c s /\ Ascii.eqb c "'" = true.
Proof.
  unfold m_possessive, class1. pose proof (span_join is_word s) as J.
  destruct (span is_word s) as [w t]. simpl in J.
  destruct w as [|d w]; [discriminate|]. cbn [fst snd].
  destruct (take_lit "'s" t) as [u|] eqn:T; [|discriminate].
  apply take_lit_app in T. intros _. exists "'"%char. split; [|reflexivity].
  rewrite <- J, T. apply in_or_app. right. simpl. auto.
Qed.

Lemma m_literal_needs_head (a : ascii) (new : str) (p : option ascii) (s : str)
    (r : str * nat) :
  m_literal [a] new p s = Some r -> exists c, In c s /\ Ascii.eqb c a = true.
Proof.
  unfold m_literal. destruct (take_lit [a] s) as [u|] eqn:T; [|discriminate].
  apply take_lit_app in T. subst s. intros _. exists a. simpl.
  split; [auto | apply Ascii.eqb_refl].
Qed.

Lemma m_forbidden_needs_forbidden (p : option ascii) (s : str) (r : str * nat) :
  m_forbidden p s = Some r -> exists c, In c s /\ forbidden_char c = true.
Proof.
  unfold m_forbidden. destruct s as [|c s]; [discriminate|].
  destruct (forbidden_char c) eqn:F; [|discriminate].
  intros _. exists c. simpl. auto.
Qed.

(** The ends of a text that [strip] leaves alone. *)
Lemma strip_by_fixed (p : ascii -> bool) (x : str) (c l : ascii) :
  hd_error x = Some c -> p c = false ->
  final_char x = Some l -> p l = false ->
  strip_by p x = x.
Proof.
  unfold strip_by, rstrip_by, lstrip_by, final_char.
  intros Hc Pc Hl Pl. destruct x as [|d x]; [discriminate|].
  simpl in Hc. injection Hc as ->. cbn [drop_while]. rewrite Pc.
  destruct (rev (c :: x)) as [|e y] eqn:R; [discriminate|].
  simpl in Hl. injection Hl as ->. cbn [drop_while]. rewrite Pl.
  rewrite <- R. apply rev_involutive.
Qed.

Lemma rstrip_by_fixed (p : ascii -> bool) (x : str) (l : ascii) :
  final_char x = Some l -> p l = false -> rstrip_by p x = x.
Proof.
  unfold rstrip_by, final_char. intros Hl Pl.
  destruct (rev x) as [|e y] eqn:R; [discriminate|].
  simpl in Hl. injection Hl as ->. cbn [drop_while]. rewrite Pl.
  rewrite <- R. apply rev_involutive.
Qed.

(** *** White space in final form *)

Lemma single_spaced_true_head (s : str) :
  single_spaced_from true s = true ->
  exists c t, s = c :: t /\ is_space c = false /\ single_spaced_from false t = true.
Proof.
  destruct s as [|c t]; simpl; [discriminate|].
  destruct (is_space c) eqn:S.
  - rewrite andb_false_r. discriminate.
  - eauto.
Qed.

Lemma span_space_word (s : str) :
  single_spaced_from true s = true -> span is_space s = ([], s).
Proof.
  intros H. apply single_spaced_true_head in H.
  destruct H as [c [t [-> [S _]]]]. simpl. now rewrite S.
Qed.

Lemma single_spaced_space (b : bool) (c : ascii) (s : str) :
  is_space c = true -> single_spaced_from b (c :: s) = true ->
  c = " "%char /\ single_spaced_from true s = true.
Proof.
  simpl. intros S. rewrite S. intros H.
  apply andb_true_iff in H. destruct H as [H H2].
  apply andb_true_iff in H. destruct H as [H1 _].
  apply Ascii.eqb_eq in H1. auto.
Qed.

Lemma consumed_one (c : ascii) (s : str) : consumed (c :: s) s = 1.
Proof. unfold consumed. cbn [length]. lia. Qed.

(** [\s+] finds single spaces only and writes each back. *)
Lemma ws_run_fixed (b : bool) (prev : option ascii) (s : str) :
  single_spaced_from b s = true -> re_sub_from m_ws_run prev 0 s = s.
Proof.
  revert b prev. induction s as [|c s IH]; intros b prev H.
  - reflexivity.
  - cbn [re_sub_from]. unfold m_ws_run at 1, spaces1. cbn [span].
    destruct (is_space c) eqn:S.
    + destruct (single_spaced_space b c s S H) as [-> H'].
      rewrite (span_space_word s H'). rewrite consumed_one.
      cbn [app lit list_ascii_of_string]. f_equal. now apply (IH true).
    + f_equal. apply (IH false). simpl in H. now rewrite S in H.
Qed.

(** [\s{2,}] finds nothing. *)
Lemma ws_run2_absent (b : bool) (prev : option ascii) (s : str) :
  single_spaced_from b s = true -> re_search_from m_ws_run2 prev s = false.
Proof.
  revert b prev. induction s as [|c s IH]; intros b prev H.
  - reflexivity.
  - cbn [re_search_from]. unfold m_ws_run2 at 1, spaces1. cbn [span].
    destruct (is_space c) eqn:S.
    + destruct (single_spaced_space b c s S H) as [-> H'].
      rewrite (span_space_word s H'). rewrite consumed_one.
      cbn [Nat.leb]. now apply (IH true).
    + apply (IH false). simpl in H. now rewrite S in H.
Qed.

Lemma single_spaced_In (b : bool) (s : str) (c : ascii) :
  single_spaced_from b s = true -> In c s -> is_space c = true -> c = " "%char.
Proof.
  revert b. induction s as [|d s IH]; intros b H I S; [destruct I|].
  destruct I as [->|I].
  - now destruct (single_spaced_space b c s S H).
  - simpl in H. destruct (is_space d).
    + apply andb_true_iff in H. destruct H as [_ H]. now apply (IH true).
    + now apply (IH false).
Qed.

Lemma join_cons_char (sep : str) (c : ascii) (w : str) (ws : list str) :
  join sep ((c :: w) :: ws) = c :: join sep (w :: ws).
Proof. destruct ws; reflexivity. Qed.

Lemma join_cons_word (sep a b : str) (l : list str) :
  join sep (a :: b :: l) = a ++ sep ++ join sep (b :: l).
Proof. reflexivity. Qed.

Lemma split_ws_word_head (c : ascii) (s : str) :
  is_space c = false -> split_ws (c :: s) <> [].
Proof.
  intros S. simpl. rewrite S. destruct s as [|d s]; [discriminate|].
  destruct (is_space d); [discriminate|].
  destruct (split_ws (d :: s)); discriminate.
Qed.

(** Splitting a text in final form and joining the words gives it back,
    without the space it may begin with. *)
Lemma join_split_ws (b : bool) (s : str) :
  single_spaced_from b s = true ->
  join " " (split_ws s) = drop_while is_space s.
Proof.
  revert b. induction s as [|c s IH]; intros b H; [reflexivity|].
  cbn [drop_while]. destruct (is_space c) eqn:S.
  - destruct (single_spaced_space b c s S H) as [_ H'].
    cbn [split_ws]. rewrite S. now apply (IH true).
  - assert (H' : single_spaced_from false s = true).
    { simpl in H. now rewrite S in H. }
    specialize (IH false H'). cbn [split_ws]. rewrite S.
    destruct s as [|d s]; [reflexivity|].
    destruct (is_space d) eqn:D.
    + destruct (single_spaced_space false d s D H') as [-> H''].
      destruct (single_spaced_true_head s H'') as [e [t [-> [E _]]]].
      cbn [drop_while] in IH. rewrite D in IH. cbn [drop_while] in IH.
      rewrite E in IH.
      assert (N : split_ws (" "%char :: e :: t) <> []).
      { cbn [split_ws]. rewrite D. now apply split_ws_word_head. }
      destruct (split_ws (" "%char :: e :: t)) as [|w ws]; [congruence|].
      rewrite join_cons_word, IH. reflexivity.
    + cbn [drop_while] in IH. rewrite D in IH.
      pose proof (split_ws_word_head d s D) as N.
      destruct (split_ws (d :: s)) as [|w ws]; [congruence|].
      rewrite join_cons_char, IH. reflexivity.
Qed.

Lemma join_split_ws_fixed (x : str) :
  single_spaced x = true -> join " " (split_ws x) = x.
Proof.
  intros H. rewrite (join_split_ws true x H).
  destruct (single_spaced_true_head x H) as [c [t [-> [S _]]]].
  simpl. now rewrite S.
Qed.

(** The stop-word loop stops at once at a last word that is none. *)
Lemma pop_stopwords_fixed (words : list str) :
  is_trailing_stopword (last words []) = false -> pop_stopwords words = words.
Proof.
  intros H. unfold pop_stopwords. destruct words as [|w ws]; [reflexivity|].
  rewrite (app_removelast_last [] (l := w :: ws)) at 1 by discriminate.
  rewrite rev_app_distr. cbn [rev app drop_while]. rewrite H.
  change (last (w :: ws) [] :: rev (removelast (w :: ws)))
    with (rev [last (w :: ws) []] ++ rev (removelast (w :: ws))).
  rewrite <- rev_app_distr, rev_involutive.
  symmetry. apply app_removelast_last. discriminate.
Qed.

(** *** The sanitizer on a text in final form *)

Lemma final_char_cons (c : ascii) (t : str) :
  final_char (c :: t) = match final_char t with Some l => Some l | None => Some c end.
Proof.
  unfold final_char. simpl. destruct (rev t) as [|l y] eqn:R; reflexivity.
Qed.

Lemma final_char_In (x : str) (l : ascii) : final_char x = Some l -> In l x.
Proof.
  unfold final_char. intros H. apply in_rev.
  destruct (rev x); [discriminate|]. injection H as ->. simpl. auto.
Qed.

Lemma ends_with_char (a : ascii) (x : str) (l : ascii) :
  final_char x = Some l -> Ascii.eqb a l = false -> ends_with [a] x = false.
Proof.
  unfold ends_with, final_char. intros H E.
  destruct (rev x); [discriminate|]. injection H as ->. simpl. now rewrite E.
Qed.

Section FinalForm.

Variable charref_sub : str -> str.
Variable config : ScriptConfig.
Variable x : str.
Hypothesis final : final_form config x = true.

Lemma final_parts :
  char_in x "&" = false
  /\ (forall phrase, In phrase leakage_phrases ->
        re_search (m_literal_ci phrase []) x = false)
  /\ single_spaced x = true
  /\ char_in x "'" = false
  /\ (forall name, In name (BANNED_LITERALS config) ->
        re_search (m_whole_word_ci name) x = false)
  /\ forallb (fun c => negb (forbidden_char c)) x = true
  /\ (forall pat, In pat DOC_META_PATTERNS -> re_search pat x = false)
  /\ re_search m_leading_prep x = false
  /\ (exists c t, x = c :: t /\ char_in " ,;:-" c = false)
  /\ (exists l, final_char x = Some l /\ char_in " ,;:-." l = false)
  /\ length x <= 160
  /\ is_trailing_stopword (last (split_ws x) []) = false.
Proof.
  pose proof final as F. unfold final_form in F.
  repeat rewrite andb_true_iff in F.
  destruct F as [[[[[[[[[[[F1 F2] F3] F4] F5] F6] F7] F8] F9] F10] F11] F12].
  apply negb_true_iff in F1. apply negb_true_iff in F4. apply negb_true_iff in F8.
  apply negb_true_iff in F12. apply Nat.leb_le in F11.
  rewrite forallb_forall in F2, F5, F7.
  repeat split; auto.
  - intros phrase I. apply negb_true_iff. auto.
  - intros name I. apply negb_true_iff. auto.
  - intros pat I. apply negb_true_iff. auto.
  - destruct x as [|c t]; [discriminate|]. exists c, t. split; auto.
    now apply negb_true_iff.
  - destruct (final_char x) as [l|]; [|discriminate]. exists l. split; auto.
    now apply negb_true_iff.
Qed.

Lemma final_ends :
  exists c l, hd_error x = Some c /\ final_char x = Some l
              /\ is_space c = false /\ is_space l = false
              /\ char_in " ,;:-" c = false /\ char_in " ,;:-" l = false
              /\ char_in " ,;:-." l = false.
Proof.
  destruct final_parts as (_ & _ & S & _ & _ & _ & _ & _ & [c [t [E C]]] & [l [L D]] & _).
  exists c, l. rewrite E in *. repeat split; auto.
  - destruct (is_space c) eqn:W; auto.
    assert (c = " "%char) by (apply (single_spaced_In true (c :: t) c S); simpl; auto).
    subst c. discriminate.
  - destruct (is_space l) eqn:W; auto.
    assert (l = " "%char).
    { apply (single_spaced_In true (c :: t) l S); auto. now apply final_char_In. }
    subst l. discriminate.
  - now apply edge_is_end_char.
Qed.

Lemma final_strip : strip x = x.
Proof.
  destruct final_ends as [c [l [C [L [Sc [Sl _]]]]]].
  now apply (strip_by_fixed is_space x c l).
Qed.

Lemma final_collapse : strip (re_sub m_ws_run x) = x.
Proof.
  destruct final_parts as (_ & _ & S & _).
  unfold re_sub. rewrite (ws_run_fixed true None x S). apply final_strip.
Qed.

(** Lines 398-433 change nothing. *)
Lemma final_clean : clean charref_sub config x = x.
Proof.
  destruct final_parts as (A & K & S & P & B & F & M & R & _).
  unfold clean, html_unescape. rewrite A.
  rewrite (fold_left_fixed (fun d phrase => re_sub (m_literal_ci phrase []) d)
             leakage_phrases x)
    by (intros a I; apply re_sub_no_match; auto).
  rewrite final_collapse.
  assert (Q : re_sub m_possessive x = x).
  { apply re_sub_no_match.
    apply (re_search_from_clean m_possessive (fun c => Ascii.eqb c "'")).
    - apply m_possessive_needs_apostrophe.
    - now apply char_in_forallb. }
  rewrite Q.
  assert (Q' : replace "'" [] x = x).
  { apply re_sub_no_match.
    apply (re_search_from_clean _ (fun c => Ascii.eqb c "'")).
    - apply (m_literal_needs_head "'" []).
    - now apply char_in_forallb. }
  rewrite Q', final_collapse.
  rewrite (fold_left_fixed (fun d name => re_sub (m_whole_word_ci name) d) _ x)
    by (intros a I; apply re_sub_no_match; apply B; now apply sorted_by_len_desc_In in I).
  assert (Q2 : re_sub m_forbidden x = x).
  { apply re_sub_no_match.
    apply (re_search_from_clean m_forbidden forbidden_char); auto.
    apply m_forbidden_needs_forbidden. }
  rewrite Q2.
  rewrite (fold_left_fixed (fun d pat => strip (re_sub pat d)) DOC_META_PATTERNS x)
    by (intros a I; rewrite re_sub_no_match by auto; apply final_strip).
  rewrite (re_sub_no_match _ _ R).
  rewrite re_sub_no_match by (apply (ws_run2_absent true); exact S).
  destruct final_ends as [c [l [C [L [_ [_ [Ec [El _]]]]]]]].
  now apply (strip_by_fixed (char_in " ,;:-") x c l).
Qed.

Lemma final_truncate : truncate x = x.
Proof.
  destruct final_parts as (_ & _ & _ & _ & _ & _ & _ & _ & _ & _ & L & _).
  unfold truncate. destruct (160 <? length x) eqn:E; auto.
  apply Nat.ltb_lt in E. lia.
Qed.

Lemma final_finish : finish x = capitalize_first x.
Proof.
  destruct final_parts as (_ & _ & S & _ & _ & _ & _ & _ & _ & _ & _ & W).
  destruct final_ends as [c [l [C [L [_ [_ [_ [_ El]]]]]]]].
  unfold finish, rstrip_chars.
  rewrite (rstrip_by_fixed (char_in " ,;:-.") x l L El).
  rewrite (pop_stopwords_fixed _ W), (join_split_ws_fixed x S).
  change (lit ".") with ["."%char].
  assert (E : Ascii.eqb "." l = false).
  { destruct (Ascii.eqb "." l) eqn:E; auto.
    apply Ascii.eqb_eq in E. subst l. discriminate. }
  rewrite (ends_with_char "." x l L E). reflexivity.
Qed.

(** On a text in final form the sanitizer capitalizes the first character
    and does nothing else. *)
Lemma final_sanitize :
  sanitize_and_finalize charref_sub x config = capitalize_first x.
Proof.
  unfold sanitize_and_finalize. rewrite final_clean.
  destruct final_parts as (_ & _ & _ & _ & _ & _ & _ & _ & [c [t [E _]]] & _).
  pose proof final_truncate as T. pose proof final_finish as Fi.
  rewrite E in T, Fi |- *. cbv iota beta. rewrite T. exact Fi.
Qed.

End FinalForm.

(** *** Final form does not depend on the first capital *)

(** A pattern that reads the first character of the text, and the
    character before a match, only up to case. *)
Definition cap_stable (m : matcher) : Prop :=
  (forall c s, m (Some (upper c)) s = m (Some c) s)
  /\ (forall c t, m None (upper c :: t) = m None (c :: t)).

Lemma re_search_capitalized (m : matcher) (c : ascii) (t : str) :
  cap_stable m -> re_search m (upper c :: t) = re_search m (c :: t).
Proof.
  intros [P H]. unfold re_search. cbn [re_search_from]. rewrite H.
  destruct (m None (c :: t)); auto.
  destruct t as [|d t]; cbn [re_search_from]; now rewrite P.
Qed.

Lemma take_lit_ci_capitalized (p : str) (c : ascii) (t : str) :
  p <> [] -> take_lit_ci p (upper c :: t) = take_lit_ci p (c :: t).
Proof.
  destruct p as [|a p]; [congruence|]. intros _. simpl. now rewrite lower_upper.
Qed.

Lemma alt_ci_capitalized {A : Type} (alts : list str) (k k' : str -> option A)
    (c : ascii) (t : str) :
  Forall (fun a => a <> []) alts -> (forall r, k r = k' r) ->
  alt_ci alts k (upper c :: t) = alt_ci alts k' (c :: t).
Proof.
  intros F K. induction F as [|a alts N F IH]; [reflexivity|].
  cbn [alt_ci]. rewrite (take_lit_ci_capitalized a c t N), IH.
  destruct (take_lit_ci a (c :: t)); [rewrite K|]; reflexivity.
Qed.

Lemma m_literal_ci_stable (phrase out : str) : cap_stable (m_literal_ci phrase out).
Proof.
  split; [reflexivity|]. intros c t. unfold m_literal_ci.
  destruct phrase as [|a p]; [reflexivity|].
  now rewrite take_lit_ci_capitalized by discriminate.
Qed.

Lemma char_before_capitalized (c : ascii) (n : nat) (s : str) :
  is_word_opt (char_before (Some (upper c)) n s) = is_word_opt (char_before (Some c) n s).
Proof.
  destruct n as [|n]; destruct s as [|d s]; simpl; auto using is_word_upper.
Qed.

Lemma m_whole_word_ci_stable (name : str) : cap_stable (m_whole_word_ci name).
Proof.
  split.
  - intros c s. unfold m_whole_word_ci, word_boundary.
    cbn [is_word_opt]. rewrite is_word_upper, char_before_capitalized. reflexivity.
  - intros c t. unfold m_whole_word_ci, word_boundary.
    cbn [hd_error is_word_opt]. rewrite is_word_upper.
    destruct name as [|a name].
    + cbn [take_lit_ci length char_before hd_error is_word_opt].
      now rewrite is_word_upper.
    + rewrite take_lit_ci_capitalized by discriminate.
      cbn [length char_before]. now rewrite char_before_capitalized.
Qed.

Lemma spaces1_word (c : ascii) (t : str) : is_space c = false -> spaces1 (c :: t) = None.
Proof. intros S. unfold spaces1. cbn [span]. now rewrite S. Qed.

Lemma spaces0_word (c : ascii) (t : str) : is_space c = false -> spaces0 (c :: t) = c :: t.
Proof. intros S. unfold spaces0. cbn [span]. now rewrite S. Qed.

Lemma doc_nouns_words : Forall (fun a : str => a <> []) doc_nouns.
Proof. repeat constructor; discriminate. Qed.

Lemma m_doc_meta_verb_stable (article : str) : cap_stable (m_doc_meta_verb article).
Proof.
  split; [reflexivity|]. intros c t.
  destruct (is_space c) eqn:S; [now rewrite upper_of_space|].
  unfold m_doc_meta_verb.
  rewrite !spaces0_word by (rewrite ?is_space_upper; assumption).
  destruct article as [|a article].
  - cbn [take_lit_ci]. rewrite !spaces1_word by (rewrite ?is_space_upper; assumption).
    reflexivity.
  - rewrite take_lit_ci_capitalized by discriminate. reflexivity.
Qed.

Lemma m_doc_meta_in_stable : cap_stable m_doc_meta_in.
Proof.
  split; [reflexivity|]. intros c t.
  destruct (is_space c) eqn:S; [now rewrite upper_of_space|].
  unfold m_doc_meta_in.
  rewrite !spaces0_word by (rewrite ?is_space_upper; assumption).
  rewrite take_lit_ci_capitalized by discriminate. reflexivity.
Qed.

Lemma m_leading_prep_stable : cap_stable m_leading_prep.
Proof.
  split; [reflexivity|]. intros c t. unfold m_leading_prep.
  apply alt_ci_capitalized; [|reflexivity].
  repeat constructor; discriminate.
Qed.

Lemma doc_meta_patterns_stable (pat : matcher) :
  In pat DOC_META_PATTERNS -> cap_stable pat.
Proof.
  intros [<-|[<-|[<-|[]]]];
    auto using m_doc_meta_verb_stable, m_doc_meta_in_stable.
Qed.

Lemma forallb_eq_In {A : Type} (f g : A -> bool) (l : list A) :
  (forall a, In a l -> f a = g a) -> forallb f l = forallb g l.
Proof.
  induction l as [|a l IH]; simpl; auto.
  intros H. rewrite (H a), IH; auto.
Qed.

Lemma split_ws_capitalized (c : ascii) (t : str) :
  is_space c = false ->
  split_ws (upper c :: t)
  = match split_ws (c :: t) with
    | w :: ws => capitalize_first w :: ws
    | [] => []
    end.
Proof.
  intros S. cbn [split_ws]. rewrite is_space_upper, S.
  destruct t as [|d t]; [reflexivity|].
  destruct (is_space d); [reflexivity|].
  destruct (split_ws (d :: t)); reflexivity.
Qed.

Lemma is_trailing_stopword_capitalized (w : str) :
  is_trailing_stopword (capitalize_first w) = is_trailing_stopword w.
Proof.
  destruct w as [|c w]; [reflexivity|].
  unfold is_trailing_stopword, str_lower. cbn [capitalize_first map].
  now rewrite lower_upper.
Qed.

Lemma last_word_capitalized (c : ascii) (t : str) :
  is_trailing_stopword (last (split_ws (upper c :: t)) [])
  = is_trailing_stopword (last (split_ws (c :: t)) []).
Proof.
  destruct (is_space c) eqn:S; [now rewrite upper_of_space|].
  rewrite split_ws_capitalized by assumption.
  destruct (split_ws (c :: t)) as [|w [|v ws]]; try reflexivity.
  cbn [last]. apply is_trailing_stopword_capitalized.
Qed.

(** Being in final form is a matter of the text up to the case of its
    first character. *)
Lemma final_form_capitalized (config : ScriptConfig) (x : str) :
  final_form config (capitalize_first x) = final_form config x.
Proof.
  destruct x as [|c t]; [reflexivity|]. cbn [capitalize_first].
  unfold final_form.
  apply (f_equal2 andb); [|f_equal; apply last_word_capitalized].
  apply (f_equal2 andb); [|reflexivity].
  apply (f_equal2 andb);
    [|rewrite !final_char_cons; destruct (final_char t);
      [reflexivity | now rewrite end_char_upper]].
  apply (f_equal2 andb); [|f_equal; apply edge_char_upper].
  apply (f_equal2 andb);
    [|f_equal; apply re_search_capitalized, m_leading_prep_stable].
  apply (f_equal2 andb);
    [|apply forallb_eq_In; intros a I; f_equal;
      apply re_search_capitalized, doc_meta_patterns_stable, I].
  apply (f_equal2 andb); [|cbn [forallb]; now rewrite forbidden_char_upper].
  apply (f_equal2 andb);
    [|apply forallb_eq_In; intros a _; f_equal;
      apply re_search_capitalized, m_whole_word_ci_stable].
  apply (f_equal2 andb);
    [|f_equal; unfold char_in; cbn [existsb];
      now rewrite !(Ascii.eqb_sym "'"), apostrophe_eqb_upper].
  apply (f_equal2 andb);
    [|unfold single_spaced; cbn [single_spaced_from];
      now rewrite is_space_upper, space_eqb_upper].
  apply (f_equal2 andb).
  - f_equal. unfold char_in. cbn [existsb].
    now rewrite !(Ascii.eqb_sym "&"), amp_eqb_upper.
  - apply forallb_eq_In. intros a _. f_equal.
    apply re_search_capitalized, m_literal_ci_stable.
Qed.

(** *** Idempotence *)

(** Compliance in the words of the specification: no banned literal, no
    forbidden punctuation, at most 160 characters, no stop-word and no
    period at the end. *)
Definition compliant_as_claimed (config : ScriptConfig) (x : str) : bool :=
  forallb (fun name => negb (re_search (m_whole_word_ci name) x))
    (BANNED_LITERALS config)
  && forallb (fun c => negb (forbidden_char c)) x
  && (length x <=? 160)
  && negb (is_trailing_stopword (last (split_ws x) []))
  && negb (ends_with "." x).

Lemma final_form_compliant (config : ScriptConfig) (x : str) :
  final_form config x = true -> compliant_as_claimed config x = true.
Proof.
  intros F. pose proof (final_parts config x F) as P.
  destruct P as (_ & _ & _ & _ & _ & _ & _ & _ & _ & [l [L E]] & _).
  unfold final_form in F. repeat rewrite andb_true_iff in F.
  destruct F as [[[[[[[[[[[F1 F2] F3] F4] F5] F6] F7] F8] F9] F10] F11] F12].
  unfold compliant_as_claimed. rewrite F5, F6, F11, F12. cbn [andb].
  change (lit ".") with ["."%char].
  rewrite (ends_with_char "." x l L); [reflexivity|].
  destruct (Ascii.eqb "." l) eqn:D; auto.
  apply Ascii.eqb_eq in D. subst l. discriminate.
Qed.

Lemma upper_in_alphabet (c : ascii) : in_alphabet (upper c) = in_alphabet c.
Proof. by_character c. Qed.

Lemma capitalize_first_within_alphabet (x : str) :
  within_alphabet (capitalize_first x) = within_alphabet x.
Proof.
  destruct x as [|c t]; [reflexivity|].
  unfold within_alphabet. cbn [capitalize_first forallb].
  now rewrite upper_in_alphabet.
Qed.

(** C3, as amended.  For every text within the alphabet and in final form
    ([final_form]: compliant in the words of the specification, and
    moreover free of character references, apostrophes and leaked phrases,
    single-spaced, without a lead-in or a leading preposition, and without
    stray punctuation at either end), the banned literals being within the
    alphabet too, the sanitizer only capitalizes the first character, what
    it returns is again within the alphabet, and applying it twice gives
    what applying it once gives, whatever the table of character
    references.  The two conditions on the alphabet keep the statement to
    the texts on which [capitalize_first] is line 445 of the script and the
    patterns of the banned literals are those of line 429: the upper case
    of a character beyond the alphabet can be two characters, which the
    next application may cut, and a literal beyond it can match letters
    when case is ignored. *)
Theorem finalize_idempotent_on_final_form :
  forall (charref_sub : str -> str) (config : ScriptConfig) (x : str),
    within_alphabet x = true ->
    forallb within_alphabet (BANNED_LITERALS config) = true ->
    final_form config x = true ->
    compliant_as_claimed config x = true
    /\ sanitize_and_finalize charref_sub x config = capitalize_first x
    /\ within_alphabet (sanitize_and_finalize charref_sub x config) = true
    /\ sanitize_and_finalize charref_sub
         (sanitize_and_finalize charref_sub x config) config
       = sanitize_and_finalize charref_sub x config.
Proof.
  intros charref_sub config x A _ F.
  split; [now apply final_form_compliant|].
  rewrite (final_sanitize charref_sub config x F). split; [reflexivity|].
  split; [now rewrite capitalize_first_within_alphabet|].
  rewrite final_sanitize by (now rewrite final_form_capitalized).
  destruct x as [|c t]; [reflexivity|].
  cbn [capitalize_first]. now rewrite upper_idempotent.
Qed.

Definition ban_suse : ScriptConfig := {| BANNED_LITERALS := [lit "SUSE"] |}.

(** C3, as amended, on a sentence in final form. *)
Lemma finalize_idempotent_witness :
  sanitize_and_finalize (fun s => s)
    (sanitize_and_finalize (fun s => s) "configure the firewall for your network" ban_suse)
    ban_suse
  = sanitize_and_finalize (fun s => s) "configure the firewall for your network" ban_suse.
Proof.
  apply (finalize_idempotent_on_final_form (fun s => s) ban_suse
           (lit "configure the firewall for your network"));
    vm_compute; reflexivity.
Defined.

(** C3, as stated, fails: the draft is compliant in the words of the
    specification, the first application strips [by], the second strips
    [Using]. *)
Lemma leading_prepositions_break_idempotence :
  compliant_as_claimed no_banned "by using the tool" = true
  /\ sanitize_and_finalize (fun s => s) "by using the tool" no_banned
     = lit "Using the tool"
  /\ sanitize_and_finalize (fun s => s) "Using the tool" no_banned = lit "The tool".
Proof. repeat split; vm_compute; reflexivity. Qed.

(** Each of the other conditions of [final_form] is needed as well: a
    second lead-in, a leaked phrase that only forms when white space is
    collapsed, stray punctuation before a preposition, and an apostrophe
    inside a stop-word are all compliant in the words of the specification,
    and the second application changes the result of the first. *)
Remark other_obstacles_to_idempotence :
  let f := fun d => sanitize_and_finalize (fun s => s) d no_banned in
  map (fun d => (compliant_as_claimed no_banned d, f d, f (f d)))
    (lits [ "In this guide in this section you learn"; "Output  only the data";
            "- by hand"; "setup.. a'nd" ])
  = [ (true, lit "In this section you learn", lit "You learn");
      (true, lit "Output only the data", lit "The data");
      (true, lit "By hand", lit "Hand");
      (true, lit "Setup.", lit "Setup") ].
Proof. vm_compute. reflexivity. Qed.

(* ================================================================== *)
(** ** The length of an accepted description *)

Lemma drop_while_length {A : Type} (p : A -> bool) (l : list A) :
  length (drop_while p l) <= length l.
Proof.
  induction l as [|a l IH]; simpl; auto. destruct (p a); simpl; lia.
Qed.

Lemma drop_while_suffix {A : Type} (p : A -> bool) (l : list A) :
  exists d, l = d ++ drop_while p l.
Proof.
  induction l as [|a l [d IH]]; simpl.
  - exists []. reflexivity.
  - destruct (p a).
    + exists (a :: d). simpl. now f_equal.
    + exists []. reflexivity.
Qed.

Lemma rstrip_by_length (p : ascii -> bool) (s : str) :
  length (rstrip_by p s) <= length s.
Proof.
  unfold rstrip_by. rewrite length_rev.
  rewrite <- (length_rev s). apply drop_while_length.
Qed.

Lemma join_split_ws_length (s : str) :
  length (join " " (split_ws s)) <= length (drop_while is_space s).
Proof.
  induction s as [|c s IH]; [reflexivity|].
  cbn [split_ws drop_while]. destruct (is_space c) eqn:S; [exact IH|].
  destruct s as [|d s]; [reflexivity|].
  cbn [drop_while] in IH. destruct (is_space d) eqn:D.
  - cbn [split_ws] in *. rewrite D in *.
    pose proof (drop_while_length is_space s) as L.
    destruct (split_ws s) as [|w ws].
    + cbn [join length]. lia.
    + rewrite join_cons_word, !length_app. cbn [length lit list_ascii_of_string] in *.
      lia.
  - destruct (split_ws (d :: s)) as [|w ws].
    + cbn [join length]. lia.
    + rewrite join_cons_char. cbn [length] in *. lia.
Qed.

Lemma join_prefix_length (sep : str) (a b : list str) :
  length (join sep a) <= length (join sep (a ++ b)).
Proof.
  induction a as [|w a IH]; [simpl; lia|].
  destruct a as [|v a].
  - destruct b as [|u b]; [simpl; lia|].
    cbn [app]. rewrite join_cons_word, length_app. cbn [join]. lia.
  - cbn [app] in *. rewrite !join_cons_word, !length_app. lia.
Qed.

Lemma pop_stopwords_prefix (words : list str) :
  exists dropped, words = pop_stopwords words ++ dropped.
Proof.
  unfold pop_stopwords.
  destruct (drop_while_suffix is_trailing_stopword (rev words)) as [d E].
  exists (rev d). rewrite <- rev_app_distr, <- E. symmetry. apply rev_involutive.
Qed.

Lemma removelast_length {A : Type} (l : list A) : length (removelast l) <= length l.
Proof.
  induction l as [|a l IH]; [reflexivity|].
  cbn [removelast]. destruct l; simpl in *; lia.
Qed.

(** The capital letter of a character of the alphabet is one character. *)
Lemma capitalize_first_length (s : str) : length (capitalize_first s) = length s.
Proof. destruct s; reflexivity. Qed.

(** Lines 439-446 never lengthen a text whose first character, once the
    stop-words are gone, is of the alphabet. *)
Lemma finish_length (desc : str) : length (finish desc) <= length desc.
Proof.
  unfold finish. rewrite capitalize_first_length.
  set (words := split_ws (rstrip_chars " ,;:-." desc)).
  assert (J : length (join " " (pop_stopwords words)) <= length desc).
  { destruct (pop_stopwords_prefix words) as [d E].
    pose proof (join_prefix_length " " (pop_stopwords words) d) as P.
    rewrite <- E in P. unfold words in P.
    pose proof (join_split_ws_length (rstrip_chars " ,;:-." desc)) as Q.
    pose proof (drop_while_length is_space (rstrip_chars " ,;:-." desc)) as R.
    pose proof (rstrip_by_length (char_in " ,;:-.") desc) as T.
    unfold rstrip_chars in *. unfold words.
    repeat (eapply Nat.le_trans; [eassumption|]). apply Nat.le_refl. }
  destruct (ends_with "." (join " " (pop_stopwords words))); auto.
  pose proof (removelast_length (join " " (pop_stopwords words))). lia.
Qed.

Lemma rfind_char_bound (c : ascii) (s : str) (i : nat) :
  rfind_char c s = Some i -> i < length s.
Proof.
  revert i. induction s as [|d s IH]; intros i; simpl; [discriminate|].
  destruct (rfind_char c s) as [j|].
  - intros E. injection E as <-. specialize (IH j eq_refl). lia.
  - destruct (Ascii.eqb d c); [|discriminate]. intros E. injection E as <-. lia.
Qed.

Lemma rfind_char_absent (c : ascii) (s : str) :
  rfind_char c s = None -> ~ In c s.
Proof.
  induction s as [|d s IH]; simpl; [tauto|].
  destruct (rfind_char c s); [discriminate|].
  destruct (Ascii.eqb d c) eqn:E; [discriminate|].
  apply Ascii.eqb_neq in E. intros _ [F|F]; [congruence | now apply IH].
Qed.

(** The cut keeps at most 161 characters, and at most 160 when the first
    161 hold a space. *)
Lemma truncate_length (desc : str) :
  length (truncate desc) <= 161
  /\ (In " "%char (firstn 161 desc) -> length (truncate desc) <= 160).
Proof.
  unfold truncate. destruct (160 <? length desc) eqn:E.
  - pose proof (firstn_le_length 161 desc) as L.
    assert (L' : length (firstn 161 desc) <= 161) by (rewrite length_firstn; lia).
    destruct (rfind_char " " (firstn 161 desc)) as [i|] eqn:R.
    + apply rfind_char_bound in R. rewrite length_firstn. split; lia.
    + apply rfind_char_absent in R. split; [exact L' | tauto].
  - apply Nat.ltb_ge in E. split; lia.
Qed.

(** An answer within the alphabet and without an ampersand:
    [html.unescape] returns it as it is, the steps of the pipeline put no
    character beyond the alphabet into it, and so the upper case of the
    first character of what is left (line 445) is one character. *)
Definition plain_answer (s : str) : bool :=
  within_alphabet s && negb (char_in s "&").

(** What holds of C1 for every run: an accepted description has at least
    100 characters, whatever the language model answers, and at most 161
    when the answers of the model are plain; and on a plain draft the
    sanitizer returns at most 160 characters whenever the text it has
    cleaned is no longer than that or holds a space among its first 161
    characters.  (With a first character beyond the alphabet line 445 can
    add to the 161 characters that the cut leaves.) *)
Lemma accepted_length_bounds :
  (forall charref_sub set_order call_ollama config path brands payload desc status,
     accepted_description charref_sub set_order call_ollama config path brands payload
     = Some (desc, status) ->
     100 <= length desc
     /\ ((forall n p, plain_answer (call_ollama n p) = true) -> length desc <= 161))
  /\ (forall charref_sub config draft,
        plain_answer draft = true ->
        length (clean charref_sub config draft) <= 160
        \/ In " "%char (firstn 161 (clean charref_sub config draft)) ->
        length (sanitize_and_finalize charref_sub draft config) <= 160).
Proof.
  assert (B : forall charref_sub config draft,
             length (sanitize_and_finalize charref_sub draft config) <= 161).
  { intros. unfold sanitize_and_finalize.
    destruct (clean charref_sub config draft) as [|c t]; [simpl; lia|].
    pose proof (finish_length (truncate (c :: t))).
    pose proof (truncate_length (c :: t)). lia. }
  assert (G : forall desc, too_short desc = false -> 100 <= length desc).
  { intros [|c t]; simpl; [discriminate|]. intros H. apply Nat.ltb_ge in H.
    simpl in H. lia. }
  split.
  - intros charref_sub set_order call_ollama config path brands payload desc status.
    unfold accepted_description, finalize_draft.
    destruct (post_process_description set_order
                (call_ollama 0 (PROMPT_TMPL (BANNED_LITERALS config) payload))
                path brands) as [d1 s1].
    destruct (too_short (sanitize_and_finalize charref_sub
                (validate_and_correct_grammar call_ollama 1 d1) config)) eqn:T1.
    + destruct (post_process_description set_order
                  (call_ollama 2 (PROMPT_TMPL_RETRY (BANNED_LITERALS config) payload))
                  path brands) as [d2 s2].
      destruct (too_short (sanitize_and_finalize charref_sub
                  (validate_and_correct_grammar call_ollama 3 d2) config)) eqn:T2;
        [discriminate|].
      intros E. injection E as <- _. split; [now apply G | intros _; apply B].
    + intros E. injection E as <- _. split; [now apply G | intros _; apply B].
  - intros charref_sub config draft _ H. unfold sanitize_and_finalize.
    destruct (clean charref_sub config draft) as [|c t]; [simpl; lia|].
    pose proof (finish_length (truncate (c :: t))) as F.
    pose proof (truncate_length (c :: t)) as [T1 T2].
    destruct H as [H|H]; [|specialize (T2 H); lia].
    unfold truncate in *. destruct (160 <? length (c :: t)) eqn:E; [|lia].
    apply Nat.ltb_lt in E. lia.
Qed.

(* ================================================================== *)
(** ** White space in a finalised description *)

(** A word of [split]: not empty, and free of white space. *)
Definition token (w : str) : Prop :=
  w <> [] /\ forallb (fun c => negb (is_space c)) w = true.

Lemma split_ws_tokens (s : str) : Forall token (split_ws s).
Proof.
  assert (one : forall c, is_space c = false -> token [c]).
  { intros c S. split; [discriminate|]. cbn [forallb]. now rewrite S. }
  induction s as [|c s IH]; [constructor|].
  cbn [split_ws]. destruct (is_space c) eqn:S; [exact IH|].
  destruct s as [|d s]; [now repeat constructor; apply one|].
  destruct (is_space d) eqn:D; [constructor; [now apply one | exact IH]|].
  destruct (split_ws (d :: s)) as [|w ws]; [now repeat constructor; apply one|].
  inversion IH as [|? ? [_ W] Ws]; subst. constructor; [|exact Ws].
  split; [discriminate|]. cbn [forallb]. now rewrite S, W.
Qed.

Lemma pop_stopwords_tokens (words : list str) :
  Forall token words -> Forall token (pop_stopwords words).
Proof.
  intros F. destruct (pop_stopwords_prefix words) as [d E].
  rewrite E in F. apply Forall_app in F. exact (proj1 F).
Qed.

Lemma single_spaced_token (b : bool) (w rest : str) :
  token w -> single_spaced_from b (w ++ rest) = single_spaced_from false rest.
Proof.
  intros [N W]. destruct w as [|c w]; [congruence|]. clear N.
  revert b c W. induction w as [|d w IH]; intros b c W;
    cbn [forallb] in W; apply andb_true_iff in W as [C W];
    apply negb_true_iff in C; cbn [app single_spaced_from]; rewrite C.
  - reflexivity.
  - apply (IH false d W).
Qed.

Lemma join_tokens_single_spaced (b : bool) (ws : list str) :
  Forall token ws -> ws <> [] -> single_spaced_from b (join " " ws) = true.
Proof.
  intros F. revert b. induction F as [|w ws W F IH]; intros b N; [congruence|].
  destruct ws as [|v ws].
  - cbn [join]. rewrite <- (app_nil_r w), (single_spaced_token b w [] W). reflexivity.
  - rewrite join_cons_word, (single_spaced_token b w _ W).
    change (single_spaced_from true (join " " (v :: ws)) = true).
    apply IH. discriminate.
Qed.

(** Taking the last character off a text in final white-space form leaves
    nothing, or a text in that form, or such a text and one space. *)
Lemma single_spaced_removelast (b : bool) (y : str) (c : ascii) :
  single_spaced_from b (y ++ [c]) = true ->
  y = [] \/ single_spaced_from b y = true
  \/ exists z : str, y = z ++ lit " " /\ single_spaced_from b z = true.
Proof.
  revert b. induction y as [|a y IH]; intros b H; [now left|]. right.
  cbn [app single_spaced_from] in H. destruct (is_space a) eqn:A.
  - apply andb_true_iff in H as [H1 H]. apply andb_true_iff in H1 as [E B].
    apply Ascii.eqb_eq in E. subst a. apply negb_true_iff in B. subst b.
    destruct (IH true H) as [->|[S|[z [-> S]]]].
    + right. exists []. split; reflexivity.
    + left. exact S.
    + right. exists (" "%char :: z). split; [reflexivity | exact S].
  - destruct (IH false H) as [->|[S|[z [-> S]]]].
    + left. cbn [single_spaced_from]. now rewrite A.
    + left. cbn [single_spaced_from]. now rewrite A.
    + right. exists (a :: z). split; [reflexivity|].
      cbn [single_spaced_from]. now rewrite A.
Qed.

Lemma single_spaced_capitalized (y : str) :
  single_spaced (capitalize_first y) = single_spaced y.
Proof.
  destruct y as [|c y]; [reflexivity|].
  unfold single_spaced. cbn [capitalize_first single_spaced_from].
  now rewrite is_space_upper, space_eqb_upper.
Qed.

Lemma ends_with_cases (p s : str) :
  ends_with p s = true -> exists y, s = y ++ p.
Proof.
  unfold ends_with. intros H. apply starts_with_spec in H as [r E].
  exists (rev r). rewrite <- (rev_involutive s), E, rev_app_distr.
  now rewrite rev_involutive.
Qed.

(** What holds of C9 for every input: lines 439-446 return the empty text,
    or a text that neither begins nor ends with white space and whose only
    white space is single spaces between words, or such a text followed by
    one space.  The last case is the one a period standing alone as the
    final word produces. *)
Lemma finish_white_space (desc : str) :
  finish desc = []
  \/ single_spaced (finish desc) = true
  \/ exists y : str, finish desc = y ++ lit " " /\ single_spaced y = true.
Proof.
  unfold finish.
  pose proof (pop_stopwords_tokens _ (split_ws_tokens (rstrip_chars " ,;:-." desc))) as T.
  destruct (pop_stopwords (split_ws (rstrip_chars " ,;:-." desc))) as [|w ws];
    [now left|].
  assert (J : single_spaced (join " " (w :: ws)) = true)
    by (apply join_tokens_single_spaced; [exact T | discriminate]).
  destruct (ends_with "." (join " " (w :: ws))) eqn:E.
  - apply ends_with_cases in E as [y E].
    change (lit ".") with ["."%char] in E. rewrite E in J |- *.
    rewrite removelast_last.
    destruct (single_spaced_removelast true y "." J) as [->|[S|[z [-> S]]]].
    + now left.
    + right. left. now rewrite single_spaced_capitalized.
    + right. right. exists (capitalize_first z). split.
      * destruct z; [discriminate S | reflexivity].
      * now rewrite single_spaced_capitalized.
  - right. left. now rewrite single_spaced_capitalized.
Qed.

(** The same of the whole sanitizer, whatever the draft and the
    configuration. *)
Lemma sanitize_white_space (charref_sub : str -> str) (draft : str)
      (config : ScriptConfig) :
  let r := sanitize_and_finalize charref_sub draft config in
  r = [] \/ single_spaced r = true
  \/ exists y : str, r = y ++ lit " " /\ single_spaced y = true.
Proof.
  unfold sanitize_and_finalize.
  destruct (clean charref_sub config draft) as [|c t]; [now left|].
  apply finish_white_space.
Qed.

(* ================================================================== *)
(** * Further properties of the code *)

(** ** What a substitution writes *)

Section DriverInvariant.

Variable P : ascii -> Prop.
Variable m : matcher.

(** A substitution whose replacements are made of characters with [P]
    keeps [P] on a text that has it. *)
Lemma re_sub_from_Forall (s : str) :
  (forall prev t out n, Forall P t -> m prev t = Some (out, n) -> Forall P out) ->
  forall prev k, Forall P s -> Forall P (re_sub_from m prev k s).
Proof.
  intros out_ok. induction s as [|c s IH]; intros prev k F.
  - destruct k; cbn [re_sub_from]; [|constructor].
    destruct (m prev []) as [[out n]|] eqn:E; [|constructor].
    now apply (out_ok prev [] out n).
  - pose proof F as F'. inversion F as [|? ? Pc Ps]; subst.
    destruct k as [|k]; cbn [re_sub_from]; [|now apply IH].
    destruct (m prev (c :: s)) as [[out [|n]]|] eqn:E.
    + apply Forall_app. split; [now apply (out_ok prev (c :: s) out 0)|].
      constructor; [exact Pc | now apply IH].
    + apply Forall_app. split; [now apply (out_ok prev (c :: s) out (S n))|].
      now apply IH.
    + constructor; [exact Pc | now apply IH].
Qed.

End DriverInvariant.

(** A matcher that writes nothing, or one space. *)
Definition quiet (m : matcher) : Prop :=
  forall prev s out n, m prev s = Some (out, n) -> out = [] \/ out = lit " ".

Lemma re_sub_quiet (P : ascii -> Prop) (m : matcher) (s : str) :
  quiet m -> P " "%char -> Forall P s -> Forall P (re_sub m s).
Proof.
  intros Q Sp F. apply re_sub_from_Forall; [|exact F].
  intros prev t out n _ E. destruct (Q prev t out n E) as [->| ->].
  - constructor.
  - repeat constructor. exact Sp.
Qed.

Lemma alt_ci_inv {A : Type} (alts : list str) (k : str -> option A) (s : str) (x : A) :
  alt_ci alts k s = Some x -> exists r, k r = Some x.
Proof.
  induction alts as [|a alts IH]; cbn [alt_ci]; [discriminate|].
  destruct (take_lit_ci a s) as [r|]; [|exact IH].
  destruct (k r) as [y|] eqn:K; [|exact IH].
  intros E. injection E as <-. now exists r.
Qed.

Lemma quiet_ws_run : quiet m_ws_run.
Proof.
  intros prev s out n. unfold m_ws_run. destruct (spaces1 s); [|discriminate].
  intros E. injection E as <- _. now right.
Qed.

Lemma quiet_ws_run2 : quiet m_ws_run2.
Proof.
  intros prev s out n. unfold m_ws_run2. destruct (spaces1 s) as [r|]; [|discriminate].
  destruct (2 <=? consumed s r); [|discriminate].
  intros E. injection E as <- _. now right.
Qed.

Lemma quiet_whole_word (name : str) : quiet (m_whole_word_ci name).
Proof.
  intros prev s out n. unfold m_whole_word_ci.
  destruct (word_boundary prev s); [|discriminate].
  destruct (take_lit_ci name s) as [r|]; [|discriminate].
  destruct (word_boundary _ r); [|discriminate].
  intros E. injection E as <- _. now left.
Qed.

Lemma quiet_literal_ci (phrase : str) : quiet (m_literal_ci phrase []).
Proof.
  intros prev s out n. unfold m_literal_ci.
  destruct (take_lit_ci phrase s); [|discriminate].
  intros E. injection E as <- _. now left.
Qed.

Lemma quiet_doc_meta (pat : matcher) : In pat DOC_META_PATTERNS -> quiet pat.
Proof.
  assert (V : forall article, quiet (m_doc_meta_verb article)).
  { intros article prev s out n. unfold m_doc_meta_verb.
    destruct prev; [discriminate|].
    destruct (take_lit_ci article (spaces0 s)) as [r|]; [|discriminate].
    destruct (spaces1 r) as [r1|]; [|discriminate].
    intros E. apply alt_ci_inv in E as [r2 E].
    destruct (spaces1 r2) as [r3|]; [|discriminate].
    apply alt_ci_inv in E as [r4 E].
    destruct (spaces1 r4); [|discriminate]. injection E as <- _. now left. }
  intros [<-|[<-|[<-|[]]]]; [apply V| |apply V].
  intros prev s out n. unfold m_doc_meta_in.
  destruct prev; [discriminate|].
  destruct (take_lit_ci "In" (spaces0 s)) as [r|]; [|discriminate].
  destruct (spaces1 r) as [r1|]; [|discriminate].
  destruct (take_lit_ci "this" r1) as [r2|]; [|discriminate].
  destruct (spaces1 r2) as [r3|]; [|discriminate].
  intros E. apply alt_ci_inv in E as [r4 E].
  destruct (spaces1 r4); [|discriminate]. injection E as <- _. now left.
Qed.

Lemma quiet_leading_prep : quiet m_leading_prep.
Proof.
  intros prev s out n. unfold m_leading_prep. destruct prev; [discriminate|].
  intros E. apply alt_ci_inv in E as [r E].
  destruct (spaces1 r); [|discriminate]. injection E as <- _. now left.
Qed.

(** ** Characters the sanitizer never returns *)

Lemma drop_while_Forall {A : Type} (P : A -> Prop) (p : A -> bool) (l : list A) :
  Forall P l -> Forall P (drop_while p l).
Proof.
  induction 1 as [|a l Pa F IH]; cbn [drop_while]; [constructor|].
  destruct (p a); [exact IH | now constructor].
Qed.

Lemma strip_by_Forall (P : ascii -> Prop) (p : ascii -> bool) (s : str) :
  Forall P s -> Forall P (strip_by p s).
Proof.
  intros F. unfold strip_by, rstrip_by, lstrip_by.
  apply Forall_rev, drop_while_Forall, Forall_rev, drop_while_Forall, F.
Qed.

Lemma rstrip_by_Forall (P : ascii -> Prop) (p : ascii -> bool) (s : str) :
  Forall P s -> Forall P (rstrip_by p s).
Proof.
  intros F. unfold rstrip_by. apply Forall_rev, drop_while_Forall, Forall_rev, F.
Qed.

Lemma firstn_Forall {A : Type} (P : A -> Prop) (n : nat) (l : list A) :
  Forall P l -> Forall P (firstn n l).
Proof.
  intros F. rewrite <- (firstn_skipn n l) in F. now apply Forall_app in F.
Qed.

Lemma removelast_Forall {A : Type} (P : A -> Prop) (l : list A) :
  Forall P l -> Forall P (removelast l).
Proof.
  induction 1 as [|a l Pa F IH]; cbn [removelast]; [constructor|].
  destruct l; [constructor | now constructor].
Qed.

Lemma split_ws_Forall (P : ascii -> Prop) (s : str) :
  Forall P s -> Forall (Forall P) (split_ws s).
Proof.
  induction 1 as [|c s Pc F IH]; [constructor|].
  cbn [split_ws]. destruct (is_space c); [exact IH|].
  destruct s as [|d s]; [now repeat constructor|].
  destruct (is_space d); [constructor; [now repeat constructor | exact IH]|].
  destruct (split_ws (d :: s)) as [|w ws]; [now repeat constructor|].
  inversion IH; subst. constructor; [now constructor | assumption].
Qed.

Lemma join_Forall (P : ascii -> Prop) (sep : str) (words : list str) :
  Forall P sep -> Forall (Forall P) words -> Forall P (join sep words).
Proof.
  intros S. induction 1 as [|w ws Pw F IH]; [constructor|].
  destruct ws as [|v ws]; [exact Pw|].
  rewrite join_cons_word. now repeat (apply Forall_app; split).
Qed.

Lemma pop_stopwords_Forall (P : str -> Prop) (words : list str) :
  Forall P words -> Forall P (pop_stopwords words).
Proof.
  intros F. destruct (pop_stopwords_prefix words) as [d E].
  rewrite E in F. now apply Forall_app in F.
Qed.

(** The cut and the last steps of the sanitizer add no character but the
    space, a letter's capital apart. *)
Lemma finish_truncate_Forall (P : ascii -> Prop) (desc : str) :
  P " "%char -> (forall c, P c -> P (upper c)) ->
  Forall P desc -> Forall P (finish (truncate desc)).
Proof.
  intros Sp Up F.
  assert (T : Forall P (truncate desc)).
  { unfold truncate. destruct (160 <? length desc); [|exact F].
    destruct (rfind_char " " (firstn 161 desc)); now repeat apply firstn_Forall. }
  unfold finish.
  set (joined := join " " _).
  assert (J : Forall P joined).
  { apply join_Forall; [now repeat constructor|].
    apply pop_stopwords_Forall, split_ws_Forall, rstrip_by_Forall, T. }
  assert (R : Forall P (if ends_with "." joined then removelast joined else joined))
    by (destruct (ends_with "." joined); [now apply removelast_Forall | exact J]).
  destruct (if ends_with "." joined then removelast joined else joined) as [|c t];
    [constructor|].
  inversion R; subst. constructor; auto.
Qed.

Lemma m_literal_char (a : ascii) (new : str) (prev : option ascii) (c : ascii) (s : str) :
  m_literal [a] new prev (c :: s) = if Ascii.eqb a c then Some (new, 1) else None.
Proof. unfold m_literal. cbn [take_lit]. now destruct (Ascii.eqb a c). Qed.

(** [desc.replace(a, NOTHING)] for one character deletes its occurrences. *)
Lemma replace_char_deletes (a : ascii) (s : str) :
  replace [a] [] s = filter (fun c => negb (Ascii.eqb a c)) s.
Proof.
  unfold replace, re_sub. generalize (@None ascii).
  induction s as [|c s IH]; intros prev; [reflexivity|].
  cbn [re_sub_from filter].
  rewrite m_literal_char.
  destruct (Ascii.eqb a c); cbn [negb app]; now rewrite IH.
Qed.

(** [FORBIDDEN_CHARS_RE.sub(" ", desc)] writes a space over each forbidden
    character. *)
Lemma forbidden_sub_map (s : str) :
  re_sub m_forbidden s = map (fun c => if forbidden_char c then " "%char else c) s.
Proof.
  unfold re_sub. generalize (@None ascii).
  induction s as [|c s IH]; intros prev; [reflexivity|].
  cbn [re_sub_from map].
  change (m_forbidden prev (c :: s))
    with (if forbidden_char c then Some (lit " ", 1) else None).
  destruct (forbidden_char c); cbn [app lit list_ascii_of_string]; now rewrite IH.
Qed.

Lemma fold_left_invariant {A B : Type} (Inv : A -> Prop) (f : A -> B -> A)
    (l : list B) (x : A) :
  (forall a y, In a l -> Inv y -> Inv (f y a)) -> Inv x -> Inv (fold_left f l x).
Proof.
  revert x. induction l as [|a l IH]; intros x H I; [exact I|].
  cbn [fold_left]. apply IH.
  - intros b y Hb. apply H. now right.
  - apply H; [now left | exact I].
Qed.

(** A character the sanitizer may return: none of [>], [:], [|], the double
    quote and the apostrophe. *)
Definition plain_char (c : ascii) : bool :=
  negb (forbidden_char c) && negb (Ascii.eqb "'" c).

Lemma plain_char_upper (c : ascii) : plain_char (upper c) = plain_char c.
Proof.
  unfold plain_char. rewrite forbidden_char_upper.
  now rewrite Ascii.eqb_sym, apostrophe_eqb_upper, Ascii.eqb_sym.
Qed.

(** X1.  The sanitizer never returns one of the characters [>], [:], [|],
    the double quote and the apostrophe, whatever the draft, the banned
    literals and the character references of the draft: the apostrophes are
    deleted and the four others overwritten, and no later step writes a
    character that its text does not hold, the space and a capital letter
    apart. *)
Theorem sanitized_is_plain (charref_sub : str -> str) (draft : str)
    (config : ScriptConfig) :
  forallb plain_char (sanitize_and_finalize charref_sub draft config) = true.
Proof.
  apply forallb_forall, Forall_forall.
  set (P := fun c => plain_char c = true).
  set (Q := fun c => Ascii.eqb "'" c = false).
  assert (Sp : P " "%char) by reflexivity.
  assert (Sq : Q " "%char) by reflexivity.
  assert (C : Forall P (clean charref_sub config draft)).
  { unfold clean, strip_chars, strip.
    apply strip_by_Forall, re_sub_quiet; [apply quiet_ws_run2 | exact Sp|].
    apply re_sub_quiet; [apply quiet_leading_prep | exact Sp|].
    apply fold_left_invariant.
    { intros pat y I F. apply strip_by_Forall, re_sub_quiet; auto using quiet_doc_meta. }
    rewrite forbidden_sub_map. apply Forall_map.
    match goal with |- Forall _ ?x => assert (F : Forall Q x) end.
    { apply fold_left_invariant.
      { intros banned y _ F. apply re_sub_quiet; auto using quiet_whole_word. }
      apply strip_by_Forall, re_sub_quiet; [apply quiet_ws_run | exact Sq|].
      change (lit "'") with ["'"%char]. rewrite replace_char_deletes.
      apply Forall_forall. intros c I.
      apply filter_In in I as [_ I]. now apply negb_true_iff in I. }
    apply (Forall_impl _ (P := Q)); [|exact F].
    intros c Qc. unfold P, plain_char. destruct (forbidden_char c) eqn:Fc.
    - reflexivity.
    - rewrite Fc. unfold Q in Qc. now rewrite Qc. }
  unfold sanitize_and_finalize.
  destruct (clean charref_sub config draft) as [|c t] eqn:E; [constructor|].
  apply finish_truncate_Forall; [exact Sp| |exact C].
  intros d Pd. unfold P. now rewrite plain_char_upper.
Qed.

(** ** White space the sanitizer never returns *)

Lemma space_eqb_word (c : ascii) : is_space c = false -> Ascii.eqb " " c = false.
Proof.
  intros S. destruct (Ascii.eqb " " c) eqn:E; [|reflexivity].
  apply Ascii.eqb_eq in E. subst c. discriminate S.
Qed.

Lemma single_spaced_only_spaces (b : bool) (s : str) :
  single_spaced_from b s = true ->
  forallb (fun c => negb (is_space c) || Ascii.eqb c " ") s = true.
Proof.
  revert b. induction s as [|c s IH]; intros b H; [reflexivity|].
  cbn [forallb]. destruct (is_space c) eqn:S.
  - destruct (single_spaced_space b c s S H) as [-> H']. now rewrite (IH true H').
  - cbn [single_spaced_from] in H. rewrite S in H. now rewrite (IH false H).
Qed.

Lemma single_spaced_no_double (b : bool) (s rest : str) :
  rest = [] \/ rest = lit " " ->
  single_spaced_from b s = true -> contains "  " (s ++ rest) = false.
Proof.
  intros R. revert b. induction s as [|c s IH]; intros b H.
  - destruct R as [-> | ->]; reflexivity.
  - cbn [app contains]. apply orb_false_iff. split.
    + change (starts_with "  " (c :: s ++ rest))
        with (Ascii.eqb " " c && starts_with " " (s ++ rest)).
      destruct (is_space c) eqn:S; [|now rewrite space_eqb_word].
      destruct (single_spaced_space b c s S H) as [_ H'].
      destruct (single_spaced_true_head s H') as [d [t [-> [D _]]]].
      change (starts_with " " ((d :: t) ++ rest)) with (Ascii.eqb " " d && true).
      rewrite (space_eqb_word d D). apply andb_false_r.
    + cbn [single_spaced_from] in H. destruct (is_space c).
      * apply andb_true_iff in H as [_ H]. exact (IH true H).
      * exact (IH false H).
Qed.

(** X2.  White space in what the sanitizer returns, whatever the draft and
    the configuration: the only white-space character is the space (no tab,
    no line break), the first character is not white space, and no two
    spaces stand side by side. *)
Theorem sanitized_white_space (charref_sub : str -> str) (draft : str)
    (config : ScriptConfig) :
  let r := sanitize_and_finalize charref_sub draft config in
  forallb (fun c => negb (is_space c) || Ascii.eqb c " ") r = true
  /\ match r with c :: _ => is_space c = false | [] => True end
  /\ contains "  " r = false.
Proof.
  cbv zeta.
  pose proof (sanitize_white_space charref_sub draft config) as H. cbv zeta in H.
  destruct H as [-> | [S | [y [-> S]]]].
  - split; [|split]; reflexivity.
  - split; [|split].
    + exact (single_spaced_only_spaces true _ S).
    + destruct (single_spaced_true_head _ S) as [c [t [-> [C _]]]]. exact C.
    + rewrite <- (app_nil_r (sanitize_and_finalize _ _ _)).
      apply (single_spaced_no_double true); [now left | exact S].
  - split; [|split].
    + rewrite forallb_app, (single_spaced_only_spaces true y S). reflexivity.
    + destruct (single_spaced_true_head y S) as [c [t [-> [C _]]]]. exact C.
    + apply (single_spaced_no_double true); [now right | exact S].
Qed.

(** ** The drafting loop *)

Lemma post_process_status (set_order : list str -> list str)
    (description file_path : str) (brands : list Brand) :
  snd (post_process_description set_order description file_path brands) = None
  \/ snd (post_process_description set_order description file_path brands)
     = Some (lit "UPDATED").
Proof.
  unfold post_process_description. destruct brands as [|b brands]; [now left|].
  destruct (file_context file_path (b :: brands)) as [context|]; [|now left].
  destruct (banned_keywords context (b :: brands)) as [|k ks]; [now left|].
  destruct (str_eqb _ description); [now left | now right].
Qed.

(** X3.  A description that the drafting loop accepts has at least 100
    characters, on the first request as on the retry, and the status that
    comes with it is [None] or the string UPDATED, whatever the language
    model answers; and it has at most 161 characters when every answer of
    the model is plain ([plain_answer]: within the alphabet and without an
    ampersand, so that no character whose upper case is longer than itself
    can come to stand first). *)
Theorem accepted_description_bounds (charref_sub : str -> str)
    (set_order : list str -> list str) (call_ollama : nat -> prompt -> str)
    (config : ScriptConfig) (path : str) (brands : list Brand) (payload desc : str)
    (status : option str) :
  accepted_description charref_sub set_order call_ollama config path brands payload
  = Some (desc, status) ->
  100 <= length desc
  /\ (status = None \/ status = Some (lit "UPDATED"))
  /\ ((forall n p, plain_answer (call_ollama n p) = true) -> length desc <= 161).
Proof.
  intros H.
  destruct (proj1 accepted_length_bounds _ _ _ _ _ _ _ _ _ H) as [L U].
  split; [exact L|]. split; [|exact U]. clear L U.
  revert H. unfold accepted_description, finalize_draft.
  pose proof (post_process_status set_order
                (call_ollama 0 (PROMPT_TMPL (BANNED_LITERALS config) payload))
                path brands) as S1.
  pose proof (post_process_status set_order
                (call_ollama 2 (PROMPT_TMPL_RETRY (BANNED_LITERALS config) payload))
                path brands) as S2.
  destruct (post_process_description set_order (call_ollama 0 _) path brands) as [d1 s1].
  destruct (too_short _).
  - destruct (post_process_description set_order (call_ollama 2 _) path brands)
      as [d2 s2].
    destruct (too_short _); [discriminate|].
    intros E. injection E as _ <-. exact S2.
  - intros E. injection E as _ <-. exact S1.
Qed.

(** A language model that gives the same answer to every request. *)
Definition steady_answer : str :=
  "Configure the network stack of the server and deploy the services that the cluster needs to run the workloads of the site".

Definition steady_model : nat -> prompt -> str := fun _ _ => steady_answer.

(** X3 on the steady model, whose answer is plain and is accepted as it
    is. *)
Lemma accepted_description_bounds_witness :
  100 <= length steady_answer
  /\ (@None str = None \/ @None str = Some (lit "UPDATED"))
  /\ length steady_answer <= 161.
Proof.
  destruct (accepted_description_bounds (fun s => s) insertion_order steady_model
              no_banned "/docs/index.adoc" [] "payload" steady_answer None)
    as (L & S & U).
  - vm_compute. reflexivity.
  - split; [exact L|]. split; [exact S|].
    apply U. intros n p. vm_compute. reflexivity.
Defined.

Lemma remove_keywords_empty (keywords : list str) : remove_keywords keywords [] = [].
Proof. apply remove_keywords_absent. reflexivity. Qed.

Lemma post_process_empty (set_order : list str -> list str) (file_path : str)
    (brands : list Brand) :
  post_process_description set_order [] file_path brands = ([], None).
Proof.
  unfold post_process_description. destruct brands as [|b brands]; [reflexivity|].
  destruct (file_context file_path (b :: brands)) as [context|]; [|reflexivity].
  destruct (banned_keywords context (b :: brands)) as [|k ks]; [reflexivity|].
  now rewrite remove_keywords_empty.
Qed.

(** The sanitizer on the empty draft. *)
Lemma sanitize_empty (charref_sub : str -> str) (config : ScriptConfig) :
  sanitize_and_finalize charref_sub [] config = [].
Proof.
  unfold sanitize_and_finalize, clean.
  match goal with
  | |- context [fold_left ?f (sorted_by_len_desc ?k ?l) ?x] =>
      change x with (@nil ascii);
      rewrite (fold_left_fixed f (sorted_by_len_desc k l) [])
        by (intros; reflexivity)
  end.
  reflexivity.
Qed.

(** X4.  When every request to the language model fails ([call_ollama]
    returns the empty string), no description is accepted: the first pass
    and the retry both end on the empty description, whatever the file, the
    brands and the configuration, and the file is reported as an error and
    left as it is. *)
Theorem failed_requests_accept_nothing (charref_sub : str -> str)
    (set_order : list str -> list str) (call_ollama : nat -> prompt -> str)
    (config : ScriptConfig) (path : str) (brands : list Brand) (payload : str) :
  (forall n p, call_ollama n p = []) ->
  accepted_description charref_sub set_order call_ollama config path brands payload
  = None.
Proof.
  intros H. unfold accepted_description, finalize_draft.
  rewrite !H, !post_process_empty. cbn [validate_and_correct_grammar].
  now rewrite sanitize_empty.
Qed.

(** X4 on the model that never answers. *)
Lemma failed_requests_witness :
  accepted_description (fun s => s) insertion_order (fun _ _ => [])
    no_banned "/docs/index.adoc" [brand_leap; brand_suma] "payload" = None.
Proof.
  apply failed_requests_accept_nothing. reflexivity.
Defined.

(** ** An empty banned literal *)







(** ** Text that holds nothing to resolve *)

Lemma contains_head (p s : str) (a : ascii) :
  contains (a :: p) s = true -> char_in s a = true.
Proof.
  intros H. apply contains_spec in H as [pre [post ->]].
  unfold char_in. apply existsb_exists. exists a. split.
  - apply in_or_app. right. now left.
  - apply Ascii.eqb_refl.
Qed.

(** X6.  A text without an ampersand holds no entity reference, and
    [resolve_entities_in_string] returns it as it is, whatever the
    brands. *)
Theorem resolve_entities_without_ampersand (text : str) (brands : list Brand) :
  char_in text "&" = false -> resolve_entities_in_string text brands = text.
Proof.
  intros H. unfold resolve_entities_in_string.
  destruct brands as [|b brands]; [reflexivity|].
  apply fold_left_fixed. intros brand _.
  destruct (contains (entity_ref brand) text) eqn:C; [|reflexivity].
  apply contains_head in C. congruence.
Qed.

(** X6 on a description that names no entity. *)
Lemma resolve_entities_without_ampersand_witness :
  resolve_entities_in_string "Install the system from the DVD" [brand_leap; brand_suma]
  = lit "Install the system from the DVD".
Proof.
  apply resolve_entities_without_ampersand. reflexivity.
Defined.

Lemma m_unresolved_needs_brace (p : option ascii) (s : str) (r : str * nat) :
  m_unresolved p s = Some r -> exists c, In c s /\ Ascii.eqb c "{" = true.
Proof.
  unfold m_unresolved. destruct (braced_name plain_key_char s) as [[n t]|] eqn:B;
    [|discriminate].
  intros _. apply braced_name_inv in B as [-> _].
  exists "{"%char. split; [now left | reflexivity].
Qed.

(** X7.  A text without an opening brace holds no placeholder, and
    [resolve_attributes] returns it as it is, whatever the table. *)
Theorem resolve_attributes_without_brace (text : str) (attributes : dict) :
  char_in text "{" = false -> resolve_attributes text attributes = text.
Proof.
  intros H.
  assert (R : re_sub m_unresolved text = text).
  { apply re_sub_no_match.
    apply (re_search_from_clean m_unresolved (fun c => Ascii.eqb c "{")).
    - apply m_unresolved_needs_brace.
    - now apply char_in_forallb. }
  unfold resolve_attributes. destruct attributes as [|kv attributes]; [exact R|].
  cbn [resolve_loop]. rewrite H. exact R.
Qed.

(** X7 on a sentence and a table of one attribute. *)
Lemma resolve_attributes_without_brace_witness :
  resolve_attributes "Install the system" [(lit "product", lit "Leap")]
  = lit "Install the system".
Proof.
  apply resolve_attributes_without_brace. reflexivity.
Defined.

(** ** The keys of the attribute table *)

Lemma dict_set_keys (k v : str) (d : dict) :
  dict_keys (dict_set k v d) = dict_keys d ++ (if dict_has k d then [] else [k]).
Proof.
  unfold dict_has, dict_keys. induction d as [|[k' v'] d IH]; [reflexivity|].
  cbn [dict_set dict_get]. destruct (str_eqb k k') eqn:E; cbn [map app fst].
  - now rewrite app_nil_r.
  - now rewrite IH.
Qed.

Lemma parse_line_keys (st : parse_state) (line : str) :
  exists new, dict_keys (attributes (parse_line st line))
              = dict_keys (attributes st) ++ new.
Proof.
  assert (Same : exists new : list str,
             dict_keys (attributes st) = dict_keys (attributes st) ++ new)
    by (exists []; now rewrite app_nil_r).
  unfold parse_line.
  destruct (strip line) as [|c l]; [exact Same|].
  destruct (starts_with "//" (c :: l)); [exact Same|].
  destruct (endif_re (c :: l)).
  { destruct (active_block_stack st); exact Same. }
  destruct (ifndef_re (c :: l)); [exact Same|].
  destruct (ifeval_re (c :: l)) as [[key value]|]; [exact Same|].
  destruct (negb (in_active_block st)); [exact Same|].
  destruct (attr_re (c :: l)) as [[key value]|]; [|exact Same].
  cbn [attributes]. rewrite dict_set_keys. eauto.
Qed.

Lemma parse_lines_keys (lines : list str) (initial_context : dict) :
  exists new, dict_keys (attributes (parse_lines lines initial_context))
              = dict_keys initial_context ++ new.
Proof.
  unfold parse_lines.
  set (st := {| attributes := initial_context; in_active_block := true;
                active_block_stack := [] |}).
  change initial_context with (attributes st). clearbody st.
  revert st. induction lines as [|line lines IH]; intros st; cbn [fold_left].
  - exists []. now rewrite app_nil_r.
  - destruct (IH (parse_line st line)) as [new2 E2].
    destruct (parse_line_keys st line) as [new1 E1].
    exists (new1 ++ new2). now rewrite E2, E1, app_assoc.
Qed.

(** X8.  The attribute table that an attributes file gives lists the
    attributes of the command line first, in their order, and after them
    the attributes that the file adds: parsing drops no key and moves none,
    and the expansion of the values keeps the keys as they are. *)
Theorem build_attributes_come_first (fs : filesystem) (file_path text : str)
    (initial_context : dict) :
  fs file_path = Content text ->
  exists table new,
    load_and_process_adoc_attributes fs file_path initial_context = Returned table
    /\ dict_keys table = dict_keys initial_context ++ new.
Proof.
  intros F. unfold load_and_process_adoc_attributes. rewrite F.
  destruct (parse_lines_keys (splitlines text) initial_context) as [new E].
  eexists. exists new. split; [reflexivity|].
  now rewrite expand_attributes_keys.
Qed.

(** X8 on the file of the conditional block, read with [x] predefined. *)
Lemma build_attributes_come_first_witness :
  exists table new,
    load_and_process_adoc_attributes (fun _ => Content gating_file) "attributes.adoc"
      [(lit "x", lit "1")] = Returned table
    /\ dict_keys table = dict_keys [(lit "x", lit "1")] ++ new.
Proof.
  apply (build_attributes_come_first (fun _ => Content gating_file)
           "attributes.adoc" gating_file).
  reflexivity.
Defined.

(** ** The entities file, written and read back *)

(** What [re.findall] does with a match and with a character that opens
    none. *)
Lemma re_findall_from_skip {A : Type} (m : pattern A) (a s : str) (prev : option ascii) :
  re_findall_from m prev (length a) (a ++ s) = re_findall_from m (last_char prev a) 0 s.
Proof.
  revert prev. induction a as [|c a IH]; intros prev.
  - now destruct s.
  - cbn [length app re_findall_from]. rewrite IH. now rewrite last_char_cons.
Qed.

Lemma re_findall_from_match {A : Type} (m : pattern A) (c : ascii) (a s : str)
    (prev : option ascii) (x : A) :
  m prev (c :: a ++ s) = Some (x, S (length a)) ->
  re_findall_from m prev 0 (c :: a ++ s)
  = x :: re_findall_from m (last_char (Some c) a) 0 s.
Proof.
  intros M. cbn [re_findall_from]. rewrite M. now rewrite re_findall_from_skip.
Qed.

(** One declaration of the entities file: [<!ENTITY key Qname Q>], where Q
    is the double quote. *)
Definition declaration (kn : str * str) : str :=
  lit "<!ENTITY " ++ fst kn ++ lit " " ++ [dquote] ++ snd kn ++ [dquote] ++ lit ">".

(** A file of declarations, one to a line. *)
Definition entities_text (decls : list (str * str)) : str :=
  concat (map (fun kn => declaration kn ++ [LF]) decls).

(** A key of word characters and hyphens, and a name without a double
    quote, neither of them empty. *)
Definition declarable (kn : str * str) : Prop :=
  name_over entity_key_char (fst kn)
  /\ name_over (fun c => negb (Ascii.eqb c dquote)) (snd kn).

Lemma entity_key_char_word (c : ascii) : entity_key_char c = true -> is_space c = false.
Proof. by_character c. Qed.

Lemma spaces1_one (c : ascii) (t : str) :
  is_space c = false -> spaces1 (" "%char :: c :: t) = Some (c :: t).
Proof. intros S. unfold spaces1. cbn [span is_space]. cbn. now rewrite S. Qed.

Lemma p_entity_declaration (prev : option ascii) (kn : str * str) (rest : str) :
  declarable kn ->
  p_entity prev (declaration kn ++ rest) = Some (kn, length (declaration kn)).
Proof.
  destruct kn as [k n]. intros [[Nk Fk] [Nn Fn]]. cbn [fst snd] in *.
  destruct k as [|k0 k]; [congruence|]. destruct n as [|n0 n]; [congruence|].
  pose proof Fk as Fk'. cbn [forallb] in Fk'. apply andb_true_iff in Fk' as [K0 _].
  match goal with
  | |- _ = Some (_, length ?d) => rewrite <- (consumed_prefix d rest)
  end.
  unfold declaration. cbn [fst snd]. rewrite <- !app_assoc.
  set (after_name := [dquote] ++ lit ">" ++ rest).
  set (s := lit "<!ENTITY " ++ _).
  unfold p_entity.
  change (take_lit "<!ENTITY" s)
    with (Some (" "%char :: (k0 :: k) ++ lit " " ++ [dquote] ++ (n0 :: n) ++ after_name)).
  cbv beta iota.
  change (((k0 :: k) ++ lit " " ++ [dquote] ++ (n0 :: n) ++ after_name))
    with (k0 :: k ++ " "%char :: dquote :: (n0 :: n) ++ after_name).
  rewrite (spaces1_one k0 _ (entity_key_char_word k0 K0)).
  unfold class1.
  change (k0 :: k ++ " "%char :: dquote :: (n0 :: n) ++ after_name)
    with ((k0 :: k) ++ " "%char :: dquote :: (n0 :: n) ++ after_name).
  rewrite (span_all entity_key_char (k0 :: k) _ " " Fk eq_refl).
  cbn [snd fst].
  rewrite (spaces1_one dquote _ eq_refl).
  cbn [take_lit]. rewrite Ascii.eqb_refl.
  change ((n0 :: n) ++ after_name) with ((n0 :: n) ++ dquote :: lit ">" ++ rest).
  rewrite (span_all _ (n0 :: n) (lit ">" ++ rest) dquote Fn)
    by (now rewrite Ascii.eqb_refl).
  cbn [snd fst app lit list_ascii_of_string take_lit]. rewrite Ascii.eqb_refl.
  reflexivity.
Qed.

Lemma findall_entities (decls : list (str * str)) (prev : option ascii) :
  Forall declarable decls ->
  re_findall_from p_entity prev 0 (entities_text decls) = decls.
Proof.
  intros F. revert prev. induction F as [|kn decls D F IH]; intros prev; [reflexivity|].
  unfold entities_text. cbn [map concat]. fold (entities_text decls).
  rewrite <- app_assoc.
  pose proof (p_entity_declaration prev kn ([LF] ++ entities_text decls) D) as M.
  change (declaration kn) with ("<"%char :: tl (declaration kn)) in M |- *.
  cbn [app] in M |- *. rewrite (re_findall_from_match _ _ _ _ _ _ M).
  cbn [re_findall_from]. change (p_entity _ (LF :: entities_text decls)) with
    (@None ((str * str) * nat)).
  now rewrite IH.
Qed.

(** X9.  The entities file, written and read back: a file of declarations
    [<!ENTITY key Qname Q>] (Q the double quote), one to a line, with keys
    of word characters and hyphens and names that hold no double quote,
    is read as the list of its brands in the order of the file, each with
    its key, its name stripped and the family that its name tells. *)
Theorem entities_file_round_trip (fs : filesystem) (filepath : str)
    (decls : list (str * str)) :
  filepath <> [] ->
  fs filepath = Content (entities_text decls) ->
  Forall declarable decls ->
  load_brand_config_from_entities fs (Some filepath)
  = Returned (map brand_of_entity decls).
Proof.
  intros N F D. unfold load_brand_config_from_entities.
  destruct filepath as [|c p]; [congruence|]. rewrite F.
  unfold re_findall. now rewrite findall_entities.
Qed.

(** X9 on a file of two declarations. *)
Lemma entities_file_round_trip_witness :
  load_brand_config_from_entities
    (fun _ => Content (entities_text [(lit "leap", lit "openSUSE Leap");
                                      (lit "suma", lit " SUSE Manager ")]))
    (Some (lit "entities.ent"))
  = Returned [ {| key := "leap"; name := "openSUSE Leap"; family := opensuse |};
               {| key := "suma"; name := "SUSE Manager"; family := suse |} ].
Proof.
  apply (entities_file_round_trip _ "entities.ent"
           [(lit "leap", lit "openSUSE Leap"); (lit "suma", lit " SUSE Manager ")]).
  - discriminate.
  - reflexivity.
  - repeat constructor; discriminate.
Defined.

(** ** Repetitions that give characters back *)

(** A match of [C*] followed by [k] splits the text into a run of the class
    and a rest that [k] matches. *)
Lemma star_then_inv {A : Type} (p : ascii -> bool) (k : str -> str -> option A)
    (s taken : str) (x : A) :
  star_then p k taken s = Some x ->
  exists a b, s = a ++ b /\ forallb p a = true /\ k (rev taken ++ a) b = Some x.
Proof.
  revert taken. induction s as [|c s IH]; intros taken; cbn [star_then].
  - intros H. exists [], []. cbn [app forallb]. now rewrite app_nil_r.
  - assert (Stop : k (rev taken) (c :: s) = Some x ->
                   exists a b, c :: s = a ++ b /\ forallb p a = true
                               /\ k (rev taken ++ a) b = Some x)
      by (intros H; exists [], (c :: s); cbn [app forallb]; now rewrite app_nil_r).
    destruct (p c) eqn:Pc; [|exact Stop].
    destruct (star_then p k (c :: taken) s) as [y|] eqn:E; [|exact Stop].
    intros H. injection H as ->.
    destruct (IH _ E) as [a [b [-> [Fa K]]]].
    exists (c :: a), b. cbn [forallb rev] in *. rewrite Pc, Fa.
    now rewrite <- app_assoc in K.
Qed.

(** Where a run of the class is followed by a rest that [k] matches, [C*]
    followed by [k] matches (that split or a longer run). *)
Lemma star_then_complete {A : Type} (p : ascii -> bool) (k : str -> str -> option A)
    (a b taken : str) :
  forallb p a = true -> (forall run, matched (k run b) = true) ->
  matched (star_then p k taken (a ++ b)) = true.
Proof.
  intros Fa K. revert taken. induction a as [|c a IH]; intros taken.
  - cbn [app]. destruct b as [|d b]; cbn [star_then]; [apply K|].
    destruct (p d); [|apply K].
    destruct (star_then p k (d :: taken) b); [reflexivity | apply K].
  - cbn [forallb] in Fa. apply andb_true_iff in Fa as [Pc Fa].
    cbn [app star_then]. rewrite Pc. specialize (IH Fa (c :: taken)).
    destruct (star_then p k (c :: taken) (a ++ b)); [reflexivity | discriminate].
Qed.

Lemma plus_then_inv {A : Type} (p : ascii -> bool) (k : str -> str -> option A)
    (s : str) (x : A) :
  plus_then p k s = Some x ->
  exists c a b, s = c :: a ++ b /\ forallb p (c :: a) = true
                /\ k (c :: a) b = Some x.
Proof.
  unfold plus_then. destruct s as [|c s]; [discriminate|].
  destruct (p c) eqn:Pc; [|discriminate].
  intros H. apply star_then_inv in H as [a [b [-> [Fa K]]]].
  exists c, a, b. cbn [forallb]. now rewrite Pc, Fa.
Qed.

Lemma plus_then_complete {A : Type} (p : ascii -> bool) (k : str -> str -> option A)
    (c : ascii) (a b : str) :
  forallb p (c :: a) = true -> (forall run, matched (k run b) = true) ->
  matched (plus_then p k (c :: a ++ b)) = true.
Proof.
  cbn [forallb]. intros F K. apply andb_true_iff in F as [Pc Fa].
  unfold plus_then. rewrite Pc. now apply star_then_complete.
Qed.

(** A literal matched case apart, and the text it matches. *)
Lemma take_lit_ci_inv (p s r : str) :
  take_lit_ci p s = Some r -> exists g, s = g ++ r /\ str_lower g = str_lower p.
Proof.
  revert s. induction p as [|a p IH]; intros s; cbn [take_lit_ci].
  - intros H. injection H as ->. now exists [].
  - destruct s as [|c s]; [discriminate|].
    destruct (Ascii.eqb (lower a) (lower c)) eqn:E; [|discriminate].
    apply Ascii.eqb_eq in E. intros H. destruct (IH s H) as [g [-> L]].
    exists (c :: g). unfold str_lower in *. cbn [map app]. now rewrite L, E.
Qed.

Lemma take_lit_ci_lower (p g r : str) :
  str_lower g = str_lower p -> take_lit_ci p (g ++ r) = Some r.
Proof.
  revert g. induction p as [|a p IH]; intros g L.
  - destruct g; [reflexivity | discriminate].
  - destruct g as [|c g]; [discriminate|]. unfold str_lower in *. cbn [map] in L.
    injection L as Lc Lg. cbn [app take_lit_ci]. rewrite Lc, Ascii.eqb_refl.
    now apply IH.
Qed.

Lemma take_lit_ci_app (p q s r : str) :
  take_lit_ci (p ++ q) s = Some r ->
  exists g t, s = g ++ t /\ str_lower g = str_lower p /\ take_lit_ci q t = Some r.
Proof.
  revert s. induction p as [|a p IH]; intros s; cbn [app take_lit_ci].
  - intros H. now exists [], s.
  - destruct s as [|c s]; [discriminate|].
    destruct (Ascii.eqb (lower a) (lower c)) eqn:E; [|discriminate].
    apply Ascii.eqb_eq in E. intros H. destruct (IH s H) as [g [t [-> [L T]]]].
    exists (c :: g), t. unfold str_lower in *. cbn [map app]. now rewrite L, E.
Qed.

Lemma lower_line_feed (c : ascii) : is_lf (lower c) = is_lf c.
Proof. by_character c. Qed.

(** Text that is a literal without line feed, case apart, has none. *)
Lemma lower_dots (g p : str) :
  str_lower g = str_lower p -> forallb is_dot p = true -> forallb is_dot g = true.
Proof.
  revert p. induction g as [|c g IH]; intros p L F; [reflexivity|].
  destruct p as [|a p]; [discriminate|]. unfold str_lower in *. cbn [map] in L.
  injection L as Lc Lg. cbn [forallb] in *. apply andb_true_iff in F as [Fa Fp].
  rewrite (IH p Lg Fp), andb_true_r. unfold is_dot in *.
  now rewrite <- lower_line_feed, Lc, lower_line_feed.
Qed.

(** ** Navigation files *)

Lemma hyphen_ci (c : ascii) : lower "-" = lower c -> c = "-"%char.
Proof. by_character c. Qed.

(** A name that [NAV_GUIDE_RE] matches, [NAV_GENERIC_RE] matches too. *)
Lemma nav_guide_is_generic (filename : str) :
  NAV_GUIDE_RE filename = true -> NAV_GENERIC_RE filename = true.
Proof.
  unfold NAV_GUIDE_RE.
  destruct (take_lit_ci "nav-" filename) as [r|] eqn:T; [|discriminate].
  destruct (plus_then _ _ r) as [[]|] eqn:P; [|discriminate]. intros _.
  apply plus_then_inv in P as [c [a [b [-> [F K]]]]].
  destruct (take_lit_ci "-guide.adoc" b) as [e|] eqn:G; [|discriminate].
  destruct (at_end e) eqn:E; [|discriminate]. clear K.
  change (lit "-guide.adoc") with (lit "-guide" ++ lit ".adoc") in G.
  apply take_lit_ci_app in G as [g [t [-> [Lg Tt]]]].
  change (lit "nav-") with (lit "nav" ++ lit "-") in T.
  apply take_lit_ci_app in T as [n [t' [-> [Ln Tn]]]].
  destruct t' as [|d t']; [discriminate|].
  cbn [take_lit_ci lit list_ascii_of_string] in Tn.
  destruct (Ascii.eqb (lower "-") (lower d)) eqn:D; [|discriminate].
  injection Tn as ->. apply Ascii.eqb_eq, hyphen_ci in D. subst d.
  unfold NAV_GENERIC_RE. rewrite (take_lit_ci_lower "nav" n _ Ln).
  cbn [take_lit lit list_ascii_of_string]. rewrite Ascii.eqb_refl.
  assert (M : matched (plus_then is_dot (fun _ => adoc_end) (c :: (a ++ g) ++ t)) = true).
  { apply plus_then_complete.
    - cbn [forallb] in *. apply andb_true_iff in F as [Fc Fa].
      rewrite Fc, forallb_app, Fa. exact (lower_dots g "-guide" Lg eq_refl).
    - intros _. unfold adoc_end. now rewrite Tt, E. }
  rewrite <- app_assoc in M.
  now destruct (plus_then is_dot (fun _ => adoc_end) (c :: a ++ g ++ t)).
Qed.

(** X10.  [NAV_GUIDE_RE] never decides: every file name that it matches,
    [NAV_GENERIC_RE] matches as well, so [should_skip] is the test of the
    underscore, of [NAV_GENERIC_RE] and of the three directory names. *)
Theorem should_skip_ignores_guide_pattern (path : Path) :
  should_skip path
  = starts_with "_" (path_name path)
    || NAV_GENERIC_RE (path_name path)
    || existsb (fun p => str_in p nav_directories) (map str_lower (path_parts path)).
Proof.
  unfold should_skip. destruct (starts_with "_" (path_name path)); [reflexivity|].
  destruct (NAV_GENERIC_RE (path_name path)) eqn:G; [reflexivity|].
  destruct (NAV_GUIDE_RE (path_name path)) eqn:U; [|reflexivity].
  apply nav_guide_is_generic in U. congruence.
Qed.

Lemma adoc_end_suffix (g : str) :
  str_lower g = lit ".adoc" -> adoc_end g = Some tt.
Proof.
  intros L. unfold adoc_end. rewrite <- (app_nil_r g).
  now rewrite (take_lit_ci_lower ".adoc" g [] L).
Qed.

Lemma adoc_end_inv (r : str) :
  forallb is_dot r = true -> matched (adoc_end r) = true -> str_lower r = lit ".adoc".
Proof.
  intros F. unfold adoc_end.
  destruct (take_lit_ci ".adoc" r) as [e|] eqn:T; [|discriminate].
  destruct (at_end e) eqn:E; [|discriminate]. intros _.
  apply take_lit_ci_inv in T as [g [-> L]].
  apply at_end_cases in E as [-> | ->].
  - now rewrite app_nil_r.
  - rewrite forallb_app in F. apply andb_true_iff in F as [_ F]. discriminate F.
Qed.

(** The names that [NAV_GENERIC_RE] matches, among those without a line
    feed: in lower case, [nav.adoc], and [nav-], at least one character and
    [.adoc]. *)
Lemma nav_generic_names (filename : str) :
  forallb is_dot filename = true ->
  NAV_GENERIC_RE filename = true
  <-> str_lower filename = lit "nav.adoc"
      \/ exists mid, mid <> [] /\ str_lower filename = lit "nav-" ++ mid ++ lit ".adoc".
Proof.
  intros F. unfold NAV_GENERIC_RE. split.
  - destruct (take_lit_ci "nav" filename) as [r|] eqn:T; [|discriminate].
    apply take_lit_ci_inv in T as [n [-> Ln]].
    rewrite forallb_app in F. apply andb_true_iff in F as [_ Fr].
    assert (Plain : matched (adoc_end r) = true ->
                    str_lower (n ++ r) = lit "nav.adoc").
    { intros M. pose proof (adoc_end_inv r Fr M) as Lr.
      unfold str_lower in *. now rewrite map_app, Ln, Lr. }
    destruct (take_lit "-" r) as [r1|] eqn:H; [|intros M; left; now apply Plain].
    destruct (plus_then is_dot (fun _ => adoc_end) r1) as [[]|] eqn:P;
      [|intros M; left; now apply Plain].
    intros _. right. apply take_lit_app in H. subst r.
    apply plus_then_inv in P as [c [a [b [-> [Fa K]]]]].
    assert (Fb : forallb is_dot b = true).
    { change (lit "-" ++ c :: a ++ b) with ((lit "-" ++ c :: a) ++ b) in Fr.
      rewrite forallb_app in Fr. now apply andb_true_iff in Fr as [_ Fr]. }
    exists (str_lower (c :: a)). split; [discriminate|].
    assert (Lb : str_lower b = lit ".adoc") by (apply (adoc_end_inv b Fb); now rewrite K).
    unfold str_lower in *. rewrite map_app, Ln. cbn [app map lit list_ascii_of_string].
    now rewrite map_app, Lb.
  - intros [L | [mid [N L]]].
    + change (lit "nav.adoc") with (lit "nav" ++ lit ".adoc") in L.
      apply map_eq_app in L as [n [g [-> [Ln Lg]]]].
      rewrite (take_lit_ci_lower "nav" n g Ln), (adoc_end_suffix g Lg).
      now destruct (_ <- take_lit "-" g ;; _).
    + change (lit "nav-" ++ mid ++ lit ".adoc")
        with (lit "nav" ++ lit "-" ++ mid ++ lit ".adoc") in L.
      apply map_eq_app in L as [n [r [-> [Ln L]]]].
      apply map_eq_app in L as [d [r' [-> [Ld L]]]].
      apply map_eq_app in L as [m [g [-> [Lm Lg]]]].
      destruct d as [|d0 [|d1 d]]; try discriminate Ld.
      injection Ld as Ld. symmetry in Ld. apply hyphen_ci in Ld. subst d0.
      destruct m as [|c a]; [now subst mid|].
      rewrite (take_lit_ci_lower "nav" n _ Ln).
      cbn [app take_lit lit list_ascii_of_string]. rewrite Ascii.eqb_refl.
      assert (M : matched (plus_then is_dot (fun _ => adoc_end) (c :: a ++ g)) = true).
      { apply plus_then_complete.
        - rewrite !forallb_app in F. apply andb_true_iff in F as [_ F].
          apply andb_true_iff in F as [_ F]. now apply andb_true_iff in F as [F _].
        - intros _. now rewrite (adoc_end_suffix g Lg). }
      now destruct (plus_then is_dot (fun _ => adoc_end) (c :: a ++ g)).
Qed.

Lemma nav_directory_parts (parts : list str) :
  existsb (fun p => str_in p nav_directories) (map str_lower parts) = true
  <-> exists part, In part parts /\ In (str_lower part) nav_directories.
Proof.
  assert (S : forall p, str_in p nav_directories = true <-> In p nav_directories).
  { intros p. unfold str_in. rewrite existsb_exists. split.
    - intros [x [I E]]. apply str_eqb_eq in E. now subst x.
    - intros I. exists p. split; [exact I | apply str_eqb_refl]. }
  rewrite existsb_exists. split.
  - intros [x [I H]]. apply in_map_iff in I as [part [<- I]].
    exists part. split; [exact I | now apply S].
  - intros [part [I H]]. exists (str_lower part). split; [|now apply S].
    apply in_map_iff. now exists part.
Qed.

(** X11.  The files that [should_skip] leaves out, among those whose name
    holds no line feed: the names that begin with an underscore; the names
    that are, in lower case, [nav.adoc], or [nav-], at least one character
    and [.adoc]; and the paths with a component (the file name included)
    that is, in lower case, [nav], [navigation] or [partials]. *)
Theorem should_skip_characterised (path : Path) :
  forallb is_dot (path_name path) = true ->
  should_skip path = true
  <-> starts_with "_" (path_name path) = true
      \/ str_lower (path_name path) = lit "nav.adoc"
      \/ (exists mid, mid <> []
            /\ str_lower (path_name path) = lit "nav-" ++ mid ++ lit ".adoc")
      \/ exists part, In part (path_parts path)
                      /\ In (str_lower part) nav_directories.
Proof.
  intros F. pose proof (nav_generic_names (path_name path) F) as G.
  pose proof (nav_directory_parts (path_parts path)) as D.
  pose proof (nav_guide_is_generic (path_name path)) as U.
  unfold should_skip.
  destruct (starts_with "_" (path_name path)); [split; auto|].
  destruct (NAV_GENERIC_RE (path_name path)).
  - cbn [orb]. split; [intros _|reflexivity].
    destruct (proj1 G eq_refl) as [L | M]; auto.
  - destruct (NAV_GUIDE_RE (path_name path)); [now specialize (U eq_refl)|].
    cbn [orb]. split.
    + intros H. right. right. right. now apply D.
    + intros [H | [H | [H | H]]].
      * discriminate H.
      * discriminate (proj2 G (or_introl H)).
      * discriminate (proj2 G (or_intror H)).
      * now apply D.
Qed.

(** X11 on a navigation file of a component. *)
Lemma should_skip_characterised_witness :
  should_skip {| anchor := "/"; tail := lits ["docs"; "modules"; "Nav-Admin.adoc"] |}
  = true.
Proof.
  apply (proj2 (should_skip_characterised
                  {| anchor := "/"; tail := lits ["docs"; "modules"; "Nav-Admin.adoc"] |}
                  eq_refl)).
  right. right. left. exists (lit "admin"). split; [discriminate | reflexivity].
Defined.

(** ** The table of the plain attribute parser *)

Lemma drop_while_head {A : Type} (p : A -> bool) (l : list A) :
  drop_while p l = [] \/ exists c r, drop_while p l = c :: r /\ p c = false.
Proof.
  induction l as [|a l IH]; [now left|].
  cbn [drop_while]. destruct (p a) eqn:Pa; [exact IH|].
  right. now exists a, l.
Qed.

(** [s.strip()] is empty, or begins and ends outside the class it strips. *)
Lemma strip_by_ends (p : ascii -> bool) (s : str) :
  strip_by p s = []
  \/ exists c l, hd_error (strip_by p s) = Some c /\ p c = false
                 /\ final_char (strip_by p s) = Some l /\ p l = false.
Proof.
  unfold strip_by, rstrip_by, lstrip_by, final_char.
  destruct (drop_while_head p s) as [-> | [c [r [-> Pc]]]]; [now left|].
  destruct (drop_while_head p (rev (c :: r))) as [-> | [l [u [E Pl]]]]; [now left|].
  right. exists c, l. rewrite E, rev_involutive.
  destruct (drop_while_suffix p (rev (c :: r))) as [d D]. rewrite E in D.
  apply (f_equal (@rev ascii)) in D. rewrite rev_involutive, rev_app_distr in D.
  repeat split; auto.
  destruct (rev (l :: u)) as [|x y] eqn:R.
  - apply (f_equal (@length ascii)) in R. rewrite length_rev in R. discriminate R.
  - cbn [app] in D. injection D as <- _. reflexivity.
Qed.

Lemma strip_by_idempotent (p : ascii -> bool) (s : str) :
  strip_by p (strip_by p s) = strip_by p s.
Proof.
  destruct (strip_by_ends p s) as [-> | [c [l [Hc [Pc [Hl Pl]]]]]]; [reflexivity|].
  exact (strip_by_fixed p _ c l Hc Pc Hl Pl).
Qed.

Lemma class1_name (p : ascii -> bool) (s w r : str) :
  class1 p s = Some (w, r) -> name_over p w.
Proof.
  unfold class1. pose proof (span_forallb p s) as F.
  destruct (span p s) as [[|c w'] r']; [discriminate|].
  intros E. injection E as <- _. split; [discriminate | exact F].
Qed.

(** An entry of the plain parser: a key of the class [[a-zA-Z0-9_-]], not
    empty, and a value on one line with no white space around it. *)
Definition tidy (kv : str * str) : Prop :=
  name_over plain_key_char (fst kv)
  /\ strip (snd kv) = snd kv
  /\ forallb is_dot (snd kv) = true.

Lemma simple_attr_re_tidy (line key : str) (value : option str) :
  simple_attr_re line = Some (key, value) ->
  tidy (key, match value with Some v => strip v | None => [] end).
Proof.
  unfold simple_attr_re.
  destruct (take_lit ":" line) as [r|]; [|discriminate].
  destruct (class1 plain_key_char r) as [[w r1]|] eqn:C; [|discriminate].
  apply class1_name in C. cbn [fst snd].
  destruct (take_lit ":" r1) as [r2|]; [|discriminate].
  destruct (plus_then is_space _ r2) as [v|] eqn:P.
  - intros E. injection E as <- <-.
    apply plus_then_inv in P as [c [a [b [_ [_ K]]]]].
    apply star_then_inv in K as [run [rest [_ [F K]]]].
    cbn [rev app] in K. destruct (at_end rest); [|discriminate].
    injection K as <-. split; [exact C|]. split; [apply strip_by_idempotent|].
    apply forallb_forall, Forall_forall, strip_by_Forall, Forall_forall, forallb_forall, F.
  - destruct (at_end r2); [|discriminate].
    intros E. injection E as <- <-. now split.
Qed.

Lemma dict_set_Forall (P : str * str -> Prop) (k v : str) (d : dict) :
  P (k, v) -> Forall P d -> Forall P (dict_set k v d).
Proof.
  intros Pk. induction 1 as [|[k' v'] d Pd F IH]; cbn [dict_set].
  - now repeat constructor.
  - destruct (str_eqb k k') eqn:E.
    + apply str_eqb_eq in E. subst k'. now constructor.
    + now constructor.
Qed.

(** X12.  Every entry of the table that [load_adoc_attributes] returns has
    a key that is a non-empty run of the characters [[a-zA-Z0-9_-]] and a
    value that holds no line feed and has no white space at either end,
    whatever the file holds; a file that cannot be opened gives the empty
    table. *)
Theorem simple_attributes_are_tidy (opened : option str) (key value : str) :
  In (key, value) (load_adoc_attributes opened) ->
  name_over plain_key_char key
  /\ strip value = value
  /\ forallb is_dot value = true.
Proof.
  assert (T : Forall tidy (load_adoc_attributes opened)).
  { destruct opened as [text|]; [|constructor]. cbn [load_adoc_attributes].
    apply fold_left_invariant; [|constructor].
    intros line d _ F. unfold simple_line.
    destruct (simple_attr_re line) as [[k v]|] eqn:E; [|exact F].
    apply dict_set_Forall; [|exact F]. exact (simple_attr_re_tidy line k v E). }
  intros I. rewrite Forall_forall in T. exact (T _ I).
Qed.

(** X12 on a file of two lines. *)
Lemma simple_attributes_are_tidy_witness :
  name_over plain_key_char (lit "product")
  /\ strip (lit "Leap 15") = lit "Leap 15"
  /\ forallb is_dot (lit "Leap 15") = true.
Proof.
  apply (simple_attributes_are_tidy
           (Some (lit ":product:   Leap 15  " ++ [LF] ++ lit ":empty:" ++ [LF]))).
  vm_compute. now left.
Defined.

(** ** The description line of an AsciiDoc file *)

(** [DESC_RE.match(line)] *)
Definition is_description (line : str) : bool := matched (DESC_RE None line).

Lemma description_line_matches (desc : str) :
  is_description (description_line desc) = true.
Proof. reflexivity. Qed.

Lemma find_index_split {A : Type} (p : A -> bool) (l : list A) (i : nat) :
  find_index p l = Some i ->
  exists a z b, l = a ++ z :: b /\ length a = i
                /\ forallb (fun x => negb (p x)) a = true /\ p z = true.
Proof.
  revert i. induction l as [|x l IH]; intros i; cbn [find_index]; [discriminate|].
  destruct (p x) eqn:Px.
  - intros E. injection E as <-. now exists [], x, l.
  - destruct (find_index p l) as [j|]; [|discriminate].
    intros E. injection E as <-. destruct (IH j eq_refl) as [a [z [b [-> [L [F Pz]]]]]].
    exists (x :: a), z, b. cbn [app length forallb]. now rewrite Px, F, L.
Qed.

Lemma find_index_none {A : Type} (p : A -> bool) (l : list A) :
  find_index p l = None -> forallb (fun x => negb (p x)) l = true.
Proof.
  induction l as [|x l IH]; cbn [find_index forallb]; [reflexivity|].
  destruct (p x); [discriminate|].
  destruct (find_index p l); [discriminate|]. intros _. now apply IH.
Qed.

Lemma find_index_first {A : Type} (p : A -> bool) (a b : list A) (z : A) :
  forallb (fun x => negb (p x)) a = true -> p z = true ->
  find_index p (a ++ z :: b) = Some (length a).
Proof.
  intros F Pz. induction a as [|x a IH]; cbn [app find_index length].
  - now rewrite Pz.
  - cbn [forallb] in F. apply andb_true_iff in F as [Px F].
    apply negb_true_iff in Px. now rewrite Px, (IH F).
Qed.

Lemma set_line_at (a b : list str) (x z : str) :
  set_line (length a) x (a ++ z :: b) = a ++ x :: b.
Proof. induction a as [|y a IH]; cbn [length app set_line]; now rewrite ?IH. Qed.

Lemma firstn_through {A : Type} (a b : list A) (z : A) :
  firstn (S (length a)) (a ++ z :: b) = a ++ [z].
Proof. induction a as [|x a IH]; [reflexivity|]. simpl. now rewrite <- IH. Qed.

(** X13.  Where the description goes: the new lines are the old ones with
    the line [:description: desc] put in place of the first line that is a
    description attribute (status REPLACED) or, when there is none,
    inserted just after the first title line, at the top when there is no
    title (status ADDED); no line before it is a description attribute,
    and every other line stays as it is, in its place. *)
Theorem place_description_shape (lines : list str) (desc : str) :
  exists before after,
    fst (place_description lines desc) = before ++ description_line desc :: after
    /\ forallb (fun line => negb (is_description line)) before = true
    /\ ((lines = before ++ after
         /\ forallb (fun line => negb (is_description line)) after = true
         /\ snd (place_description lines desc) = lit "ADDED"
         /\ ((before = [] /\ forallb (fun line => negb (title_re line)) lines = true)
             \/ exists above title,
                  before = above ++ [title] /\ title_re title = true
                  /\ forallb (fun line => negb (title_re line)) above = true))
        \/ exists old,
             lines = before ++ old :: after /\ is_description old = true
             /\ snd (place_description lines desc) = lit "REPLACED").
Proof.
  unfold place_description.
  change (fun line => matched (DESC_RE None line)) with is_description.
  destruct (find_index is_description lines) as [i|] eqn:E.
  - apply find_index_split in E as [a [z [b [-> [<- [F Pz]]]]]].
    exists a, b. cbn [fst snd]. rewrite set_line_at. split; [reflexivity|].
    split; [exact F|]. right. now exists z.
  - apply find_index_none in E.
    set (at_index := match find_index title_re lines with
                     | Some title_idx => S title_idx
                     | None => 0
                     end).
    exists (firstn at_index lines), (skipn at_index lines). cbn [fst snd].
    pose proof E as E'.
    rewrite <- (firstn_skipn at_index lines) in E'. rewrite forallb_app in E'.
    apply andb_true_iff in E' as [E1 E2].
    split; [reflexivity|]. split; [exact E1|]. left.
    split; [now rewrite firstn_skipn|]. split; [exact E2|]. split; [reflexivity|].
    subst at_index. destruct (find_index title_re lines) as [t|] eqn:T.
    + right. apply find_index_split in T as [a [z [b [-> [<- [F Pz]]]]]].
      exists a, z. now rewrite firstn_through.
    + left. split; [reflexivity | now apply find_index_none].
Qed.

(** ** The file written and read again *)

(** A line: a text without a line boundary. *)
Definition one_line (s : str) : bool := forallb (fun c => negb (is_linebreak c)) s.

Lemma splitlines_from_line (w cur rest : str) :
  one_line w = true ->
  splitlines_from cur (w ++ rest) = splitlines_from (rev w ++ cur) rest.
Proof.
  revert cur. induction w as [|c w IH]; intros cur F; [reflexivity|].
  cbn [one_line forallb] in F. apply andb_true_iff in F as [C F].
  apply negb_true_iff in C. cbn [app splitlines_from]. rewrite C.
  rewrite (IH _ F). cbn [rev]. now rewrite <- app_assoc.
Qed.

Lemma splitlines_from_line_feed (cur rest : str) :
  splitlines_from cur (LF :: rest) = rev cur :: splitlines_from [] rest.
Proof. destruct rest; reflexivity. Qed.

(** The lines of [splitlines] hold no line boundary. *)
Lemma splitlines_from_lines (n : nat) :
  forall s cur, length s <= n -> one_line cur = true ->
    Forall (fun line => one_line line = true) (splitlines_from cur s).
Proof.
  assert (R : forall cur, one_line cur = true -> one_line (rev cur) = true).
  { intros cur F. unfold one_line in *. apply forallb_forall. intros c I.
    apply in_rev in I. revert c I. now apply forallb_forall. }
  induction n as [|n IH]; intros s cur L F.
  - destruct s; [|cbn [length] in L; lia]. cbn [splitlines_from].
    destruct cur; repeat constructor. now apply R.
  - destruct s as [|c s]; cbn [splitlines_from].
    + destruct cur; repeat constructor. now apply R.
    + cbn [length] in L. destruct (is_linebreak c) eqn:C.
      * destruct s as [|d s]; [repeat constructor; now apply R|].
        cbn [length] in L.
        destruct ((ord c =? 13)%N && (ord d =? 10)%N);
          (constructor; [now apply R | apply IH; [cbn [length]; lia | reflexivity]]).
      * apply IH; [lia|]. cbn [one_line forallb]. now rewrite C.
Qed.

Lemma splitlines_lines (s : str) :
  Forall (fun line => one_line line = true) (splitlines s).
Proof. now apply (splitlines_from_lines (length s)). Qed.

(** Lines that are joined by line feeds and closed by one are read back as
    they are. *)
Lemma splitlines_joined (lines : list str) :
  lines <> [] -> Forall (fun line => one_line line = true) lines ->
  splitlines (join [LF] lines ++ [LF]) = lines.
Proof.
  intros N F. unfold splitlines.
  induction F as [|w ws W F IH]; [congruence|]. clear N.
  destruct ws as [|v ws].
  - cbn [join]. rewrite (splitlines_from_line w [] [LF] W), app_nil_r.
    cbn [splitlines_from is_linebreak]. now rewrite rev_involutive.
  - rewrite join_cons_word, <- !app_assoc.
    rewrite (splitlines_from_line w [] _ W), app_nil_r.
    cbn [app]. rewrite splitlines_from_line_feed, rev_involutive.
    f_equal. apply IH. discriminate.
Qed.

(** A file of a title and a paragraph. *)
Definition two_line_file : str := lit "= Title" ++ [LF] ++ lit "Body" ++ [LF].

(** The text that lines 661-675 write for the description [desc]. *)
Definition updated_text (raw_text desc : str) : str :=
  join [LF] (fst (place_description (splitlines raw_text) desc)) ++ [LF].

Lemma place_description_lines (lines : list str) :
  exists before after,
    forallb (fun line => negb (is_description line)) before = true
    /\ (forall P : str -> Prop, Forall P lines -> Forall P before /\ Forall P after)
    /\ forall desc,
         place_description lines desc
         = (before ++ description_line desc :: after,
            snd (place_description lines desc)).
Proof.
  unfold place_description.
  change (fun line => matched (DESC_RE None line)) with is_description.
  destruct (find_index is_description lines) as [i|] eqn:E.
  - apply find_index_split in E as [a [z [b [-> [<- [F Pz]]]]]].
    exists a, b. split; [exact F|]. split.
    + intros P H. apply Forall_app in H as [Ha Hb]. inversion Hb; now subst.
    + intros desc. cbn [snd]. now rewrite set_line_at.
  - apply find_index_none in E.
    set (at_index := match find_index title_re lines with
                     | Some title_idx => S title_idx
                     | None => 0
                     end).
    exists (firstn at_index lines), (skipn at_index lines).
    pose proof E as E'.
    rewrite <- (firstn_skipn at_index lines) in E'. rewrite forallb_app in E'.
    apply andb_true_iff in E' as [E1 _]. split; [exact E1|]. split; [|reflexivity].
    intros P H. rewrite <- (firstn_skipn at_index lines) in H.
    now apply Forall_app in H.
Qed.

(** X14.  Writing the description is an overwrite.  When the description
    holds no line boundary, the file that [process_adoc_file] has written
    is read back as the lines it joined; a second description then takes
    the place of the first (status REPLACED), and the file written is the
    one that the second description alone would have given: one
    description line, at the same place. *)
Theorem description_is_overwritten (raw_text desc1 desc2 : str) :
  one_line desc1 = true ->
  splitlines (updated_text raw_text desc1)
  = fst (place_description (splitlines raw_text) desc1)
  /\ updated_text (updated_text raw_text desc1) desc2 = updated_text raw_text desc2
  /\ snd (place_description (splitlines (updated_text raw_text desc1)) desc2)
     = lit "REPLACED".
Proof.
  intros D.
  destruct (place_description_lines (splitlines raw_text)) as [a [b [F [S P]]]].
  destruct (S _ (splitlines_lines raw_text)) as [La Lb].
  assert (R : splitlines (updated_text raw_text desc1)
              = a ++ description_line desc1 :: b).
  { unfold updated_text. rewrite P. cbn [fst]. apply splitlines_joined.
    - now destruct a.
    - apply Forall_app. split; [exact La|]. constructor; [|exact Lb].
      unfold description_line, one_line in *. now rewrite forallb_app, D. }
  assert (Q : place_description (a ++ description_line desc1 :: b) desc2
              = (a ++ description_line desc2 :: b, lit "REPLACED")).
  { unfold place_description.
    change (fun line => matched (DESC_RE None line)) with is_description.
    rewrite (find_index_first is_description a b _ F (description_line_matches desc1)).
    now rewrite set_line_at. }
  split; [now rewrite R, P|]. split.
  - unfold updated_text at 1 3. now rewrite R, Q, P.
  - now rewrite R, Q.
Qed.

(** X14 on a file with a title, and two descriptions in turn. *)
Lemma description_is_overwritten_witness :
  splitlines (updated_text two_line_file "First")
  = fst (place_description (splitlines two_line_file) "First")
  /\ updated_text (updated_text two_line_file "First") "Second"
     = updated_text two_line_file "Second"
  /\ snd (place_description (splitlines (updated_text two_line_file "First")) "Second")
     = lit "REPLACED".
Proof.
  apply (description_is_overwritten two_line_file "First" "Second"). reflexivity.
Defined.

(** ** One AsciiDoc file *)

(** Without [re.MULTILINE], [DESC_RE.search] finds the attribute only at
    the start of the text. *)
Lemma desc_search_is_match (raw_text : str) :
  re_search DESC_RE raw_text = is_description raw_text.
Proof.
  assert (Later : forall s c, re_search_from DESC_RE (Some c) s = false).
  { induction s as [|d s IH]; intros c; cbn [re_search_from DESC_RE]; auto. }
  unfold re_search, is_description. destruct raw_text as [|c s].
  - reflexivity.
  - cbn [re_search_from]. destruct (DESC_RE None (c :: s)); [reflexivity|].
    apply Later.
Qed.

Lemma linebreak_is_white (c : ascii) :
  negb (is_space c) || Ascii.eqb c " " = true -> negb (is_linebreak c) = true.
Proof. by_character c. Qed.

(** What the sanitizer returns is one line. *)
Lemma sanitize_one_line (charref_sub : str -> str) (draft : str) (config : ScriptConfig) :
  one_line (sanitize_and_finalize charref_sub draft config) = true.
Proof.
  pose proof (sanitize_white_space charref_sub draft config) as H. cbv zeta in H.
  assert (W : forallb (fun c => negb (is_space c) || Ascii.eqb c " ")
                (sanitize_and_finalize charref_sub draft config) = true).
  { destruct H as [-> | [S | [y [-> S]]]]; [reflexivity | |].
    - exact (single_spaced_only_spaces true _ S).
    - now rewrite forallb_app, (single_spaced_only_spaces true y S). }
  unfold one_line. apply forallb_forall. intros c I.
  apply linebreak_is_white. revert c I. now apply forallb_forall.
Qed.

Lemma accepted_is_sanitized (charref_sub : str -> str) (set_order : list str -> list str)
    (call_ollama : nat -> prompt -> str) (config : ScriptConfig) (path : str)
    (brands : list Brand) (payload desc : str) (status : option str) :
  accepted_description charref_sub set_order call_ollama config path brands payload
  = Some (desc, status) ->
  (exists draft, desc = sanitize_and_finalize charref_sub draft config)
  /\ (status = None \/ status = Some (lit "UPDATED")).
Proof.
  unfold accepted_description, finalize_draft.
  pose proof (post_process_status set_order
                (call_ollama 0 (PROMPT_TMPL (BANNED_LITERALS config) payload))
                path brands) as S1.
  pose proof (post_process_status set_order
                (call_ollama 2 (PROMPT_TMPL_RETRY (BANNED_LITERALS config) payload))
                path brands) as S2.
  destruct (post_process_description set_order (call_ollama 0 _) path brands) as [d1 s1].
  destruct (too_short _).
  - destruct (post_process_description set_order (call_ollama 2 _) path brands)
      as [d2 s2].
    destruct (too_short _); [discriminate|].
    intros E. injection E as <- <-. split; [eauto | exact S2].
  - intros E. injection E as <- <-. split; [eauto | exact S1].
Qed.

Lemma updated_text_lines (raw_text desc : str) :
  one_line desc = true ->
  splitlines (updated_text raw_text desc)
  = fst (place_description (splitlines raw_text) desc)
  /\ In (description_line desc) (splitlines (updated_text raw_text desc)).
Proof.
  intros D.
  destruct (place_description_lines (splitlines raw_text)) as [a [b [F [S P]]]].
  destruct (S _ (splitlines_lines raw_text)) as [La Lb].
  assert (R : splitlines (updated_text raw_text desc) = a ++ description_line desc :: b).
  { unfold updated_text. rewrite P. cbn [fst]. apply splitlines_joined.
    - now destruct a.
    - apply Forall_app. split; [exact La|]. constructor; [|exact Lb].
      unfold description_line, one_line in *. now rewrite forallb_app, D. }
  rewrite R, P. split; [reflexivity | apply in_elt].
Qed.

Section OneFile.

Variable charref_sub : str -> str.
Variable set_order : list str -> list str.
Variable call_ollama : nat -> prompt -> str.

(** X15.  The file is left alone as already described exactly when
    [--force-overwrite] is not given and the text of the file begins with
    the description attribute ([:], [description], [:], with any white
    space between them and in any case): the test is on the start of the
    text, not on each line, so a description attribute on a later line does
    not stop the run, which replaces it. *)
Theorem already_described_at_start (raw_text path : str) (config : ScriptConfig)
    (force_overwrite dry_run : bool) (attributes : dict) (brands : list Brand) :
  process_adoc_file charref_sub set_order call_ollama raw_text path config
    force_overwrite dry_run attributes brands = AlreadyDescribed
  <-> force_overwrite = false /\ is_description raw_text = true.
Proof.
  unfold process_adoc_file. rewrite desc_search_is_match.
  destruct (is_description raw_text), force_overwrite; cbn [negb andb].
  2: now split.
  all: split; [|intros [H1 H2]; discriminate].
  all: destruct (strip _); [discriminate|].
  all: destruct (accepted_description _ _ _ _ _ _ _) as [[desc status]|];
    [|discriminate].
  all: destruct dry_run; [discriminate|].
  all: destruct (place_description _ desc); discriminate.
Qed.

(** X16.  What a run writes.  When [process_adoc_file] writes the file,
    it is not a dry run; the description has at least 100 characters, at
    most 161 when every answer of the model is plain ([plain_answer]), and
    is one line; the text written is the lines of the file, with the
    description line placed among them, joined by line feeds and closed by
    one; read again, the file has those lines, the line
    [:description: desc] among them; and the status logged is ADDED,
    REPLACED or UPDATED. *)
Theorem written_file (raw_text path : str) (config : ScriptConfig)
    (force_overwrite dry_run : bool) (attributes : dict) (brands : list Brand)
    (status desc text : str) :
  process_adoc_file charref_sub set_order call_ollama raw_text path config
    force_overwrite dry_run attributes brands = Written status desc text ->
  dry_run = false
  /\ 100 <= length desc
  /\ ((forall n p, plain_answer (call_ollama n p) = true) -> length desc <= 161)
  /\ one_line desc = true
  /\ text = updated_text raw_text desc
  /\ splitlines text = fst (place_description (splitlines raw_text) desc)
  /\ In (description_line desc) (splitlines text)
  /\ (status = lit "ADDED" \/ status = lit "REPLACED" \/ status = lit "UPDATED").
Proof.
  unfold process_adoc_file.
  destruct (re_search DESC_RE raw_text && negb force_overwrite); [discriminate|].
  destruct (strip _); [discriminate|].
  destruct (accepted_description _ _ _ _ _ _ _) as [[d update_status]|] eqn:A;
    [|discriminate].
  destruct dry_run; [discriminate|].
  destruct (proj1 accepted_length_bounds _ _ _ _ _ _ _ _ _ A) as [B C].
  apply accepted_is_sanitized in A as [[draft ->] U].
  pose proof (sanitize_one_line charref_sub draft config) as O.
  destruct (updated_text_lines raw_text _ O) as [L I].
  assert (S : snd (place_description (splitlines raw_text)
                     (sanitize_and_finalize charref_sub draft config)) = lit "ADDED"
              \/ snd (place_description (splitlines raw_text)
                        (sanitize_and_finalize charref_sub draft config))
                 = lit "REPLACED").
  { unfold place_description. destruct (find_index _ (splitlines raw_text)); auto. }
  unfold updated_text in *.
  destruct (place_description (splitlines raw_text) _) as [lines status0] eqn:Epd.
  cbn [fst snd] in *. intros E. injection E as <- <- <-. rewrite Epd. cbn [fst].
  repeat (split; [assumption || reflexivity|]).
  destruct U as [-> | ->]; [destruct S as [-> | ->]; auto|].
  right. right. reflexivity.
Qed.

End OneFile.

(** X16 on the file of a title and a paragraph, with the steady model,
    whose answer is plain. *)
Lemma written_file_witness :
  false = false
  /\ 100 <= length steady_answer
  /\ length steady_answer <= 161
  /\ one_line steady_answer = true
  /\ updated_text two_line_file steady_answer = updated_text two_line_file steady_answer
  /\ splitlines (updated_text two_line_file steady_answer)
     = fst (place_description (splitlines two_line_file) steady_answer)
  /\ In (description_line steady_answer)
        (splitlines (updated_text two_line_file steady_answer))
  /\ (lit "ADDED" = lit "ADDED" \/ lit "ADDED" = lit "REPLACED"
      \/ lit "ADDED" = lit "UPDATED").
Proof.
  destruct (written_file (fun s => s) insertion_order steady_model two_line_file
              "/docs/index.adoc" no_banned false false [] []
              "ADDED" steady_answer (updated_text two_line_file steady_answer))
    as (D & L & U & R).
  - vm_compute. reflexivity.
  - split; [exact D|]. split; [exact L|]. split; [|exact R].
    apply U. intros n p. vm_compute. reflexivity.
Defined.

(** ** The characters of the payload *)

Lemma lazy_then_inv {A : Type} (p : ascii -> bool) (k : str -> str -> option A)
    (s taken : str) (x : A) :
  lazy_then p k taken s = Some x ->
  exists a b, s = a ++ b /\ forallb p a = true /\ k (rev taken ++ a) b = Some x.
Proof.
  revert taken. induction s as [|c s IH]; intros taken; cbn [lazy_then].
  - destruct (k (rev taken) []) as [y|] eqn:K; [|discriminate].
    intros E. injection E as ->. exists [], []. cbn [app forallb].
    now rewrite app_nil_r.
  - destruct (k (rev taken) (c :: s)) as [y|] eqn:K.
    + intros E. injection E as ->. exists [], (c :: s). cbn [app forallb].
      now rewrite app_nil_r.
    + destruct (p c) eqn:Pc; [|discriminate]. intros H.
      destruct (IH _ H) as [a [b [-> [Fa Ka]]]].
      exists (c :: a), b. cbn [forallb rev] in *. rewrite Pc, Fa.
      now rewrite <- app_assoc in Ka.
Qed.

(** A matcher that writes only characters of the text it is given. *)
Definition keeps_chars (m : matcher) : Prop :=
  forall prev s out n, m prev s = Some (out, n) -> incl out s.

Lemma re_sub_keeps (P : ascii -> Prop) (m : matcher) (s : str) :
  keeps_chars m -> Forall P s -> Forall P (re_sub m s).
Proof.
  intros K F. apply re_sub_from_Forall; [|exact F].
  intros prev t out n Ft E. apply Forall_forall. intros c I.
  rewrite Forall_forall in Ft. apply Ft. exact (K prev t out n E c I).
Qed.

Lemma keeps_literal_deleted (old : str) : keeps_chars (m_literal old []).
Proof.
  intros prev s out n. unfold m_literal. destruct (take_lit old s); [|discriminate].
  intros E. injection E as <- _. apply incl_nil_l.
Qed.

Lemma keeps_section_title : keeps_chars m_section_title.
Proof.
  intros prev s out n. unfold m_section_title.
  destruct (line_start prev); [|discriminate].
  destruct (take_lit "==" s) as [r|]; [|discriminate].
  destruct (spaces1 _) as [r1|]; [|discriminate].
  intros E. injection E as <- _. apply incl_nil_l.
Qed.

Lemma keeps_list_marker : keeps_chars m_list_marker.
Proof.
  intros prev s out n. unfold m_list_marker.
  destruct (line_start prev); [|discriminate].
  destruct (class1 _ s) as [mr|]; [|discriminate].
  destruct (spaces1 _) as [r1|]; [|discriminate].
  intros E. injection E as <- _. apply incl_nil_l.
Qed.

Lemma keeps_delimited (opening closing : str) : keeps_chars (m_delimited opening closing).
Proof.
  intros prev s out n. unfold m_delimited.
  destruct (take_lit opening s) as [r|]; [|discriminate].
  destruct (lazy_then _ _ _ r) as [r1|]; [|discriminate].
  intros E. injection E as <- _. apply incl_nil_l.
Qed.

Lemma keeps_image : keeps_chars m_image.
Proof.
  intros prev s out n. unfold m_image.
  destruct (take_lit "image::" s) as [r|]; [|discriminate].
  destruct (plus_then _ _ r) as [r1|]; [|discriminate].
  intros E. injection E as <- _. apply incl_nil_l.
Qed.

Lemma keeps_comment : keeps_chars m_comment.
Proof.
  intros prev s out n. unfold m_comment.
  destruct (take_lit "//" s) as [r|]; [|discriminate].
  intros E. injection E as <- _. apply incl_nil_l.
Qed.

Lemma keeps_quoted (q : ascii) : keeps_chars (m_quoted q).
Proof.
  intros prev s out n. unfold m_quoted.
  destruct (take_lit [q] s) as [r|] eqn:T; [|discriminate].
  apply take_lit_app in T. subst s.
  unfold class1. pose proof (span_join (fun c => negb (Ascii.eqb c q)) r) as J.
  destruct (span _ r) as [[|c w] r1]; [discriminate|]. cbn [fst snd] in *.
  destruct (take_lit [q] r1); [|discriminate].
  intros E. injection E as <- _. rewrite <- J.
  intros x I. apply in_or_app. right. apply in_or_app. now left.
Qed.

Lemma keeps_xref : keeps_chars m_xref.
Proof.
  intros prev s out n. unfold m_xref.
  destruct (take_lit "xref:" s) as [r|] eqn:T; [|discriminate].
  apply take_lit_app in T. subst s. intros P.
  apply plus_then_inv in P as [c [a [b [-> [_ K]]]]].
  destruct (take_lit "[" b) as [r2|] eqn:B; [|discriminate].
  apply take_lit_app in B. subst b.
  apply lazy_then_inv in K as [label [r3 [-> [_ K]]]].
  destruct (take_lit "]" r3); [|discriminate]. cbn [rev app] in K.
  injection K as <- _. intros x I.
  apply in_or_app. right. change (c :: a ++ ?t) with ((c :: a) ++ t).
  apply in_or_app. right. apply in_or_app. right. apply in_or_app. now left.
Qed.

Lemma keeps_blank_lines : keeps_chars m_blank_lines.
Proof.
  intros prev s out n. unfold m_blank_lines.
  destruct s as [|c s]; [discriminate|]. cbn [span].
  destruct (is_lf c) eqn:C.
  - destruct (span is_lf s) as [a b]. cbn [fst].
    destruct (2 <=? length (c :: a)); [|discriminate].
    intros E. injection E as <- _. intros x [<- | []]. left.
    unfold is_lf in C. apply N.eqb_eq in C. unfold ord in C.
    rewrite <- (ascii_N_embedding c), C. reflexivity.
  - discriminate.
Qed.

(** [text.replace(a, b)] for two characters. *)
Lemma replace_char_map (a b : ascii) (s : str) :
  replace [a] [b] s = map (fun c => if Ascii.eqb a c then b else c) s.
Proof.
  unfold replace, re_sub. generalize (@None ascii).
  induction s as [|c s IH]; intros prev; [reflexivity|].
  cbn [re_sub_from map]. rewrite m_literal_char.
  destruct (Ascii.eqb a c); cbn [app]; now rewrite IH.
Qed.

Lemma splitlines_from_Forall (P : ascii -> Prop) (n : nat) :
  forall s cur, length s <= n -> Forall P s -> Forall P cur ->
    Forall (Forall P) (splitlines_from cur s).
Proof.
  induction n as [|n IH]; intros s cur L Fs Fc.
  - destruct s; [|cbn [length] in L; lia]. cbn [splitlines_from].
    destruct cur; repeat constructor. now apply Forall_rev.
  - destruct s as [|c s]; cbn [splitlines_from].
    + destruct cur; repeat constructor. now apply Forall_rev.
    + cbn [length] in L. inversion Fs as [|? ? Pc Fs']; subst.
      destruct (is_linebreak c).
      * destruct s as [|d s]; [repeat constructor; now apply Forall_rev|].
        cbn [length] in L. inversion Fs' as [|? ? Pd Fs'']; subst.
        destruct ((ord c =? 13)%N && (ord d =? 10)%N);
          (constructor; [now apply Forall_rev | apply IH; [cbn [length]; lia | auto..]]).
      * apply IH; [lia | exact Fs' | now constructor].
Qed.

Lemma body_lines_Forall (Q : str -> Prop) (lines : list str) :
  Forall Q lines -> Forall Q (body_lines lines).
Proof.
  intros F. unfold body_lines. destruct lines as [|first rest]; [constructor|].
  destruct (title_re first); [|exact F].
  inversion F; subst. now apply drop_while_Forall.
Qed.

(** Lines 598-611 write no character that the text does not hold, the space
    apart. *)
Lemma strip_markup_Forall (P : ascii -> Prop) (text : str) :
  P " "%char -> Forall P text -> Forall P (strip_markup text).
Proof.
  intros Sp F. unfold strip_markup.
  apply re_sub_keeps; [apply keeps_blank_lines|].
  apply re_sub_keeps; [apply keeps_xref|].
  do 3 (apply re_sub_keeps; [apply keeps_quoted|]).
  apply re_sub_keeps; [apply keeps_comment|].
  apply re_sub_keeps; [apply keeps_literal_deleted|].
  change (lit "|") with ["|"%char]. change (lit " ") with [" "%char].
  rewrite replace_char_map. apply Forall_map.
  match goal with |- Forall _ ?x => assert (G : Forall P x) end.
  { apply re_sub_keeps; [apply keeps_literal_deleted|].
    apply re_sub_keeps; [apply keeps_image|].
    do 2 (apply re_sub_keeps; [apply keeps_delimited|]).
    apply re_sub_keeps; [apply keeps_list_marker|].
    apply re_sub_keeps; [apply keeps_section_title | exact F]. }
  apply (Forall_impl _ (P := P)); [|exact G].
  intros c Pc. now destruct (Ascii.eqb "|" c).
Qed.

(** After line 604 no vertical bar is left, and none comes back. *)
Lemma strip_markup_no_bar (text : str) :
  Forall (fun c => Ascii.eqb "|" c = false) (strip_markup text).
Proof.
  unfold strip_markup.
  apply re_sub_keeps; [apply keeps_blank_lines|].
  apply re_sub_keeps; [apply keeps_xref|].
  do 3 (apply re_sub_keeps; [apply keeps_quoted|]).
  apply re_sub_keeps; [apply keeps_comment|].
  apply re_sub_keeps; [apply keeps_literal_deleted|].
  change (lit "|") with ["|"%char]. change (lit " ") with [" "%char].
  rewrite replace_char_map. apply Forall_map, Forall_forall. intros c _.
  now destruct (Ascii.eqb "|" c) eqn:E.
Qed.

(** ** Blank lines of the payload *)

Lemma span_stop (p : ascii -> bool) (s : str) :
  snd (span p s) = [] \/ exists d t, snd (span p s) = d :: t /\ p d = false.
Proof.
  induction s as [|c s IH]; [now left|].
  cbn [span]. destruct (p c) eqn:Pc.
  - destruct (span p s) as [a b]. exact IH.
  - right. now exists c, s.
Qed.

Lemma lf_eqb (c : ascii) : Ascii.eqb LF c = is_lf c.
Proof. by_character c. Qed.

Lemma m_blank_lines_eq (prev : option ascii) (s : str) :
  m_blank_lines prev s
  = if 2 <=? length (fst (span is_lf s))
    then Some ([LF], length (fst (span is_lf s))) else None.
Proof. reflexivity. Qed.

Lemma is_lf_eq (c : ascii) : is_lf c = true -> c = LF.
Proof.
  unfold is_lf, ord. intros C. apply N.eqb_eq in C.
  now rewrite <- (ascii_N_embedding c), C.
Qed.

(** [re.sub] of a run of two line feeds or more by one line feed leaves no
    two line feeds side by side. *)
Lemma blank_lines_collapsed (n : nat) :
  forall s prev, length s <= n ->
    contains [LF; LF] (re_sub_from m_blank_lines prev 0 s) = false
    /\ (match s with
        | c :: _ => is_lf c = false
        | [] => True
        end -> starts_with [LF] (re_sub_from m_blank_lines prev 0 s) = false).
Proof.
  induction n as [|n IH]; intros s prev L.
  - destruct s; [|cbn [length] in L; lia]. split; reflexivity.
  - destruct s as [|c s]; [split; reflexivity|]. cbn [length] in L.
    cbn [re_sub_from]. rewrite m_blank_lines_eq. cbn [span].
    destruct (is_lf c) eqn:C.
    + apply is_lf_eq in C. subst c.
      pose proof (span_join is_lf s) as J. pose proof (span_stop is_lf s) as St.
      pose proof (span_length is_lf s) as Len.
      destruct (span is_lf s) as [a b]. cbn [fst snd] in *.
      assert (R : forall q, contains [LF; LF] (LF :: re_sub_from m_blank_lines q 0 b)
                            = false).
      { intros q. destruct (IH b q ltac:(lia)) as [N H].
        cbn [contains]. rewrite N, orb_false_r.
        cbn [starts_with]. rewrite Ascii.eqb_refl. cbn [andb].
        apply H. destruct St as [-> | [d [t [-> D]]]]; [exact I | exact D]. }
      split; [|discriminate].
      destruct a as [|a0 a]; cbn [length Nat.leb fst].
      * cbn [app] in J. subst s. apply R.
      * subst s. change (S (length a)) with (length (a0 :: a)).
        rewrite re_sub_from_skip. apply R.
    + cbn [fst length Nat.leb]. destruct (IH s (Some c) ltac:(lia)) as [N H].
      split.
      * cbn [contains starts_with]. now rewrite lf_eqb, C, N.
      * intros _. cbn [starts_with]. now rewrite lf_eqb, C.
Qed.

Lemma contains_infix (p a s b : str) :
  contains p (a ++ s ++ b) = false -> contains p s = false.
Proof.
  intros H. destruct (contains p s) eqn:C; [|reflexivity].
  apply contains_spec in C as [pre [post ->]]. rewrite <- H. symmetry.
  apply contains_spec. exists (a ++ pre), (post ++ b). now rewrite <- !app_assoc.
Qed.

Lemma strip_by_infix (p : ascii -> bool) (s : str) :
  exists a b, s = a ++ strip_by p s ++ b.
Proof.
  unfold strip_by, rstrip_by, lstrip_by.
  destruct (drop_while_suffix p s) as [d1 E1].
  destruct (drop_while_suffix p (rev (drop_while p s))) as [d2 E2].
  exists d1, (rev d2). rewrite <- rev_app_distr, <- E2, rev_involutive. exact E1.
Qed.

(** X17.  The payload of an AsciiDoc file, whatever the file holds and
    whatever the limit: it has at most [max_len] characters; each of its
    characters is a character of the file, a space or a line feed; it holds
    no vertical bar and no two line feeds side by side (no blank line); and
    it does not begin with white space. *)
Theorem payload_shape (content : str) (max_len : nat) :
  let payload := extract_adoc_payload content max_len in
  length payload <= max_len
  /\ Forall (fun c => In c content \/ c = " "%char \/ c = LF) payload
  /\ char_in payload "|" = false
  /\ contains [LF; LF] payload = false
  /\ match payload with c :: _ => is_space c = false | [] => True end.
Proof.
  cbv zeta. unfold extract_adoc_payload.
  set (text := join [LF] (body_lines (splitlines content))).
  split; [rewrite length_firstn; lia|]. split; [|split; [|split]].
  - apply firstn_Forall, strip_by_Forall, strip_markup_Forall;
      [right; left; reflexivity|].
    apply join_Forall; [constructor; [right; right; reflexivity | constructor]|].
    apply body_lines_Forall.
    apply (Forall_impl (Forall (fun c => In c content \/ c = " "%char \/ c = LF))
             (P := Forall (fun c => In c content))).
    + intros line F. eapply Forall_impl; [|exact F]. auto.
    + apply (splitlines_from_Forall _ (length content)); [lia | | constructor].
      now apply Forall_forall.
  - unfold char_in.
    destruct (existsb _ _) eqn:E; [|reflexivity].
    apply existsb_exists in E as [c [I E]].
    pose proof (firstn_Forall _ max_len _
                  (strip_by_Forall _ is_space _ (strip_markup_no_bar text))) as F.
    rewrite Forall_forall in F. specialize (F c I). cbv beta in F. congruence.
  - destruct (strip_by_infix is_space (strip_markup text)) as [a [b E]].
    apply (contains_infix _ a _ (skipn max_len (strip (strip_markup text)) ++ b)).
    rewrite (app_assoc (firstn _ _) (skipn _ _) b), firstn_skipn.
    unfold strip. rewrite <- E. unfold strip_markup.
    unfold re_sub at 1.
    match goal with
    | |- contains _ (re_sub_from _ _ _ ?x) = _ =>
        apply (blank_lines_collapsed (length x) x None); lia
    end.
  - destruct (strip_by_ends is_space (strip_markup text)) as [E | [c [l [H [S _]]]]];
      unfold strip.
    + rewrite E. now destruct max_len.
    + destruct (strip_by is_space (strip_markup text)) as [|d t]; [discriminate|].
      cbn [hd_error] in H. injection H as ->.
      destruct max_len; [exact I | exact S].
Qed.

(** ** The options of the command line *)

Lemma split_once_joined (sep : ascii) (key value : str) :
  char_in key sep = false ->
  split_once sep (key ++ sep :: value) = Some (key, value).
Proof.
  unfold char_in. induction key as [|c key IH]; cbn [existsb app split_once]; intros H.
  - now rewrite Ascii.eqb_refl.
  - apply orb_false_iff in H as [C H]. rewrite Ascii.eqb_sym, C, (IH H). reflexivity.
Qed.

Lemma split_once_absent (sep : ascii) (s : str) :
  char_in s sep = false -> split_once sep s = None.
Proof.
  unfold char_in. induction s as [|c s IH]; cbn [existsb split_once]; intros H;
    [reflexivity|].
  apply orb_false_iff in H as [C H]. now rewrite Ascii.eqb_sym, C, (IH H).
Qed.

Lemma dict_get_set (k v : str) (d : dict) : dict_get k (dict_set k v d) = Some v.
Proof.
  induction d as [|[k' v'] d IH]; cbn [dict_set dict_get].
  - now rewrite str_eqb_refl.
  - destruct (str_eqb k k') eqn:E; cbn [dict_get]; now rewrite E.
Qed.

(** X18.  The options [-a].  An option [key=value] whose key holds no
    equals sign defines [key] as [value], whatever the value holds (an
    equals sign too) and whatever the options before it defined; an option
    without an equals sign is ignored. *)
Theorem build_attribute_defines (build_attributes : list str) (key value : str) :
  char_in key "=" = false ->
  dict_get key (build_context (build_attributes ++ [key ++ lit "=" ++ value]))
  = Some value
  /\ build_context (build_attributes ++ [key]) = build_context build_attributes.
Proof.
  intros H. unfold build_context. rewrite !fold_left_app. cbn [fold_left].
  change (key ++ lit "=" ++ value) with (key ++ "="%char :: value).
  rewrite (split_once_joined "=" key value H), (split_once_absent "=" key H).
  split; [apply dict_get_set | reflexivity].
Qed.

(** X18 on two options for one key. *)
Lemma build_attribute_defines_witness :
  dict_get "build-type"
    (build_context (lits ["build-type=community"] ++ [lit "build-type" ++ lit "=" ++ lit "a=b"]))
  = Some (lit "a=b")
  /\ build_context (lits ["build-type=community"] ++ [lit "build-type"])
     = build_context (lits ["build-type=community"]).
Proof.
  apply (build_attribute_defines (lits ["build-type=community"]) "build-type" "a=b").
  reflexivity.
Defined.

Lemma split_on_pieces (sep : ascii) (s : str) :
  Forall (fun piece => char_in piece sep = false) (split_on sep s).
Proof.
  induction s as [|c s IH]; cbn [split_on]; [now repeat constructor|].
  destruct (Ascii.eqb c sep) eqn:E; [now constructor|].
  destruct (split_on sep s) as [|w ws]; [repeat constructor|].
  - unfold char_in. cbn [existsb]. now rewrite Ascii.eqb_sym, E.
  - inversion IH; subst. constructor; [|assumption].
    unfold char_in in *. cbn [existsb]. now rewrite Ascii.eqb_sym, E.
Qed.

(** X19.  The terms of [--banned-terms]: each string added to
    [BANNED_LITERALS] is a piece of the option between two commas, without
    the white space around it: it holds no comma and neither begins nor
    ends with white space. *)
Theorem banned_terms_are_trimmed (banned_terms : option str) (term : str) :
  In term (banned_terms_added banned_terms) ->
  char_in term "," = false /\ strip term = term.
Proof.
  unfold banned_terms_added. destruct banned_terms as [[|c s]|]; try contradiction.
  intros I. apply in_map_iff in I as [piece [<- I]].
  pose proof (split_on_pieces "," (c :: s)) as F. rewrite Forall_forall in F.
  specialize (F piece I). split; [|apply strip_by_idempotent].
  unfold char_in in *. destruct (existsb _ (strip piece)) eqn:E; [|reflexivity].
  apply existsb_exists in E as [x [Ix Ex]].
  assert (G : Forall (fun y => In y piece) (strip piece))
    by (apply strip_by_Forall; now apply Forall_forall).
  rewrite Forall_forall in G. specialize (G x Ix).
  rewrite <- F. symmetry. apply existsb_exists. now exists x.
Qed.

(** X19 on an option of two terms and a final comma. *)
Lemma banned_terms_are_trimmed_witness :
  char_in (lit "SUSE Manager") "," = false
  /\ strip (lit "SUSE Manager") = lit "SUSE Manager".
Proof.
  apply (banned_terms_are_trimmed (Some (lit "Leap, SUSE Manager ,"))).
  vm_compute. right. now left.
Defined.

(** ** An entity reference and its name *)

Lemma char_in_absent (s : str) (c : ascii) : char_in s c = false -> ~ In c s.
Proof.
  unfold char_in. intros H I.
  assert (E : existsb (Ascii.eqb c) s = true)
    by (apply existsb_exists; exists c; split; [exact I | apply Ascii.eqb_refl]).
  congruence.
Qed.

(** Two ways to cut a text at a character that it holds once are one. *)
Lemma single_split {A : Type} (c : A) (a b a' b' : list A) :
  a ++ c :: b = a' ++ c :: b' -> ~ In c a -> ~ In c b -> a = a' /\ b = b'.
Proof.
  revert a'. induction a as [|x a IH]; intros a' E Na Nb.
  - destruct a' as [|y a']; cbn [app] in E.
    + injection E as ->. now split.
    + injection E as <- ->. exfalso. apply Nb. apply in_or_app. right. now left.
  - destruct a' as [|y a']; cbn [app] in E.
    + injection E as -> _. exfalso. apply Na. now left.
    + injection E as -> E. destruct (IH a' E) as [-> ->]; auto.
      intros I. apply Na. now right.
Qed.

(** Two ways to cut a text at the first occurrence of a character are
    one. *)
Lemma first_split {A : Type} (c : A) (a b a' b' : list A) :
  a ++ c :: b = a' ++ c :: b' -> ~ In c a -> ~ In c a' -> a = a' /\ b = b'.
Proof.
  revert a'. induction a as [|x a IH]; intros a' E Na Na'.
  - destruct a' as [|y a']; cbn [app] in E.
    + injection E as ->. now split.
    + injection E as <- _. exfalso. apply Na'. now left.
  - destruct a' as [|y a']; cbn [app] in E.
    + injection E as -> _. exfalso. apply Na. now left.
    + injection E as -> E. destruct (IH a' E) as [-> ->]; auto.
      * intros I. apply Na. now right.
      * intros I. apply Na'. now right.
Qed.

(** [text.replace(old, new)] on a text that holds [old] once, between two
    texts without the first character of [old]. *)
Lemma replace_once (a : ascii) (old new pre post : str) :
  ~ In a pre -> ~ In a post ->
  replace (a :: old) new (pre ++ (a :: old) ++ post) = pre ++ new ++ post.
Proof.
  intros Npre Npost.
  assert (Miss : forall text, ~ In a text ->
            forall p c t, In c text -> m_literal (a :: old) new p (c :: t) = None).
  { intros text N p c t I. unfold m_literal. cbn [take_lit].
    destruct (Ascii.eqb a c) eqn:E; [|reflexivity].
    apply Ascii.eqb_eq in E. subst c. contradiction. }
  unfold replace, re_sub.
  rewrite (re_sub_from_copy _ pre _ None (Miss pre Npre)).
  cbn [app re_sub_from].
  assert (M : forall p, m_literal (a :: old) new p (a :: old ++ post)
                        = Some (new, S (length old))).
  { intros p. unfold m_literal.
    change (a :: old ++ post) with ((a :: old) ++ post). now rewrite take_lit_same. }
  rewrite M, re_sub_from_skip.
  rewrite <- (app_nil_r post) at 1.
  rewrite (re_sub_from_copy _ post [] _ (Miss post Npost)).
  cbn [re_sub_from]. unfold m_literal at 1. cbn [take_lit]. now rewrite app_nil_r.
Qed.

Section KnownEntity.

Variables (brand : Brand) (pre post : str).

Hypothesis key_plain : char_in (key brand) "&" = false.
Hypothesis pre_plain : char_in pre "&" = false.
Hypothesis post_plain : char_in post "&" = false.
Hypothesis name_plain : char_in (name brand) "&" = false.

(** The text before and after the substitution. *)
Definition referring : str := pre ++ entity_ref brand ++ post.
Definition resolved : str := pre ++ name brand ++ post.

(** One step of the loop of [resolve_entities_in_string]. *)
Definition resolve_one (text : str) (b : Brand) : str :=
  if contains (entity_ref b) text
  then replace (entity_ref b) (name b) text
  else text.

Lemma resolved_is_plain : char_in resolved "&" = false.
Proof.
  unfold resolved, char_in in *. rewrite !existsb_app.
  now rewrite pre_plain, name_plain, post_plain.
Qed.

Lemma resolve_one_resolved (b : Brand) : resolve_one resolved b = resolved.
Proof.
  unfold resolve_one. destruct (contains (entity_ref b) resolved) eqn:C; [|reflexivity].
  apply contains_head in C. now rewrite resolved_is_plain in C.
Qed.

Lemma resolve_one_same_key (b : Brand) :
  key b = key brand -> name b = name brand -> resolve_one referring b = resolved.
Proof.
  intros K N. unfold resolve_one, referring, resolved.
  replace (entity_ref b) with (entity_ref brand)
    by (unfold entity_ref; now rewrite K).
  rewrite N.
  assert (T : contains (entity_ref brand) (pre ++ entity_ref brand ++ post) = true)
    by (apply contains_spec; now exists pre, post).
  rewrite T. change (entity_ref brand) with ("&"%char :: (key brand ++ lit ";")).
  apply replace_once; now apply char_in_absent.
Qed.

Lemma resolve_one_other_key (b : Brand) :
  char_in (key b) ";" = false -> char_in (key brand) ";" = false ->
  key b <> key brand -> resolve_one referring b = referring.
Proof.
  intros Sb Sk K. unfold resolve_one.
  destruct (contains (entity_ref b) referring) eqn:C; [|reflexivity].
  exfalso. apply K. apply contains_spec in C as [x [y E]].
  unfold referring, entity_ref in E.
  cbn [app lit list_ascii_of_string] in E. rewrite <- !app_assoc in E.
  cbn [app] in E.
  apply single_split in E as [_ E].
  - apply first_split in E as [E _]; [now symmetry | |]; now apply char_in_absent.
  - now apply char_in_absent.
  - intros I. apply in_app_or in I as [I | [I | I]].
    + now apply (char_in_absent _ _ key_plain).
    + discriminate I.
    + now apply (char_in_absent _ _ post_plain).
Qed.

Lemma resolve_all (brands : list Brand) :
  (forall b, In b brands -> char_in (key b) ";" = false) ->
  (forall b, In b brands -> key b = key brand -> name b = name brand) ->
  char_in (key brand) ";" = false ->
  fold_left resolve_one brands referring
  = if existsb (fun b => str_eqb (key b) (key brand)) brands
    then resolved else referring.
Proof.
  intros S N Sk. induction brands as [|b brands IH]; [reflexivity|].
  cbn [fold_left existsb]. destruct (str_eqb (key b) (key brand)) eqn:E.
  - apply str_eqb_eq in E.
    rewrite (resolve_one_same_key b E (N b (or_introl eq_refl) E)).
    cbn [orb]. apply fold_left_fixed. intros a _. apply resolve_one_resolved.
  - apply str_eqb_neq in E.
    rewrite (resolve_one_other_key b (S b (or_introl eq_refl)) Sk E).
    cbn [orb]. apply IH; intros a I; [apply S | apply N]; now right.
Qed.

End KnownEntity.

(** X20.  A reference to a known entity is replaced by its name.  For a
    brand of the list whose key holds no ampersand and whose name holds
    none, when no key of the list holds a semicolon and the brands that
    share its key share its name, the text [pre &key; post], with no other
    ampersand in it, becomes [pre name post]. *)
Theorem known_entity_is_resolved (brand : Brand) (brands : list Brand) (pre post : str) :
  In brand brands ->
  (forall b, In b brands -> char_in (key b) ";" = false) ->
  (forall b, In b brands -> key b = key brand -> name b = name brand) ->
  char_in (key brand) "&" = false ->
  char_in (name brand) "&" = false ->
  char_in pre "&" = false ->
  char_in post "&" = false ->
  resolve_entities_in_string (pre ++ entity_ref brand ++ post) brands
  = pre ++ name brand ++ post.
Proof.
  intros I S N Kp Np Pp Qp. unfold resolve_entities_in_string.
  destruct brands as [|b0 brands]; [contradiction|].
  change (fold_left _ ?l ?t) with (fold_left resolve_one l t).
  change (pre ++ entity_ref brand ++ post) with (referring brand pre post).
  rewrite (resolve_all brand pre post Kp Pp Qp Np).
  - assert (E : existsb (fun b => str_eqb (key b) (key brand))
                  (sorted_by_len_desc key (b0 :: brands)) = true).
    { apply existsb_exists. exists brand. split; [|apply str_eqb_refl].
      now apply sorted_by_len_desc_In. }
    now rewrite E.
  - intros b Ib. apply S. now apply sorted_by_len_desc_In in Ib.
  - intros b Ib. apply N. now apply sorted_by_len_desc_In in Ib.
  - now apply S.
Qed.

(** X20 on a description that names one of two brands by its entity. *)
Lemma known_entity_is_resolved_witness :
  resolve_entities_in_string
    (lit "Register with " ++ entity_ref brand_suma ++ lit " first")
    [brand_leap; brand_suma]
  = lit "Register with " ++ name brand_suma ++ lit " first".
Proof.
  apply (known_entity_is_resolved brand_suma [brand_leap; brand_suma]
           "Register with " " first").
  - right. now left.
  - intros b [<- | [<- | []]]; reflexivity.
  - intros b [<- | [<- | []]]; [discriminate | reflexivity].
  - reflexivity.
  - reflexivity.
  - reflexivity.
  - reflexivity.
Defined.
